(** * A two-level cache simulator with an optional victim cache

    Shallow embedding of [cachesim.cpp]: the [Block], [Set], [VictimCache]
    and [Cache] classes, the three entry points [setup_cache],
    [cache_access] and [complete_cache], the properties of the simulation
    that its specification states, and further properties of the code: the
    accounting of the counters, the configurations without undefined
    behaviour, the contents of the sets and of the victim cache, hits, and
    the calls that a miss makes.

    Conventions.
    - A [uint64_t] is an [N]; the only operation of the program that can
      wrap is the post-increment of a counter, written [u64_incr].
    - Undefined behaviour of the C++ program (division by zero, [back()] on
      an empty list, indexing outside the array of sets, converting an
      out-of-range [double] to [uint64_t]) is the result [None].
    - The program has no [throw] and no [catch]: the only exceptions are
      those of an allocation that the free store does not serve.  The
      constructors allocate, so they and [setup_cache] have one of three
      outcomes, [Returns], [Throws] or [Undefined], and take the room of
      the free store as their last argument.  Afterwards a list gets a node
      only where it has lost one before (a hit erases the block that it
      pushes back at the front, a miss pops the back before it pushes the
      new line, the victim cache refills what a probe has erased), so that
      no list outgrows what its constructor obtained and [Cache::read] and
      [Cache::write] do not depend on the free store.
    - [list<Block>] is [list Block], front of the list first.
    - The next level of the hierarchy ([Cache *memory]) is a value of a type
      [M] that offers the two member functions [read] and [write]; the
      level below L2 ([nullptr]) is the empty type. *)

From Stdlib Require Import NArith ZArith SpecFloat Ascii.
From stdpp Require Import base tactics option list numbers.

Local Open Scope N_scope.

(** ** Machine integers *)

(** [x++] on a [uint64_t]. *)
Definition u64_incr (x : N) : N := (x + 1) mod 2 ^ 64.

(** [x / y] on [uint64_t]; division by zero is undefined. *)
Definition u64_div (x y : N) : option N :=
  if y =? 0 then None else Some (x / y).

(** [x % y] on [uint64_t]; division by zero is undefined. *)
Definition u64_rem (x y : N) : option N :=
  if y =? 0 then None else Some (x mod y).

(** [(uint64_t) pow(2, e)]: exact for [e < 64], undefined from 64 on (the
    [double] is out of the range of [uint64_t]). *)
Definition pow2 (e : N) : option N :=
  if e <? 64 then Some (2 ^ e) else None.

(** ** Outcomes and the free store *)

(** What a call of a constructor or of [setup_cache] comes to: it returns,
    an exception leaves it ([std::bad_alloc] or
    [std::bad_array_new_length], nothing else is thrown and nothing is
    caught), or its behaviour is undefined. *)
Inductive outcome (A : Type) : Type :=
  | Returns (a : A)
  | Throws
  | Undefined.

Arguments Returns {A} a.
Arguments Throws {A}.
Arguments Undefined {A}.

#[global] Instance outcome_ret : MRet outcome := @Returns.

#[global] Instance outcome_bind : MBind outcome := λ A B f o,
  match o with
  | Returns a => f a
  | Throws => Throws
  | Undefined => Undefined
  end.

(** An operation on integers inside a constructor. *)
Definition defined {A : Type} (o : option A) : outcome A :=
  match o with
  | Some a => Returns a
  | None => Undefined
  end.

(** What a call has built, when it has returned. *)
Definition returned {A : Type} (o : outcome A) : option A :=
  match o with
  | Returns a => Some a
  | _ => None
  end.

(** The free store is known by its room [heap]: the number of objects
    (caches, victim caches, sets, nodes of lists) that it can still hold.
    [new], [new[]] and the allocator of [std::list] take the storage of [n]
    objects from it, and throw when it has not that much.  The room is a
    fact about the machine and not about the program: it is an argument of
    [setup_cache] and of every theorem about it. *)
Definition allocate (n heap : N) : outcome N :=
  if n <=? heap then Returns (heap - n) else Throws.

(** ** Statistics *)

(** Modelled from the spec: the header [cachesim.hpp], which declares
    [cache_stats_t] and the event tags [READ] and [WRITE], is not among the
    sources. The record has the counters that [cachesim.cpp] updates, as
    64-bit unsigned integers, and the derived field
    [avg_access_time_l1]. *)
Record cache_stats_t : Type := mk_stats {
  accesses : N;
  accesses_l2 : N;
  accesses_vc : N;
  reads : N;
  writes : N;
  read_misses_l1 : N;
  read_misses_l2 : N;
  write_misses_l1 : N;
  write_misses_l2 : N;
  write_back_l1 : N;
  write_back_l2 : N;
  victim_hits : N;
  avg_access_time_l1 : spec_float
}.

(** Modelled from the spec: the two event tags of the trace. *)
Definition READ : ascii := "r"%char.
Definition WRITE : ascii := "w"%char.

Definition incr_accesses (s : cache_stats_t) : cache_stats_t :=
  mk_stats (u64_incr (accesses s)) (accesses_l2 s) (accesses_vc s) (reads s)
    (writes s) (read_misses_l1 s) (read_misses_l2 s) (write_misses_l1 s)
    (write_misses_l2 s) (write_back_l1 s) (write_back_l2 s) (victim_hits s)
    (avg_access_time_l1 s).

Definition incr_accesses_l2 (s : cache_stats_t) : cache_stats_t :=
  mk_stats (accesses s) (u64_incr (accesses_l2 s)) (accesses_vc s) (reads s)
    (writes s) (read_misses_l1 s) (read_misses_l2 s) (write_misses_l1 s)
    (write_misses_l2 s) (write_back_l1 s) (write_back_l2 s) (victim_hits s)
    (avg_access_time_l1 s).

Definition incr_accesses_vc (s : cache_stats_t) : cache_stats_t :=
  mk_stats (accesses s) (accesses_l2 s) (u64_incr (accesses_vc s)) (reads s)
    (writes s) (read_misses_l1 s) (read_misses_l2 s) (write_misses_l1 s)
    (write_misses_l2 s) (write_back_l1 s) (write_back_l2 s) (victim_hits s)
    (avg_access_time_l1 s).

Definition incr_reads (s : cache_stats_t) : cache_stats_t :=
  mk_stats (accesses s) (accesses_l2 s) (accesses_vc s) (u64_incr (reads s))
    (writes s) (read_misses_l1 s) (read_misses_l2 s) (write_misses_l1 s)
    (write_misses_l2 s) (write_back_l1 s) (write_back_l2 s) (victim_hits s)
    (avg_access_time_l1 s).

Definition incr_writes (s : cache_stats_t) : cache_stats_t :=
  mk_stats (accesses s) (accesses_l2 s) (accesses_vc s) (reads s)
    (u64_incr (writes s)) (read_misses_l1 s) (read_misses_l2 s)
    (write_misses_l1 s) (write_misses_l2 s) (write_back_l1 s)
    (write_back_l2 s) (victim_hits s) (avg_access_time_l1 s).

Definition incr_read_misses_l1 (s : cache_stats_t) : cache_stats_t :=
  mk_stats (accesses s) (accesses_l2 s) (accesses_vc s) (reads s) (writes s)
    (u64_incr (read_misses_l1 s)) (read_misses_l2 s) (write_misses_l1 s)
    (write_misses_l2 s) (write_back_l1 s) (write_back_l2 s) (victim_hits s)
    (avg_access_time_l1 s).

Definition incr_read_misses_l2 (s : cache_stats_t) : cache_stats_t :=
  mk_stats (accesses s) (accesses_l2 s) (accesses_vc s) (reads s) (writes s)
    (read_misses_l1 s) (u64_incr (read_misses_l2 s)) (write_misses_l1 s)
    (write_misses_l2 s) (write_back_l1 s) (write_back_l2 s) (victim_hits s)
    (avg_access_time_l1 s).

Definition incr_write_misses_l1 (s : cache_stats_t) : cache_stats_t :=
  mk_stats (accesses s) (accesses_l2 s) (accesses_vc s) (reads s) (writes s)
    (read_misses_l1 s) (read_misses_l2 s) (u64_incr (write_misses_l1 s))
    (write_misses_l2 s) (write_back_l1 s) (write_back_l2 s) (victim_hits s)
    (avg_access_time_l1 s).

Definition incr_write_misses_l2 (s : cache_stats_t) : cache_stats_t :=
  mk_stats (accesses s) (accesses_l2 s) (accesses_vc s) (reads s) (writes s)
    (read_misses_l1 s) (read_misses_l2 s) (write_misses_l1 s)
    (u64_incr (write_misses_l2 s)) (write_back_l1 s) (write_back_l2 s)
    (victim_hits s) (avg_access_time_l1 s).

Definition incr_write_back_l1 (s : cache_stats_t) : cache_stats_t :=
  mk_stats (accesses s) (accesses_l2 s) (accesses_vc s) (reads s) (writes s)
    (read_misses_l1 s) (read_misses_l2 s) (write_misses_l1 s)
    (write_misses_l2 s) (u64_incr (write_back_l1 s)) (write_back_l2 s)
    (victim_hits s) (avg_access_time_l1 s).

Definition incr_write_back_l2 (s : cache_stats_t) : cache_stats_t :=
  mk_stats (accesses s) (accesses_l2 s) (accesses_vc s) (reads s) (writes s)
    (read_misses_l1 s) (read_misses_l2 s) (write_misses_l1 s)
    (write_misses_l2 s) (write_back_l1 s) (u64_incr (write_back_l2 s))
    (victim_hits s) (avg_access_time_l1 s).

Definition incr_victim_hits (s : cache_stats_t) : cache_stats_t :=
  mk_stats (accesses s) (accesses_l2 s) (accesses_vc s) (reads s) (writes s)
    (read_misses_l1 s) (read_misses_l2 s) (write_misses_l1 s)
    (write_misses_l2 s) (write_back_l1 s) (write_back_l2 s)
    (u64_incr (victim_hits s)) (avg_access_time_l1 s).

Definition set_avg_access_time_l1 (x : spec_float) (s : cache_stats_t)
  : cache_stats_t :=
  mk_stats (accesses s) (accesses_l2 s) (accesses_vc s) (reads s) (writes s)
    (read_misses_l1 s) (read_misses_l2 s) (write_misses_l1 s)
    (write_misses_l2 s) (write_back_l1 s) (write_back_l2 s) (victim_hits s) x.

(** ** Blocks *)

(** [enum class CacheID { L1, L2 }]. *)
Module CacheID.

Inductive t : Set := L1 | L2.

Definition eqb (x y : t) : bool :=
  match x, y with
  | L1, L1 | L2, L2 => true
  | _, _ => false
  end.

End CacheID.

Record Block : Type := mkBlock {
  valid : bool;
  dirty : bool;
  tag : N;
  address : N
}.

(** [Block()], all the default arguments of the constructor. *)
Definition Block_default : Block := mkBlock false false 0 0.

(** [Block::operator==]: both valid and the same tag. *)
Definition Block_eq (this other : Block) : bool :=
  valid this && valid other && (tag this =? tag other).

(** [block.dirty = true]. *)
Definition set_dirty (block : Block) : Block :=
  mkBlock (valid block) true (tag block) (address block).

(** [list<Block>::remove(value)]: erases every element [e] with
    [e == value]. *)
Fixpoint remove (value : Block) (l : list Block) : list Block :=
  match l with
  | [] => []
  | e :: l' => if Block_eq e value then remove value l' else e :: remove value l'
  end.

(** The scan shared by [VictimCache::read], [Cache::read] and
    [Cache::write]: the first block, from the front, with
    [block.valid && block.tag == tag]. *)
Fixpoint scan (t : N) (l : list Block) : option Block :=
  match l with
  | [] => None
  | block :: l' => if valid block && (tag block =? t) then Some block else scan t l'
  end.

(** [blocks.back()] is the last element and is undefined on an empty list, as is
    [blocks.pop_back()], which is [removelast blocks] otherwise. *)
Definition pop_back (l : list Block) : option (Block * list Block) :=
  block ← list.last l; Some (block, removelast l).

(** ** The trace of a simulation

    The simulation is instrumented with a ghost trace that records, in
    program order, the calls received by each level and the blocks that
    leave and enter the sets. The trace is written, never read: it has no
    influence on the caches or on the counters. *)
Inductive event : Type :=
  | EvRead (id : CacheID.t) (a : N)
      (** [Cache::read(a)] entered at level [id] *)
  | EvWrite (id : CacheID.t) (a : N) (isWriteBack : bool)
      (** [Cache::write(a, isWriteBack)] entered at level [id] *)
  | EvEvict (id : CacheID.t) (block : Block)
      (** [block] taken from the back of a set of level [id] *)
  | EvAbsorb (id : CacheID.t) (block : Block)
      (** the evicted [block] handed to the victim cache of level [id] *)
  | EvVictimDrop (block : Block)
      (** the victim cache dropped its own back entry *)
  | EvFill (id : CacheID.t) (block : Block).
      (** the new line pushed at the front of a set of level [id] *)

(** What every operation threads: the caller's statistics record and the
    ghost trace (most recent event last). *)
Record world : Type := mk_world {
  p_stats : cache_stats_t;
  trace : list event
}.

Definition upd (f : cache_stats_t → cache_stats_t) (w : world) : world :=
  mk_world (f (p_stats w)) (trace w).

Definition emit (e : event) (w : world) : world :=
  mk_world (p_stats w) (trace w ++ [e]).

(** ** The victim cache *)

Module VictimCache.

Record t : Type := mk {
  numberOfBlocks : N;
  blockSize : N;
  blocks : list Block
}.

(** [VictimCache(v, b)]; [list<Block>(numberOfBlocks, Block())] allocates
    the [v] nodes. *)
Definition new (v b heap : N) : outcome (t * N) :=
  blockSize ← defined (pow2 b);
  heap ← allocate v heap;
  Returns (mk v blockSize (replicate (N.to_nat v) Block_default), heap).

(** [bool read(address, p_stats)]: the probe. A hit erases the entry. *)
Definition read (this : t) (address : N) (w : world)
  : option (bool * t * world) :=
  let w := upd incr_accesses_vc w in
  tag ← u64_div address (blockSize this);
  match scan tag (blocks this) with
  | Some block =>
      let w := upd incr_victim_hits w in
      Some (true,
            mk (numberOfBlocks this) (blockSize this)
               (remove block (blocks this)),
            w)
  | None => Some (false, this, w)
  end.

(** [void insert(address)]: drops the back entry when full, then pushes a
    valid, clean block at the front. *)
Definition insert (this : t) (address : N) (w : world) : option (t * world) :=
  tag ← u64_div address (blockSize this);
  '(blocks, w) ←
    (if N.of_nat (length (blocks this)) =? numberOfBlocks this
     then '(block, rest) ← pop_back (blocks this);
          Some (rest, emit (EvVictimDrop block) w)
     else Some (blocks this, w));
  Some (mk (numberOfBlocks this) (blockSize this)
           (mkBlock true false tag address :: blocks),
        w).

(** [void insertInvalid()]: pushes an invalid block at the back unless
    full. *)
Definition insertInvalid (this : t) : t :=
  if negb (N.of_nat (length (blocks this)) =? numberOfBlocks this)
  then mk (numberOfBlocks this) (blockSize this)
          (blocks this ++ [mkBlock false false 0 0])
  else this.

End VictimCache.

(** ** The cache *)

(** [struct Set]. *)
Record CacheSet : Type := mkSet { blocks : list Block }.

(** What a cache needs of the level below it: the member functions
    [read(address, p_stats)] and [write(address, p_stats, isWriteBack)]
    of the object that [memory] points to. *)
Class Level (M : Type) : Type := {
  level_read : M → N → world → option (M * world);
  level_write : M → N → world → bool → option (M * world)
}.

(** Below the last cache there is no object ([memory == nullptr]). *)
#[global] Instance no_level : Level Empty_set := {
  level_read m _ _ := match m with end;
  level_write m _ _ _ := match m with end
}.

Module Cache.

Record t (M : Type) : Type := mk {
  cacheID : CacheID.t;
  cacheSize : N;
  blockSize : N;
  associativity : N;
  sets : list CacheSet;
  victimCache : option VictimCache.t;
  memory : option M
}.

Arguments mk {M} _ _ _ _ _ _ _.
Arguments cacheID {M} _.
Arguments cacheSize {M} _.
Arguments blockSize {M} _.
Arguments associativity {M} _.
Arguments sets {M} _.
Arguments victimCache {M} _.
Arguments memory {M} _.

(** The loop of the constructor over the [n] sets that are left:
    [sets[i].blocks = list<Block>(associativity, Block())] allocates the
    nodes of one set. *)
Fixpoint new_sets (n : nat) (associativity heap : N)
  : outcome (list CacheSet * N) :=
  match n with
  | O => Returns ([], heap)
  | S n =>
      heap ← allocate associativity heap;
      '(sets, heap) ← new_sets n associativity heap;
      Returns
        (mkSet (replicate (N.to_nat associativity) Block_default) :: sets,
         heap)
  end.

(** [Cache(id, c, b, s, v, cache)]. The static member [V] is assigned and
    read only here, so it is the local [v]. [new Set[numberOfSets]]
    allocates the array, the loop the blocks, [new VictimCache(v, b)] the
    victim cache and then its blocks. *)
Definition new {M : Type} (id : CacheID.t) (c b s v : N) (cache : option M)
    (heap : N) : outcome (t M * N) :=
  cacheSize ← defined (pow2 c);
  blockSize ← defined (pow2 b);
  associativity ← defined (pow2 s);
  q ← defined (u64_div cacheSize blockSize);
  numberOfSets ← defined (u64_div q associativity);
  heap ← allocate numberOfSets heap;
  '(sets, heap) ← new_sets (N.to_nat numberOfSets) associativity heap;
  '(victimCache, heap) ←
    (if v =? 0 then Returns (None, heap)
     else heap ← allocate 1 heap;
          '(vc, heap) ← VictimCache.new v b heap;
          Returns (Some vc, heap));
  Returns (mk id cacheSize blockSize associativity sets victimCache cache,
           heap).

Section Protocol.

Context {M : Type} `{Level M}.

(** [(cacheID == CacheID::L1) ? p_stats->f1++ : p_stats->f2++]. *)
Definition count (id : CacheID.t) (f1 f2 : cache_stats_t → cache_stats_t)
    (w : world) : world :=
  upd (if CacheID.eqb id CacheID.L1 then f1 else f2) w.

(** [if (memory != nullptr) memory->read(address, p_stats)]. *)
Definition fetch (memory : option M) (address : N) (w : world)
  : option (option M * world) :=
  match memory with
  | Some m => '(m, w) ← level_read m address w; Some (Some m, w)
  | None => Some (None, w)
  end.

(** The write-back of the evicted block:
    [if (block.dirty) { write_back++; if (memory != nullptr)
    memory->write(block.address, p_stats, true); }]. *)
Definition writeback (id : CacheID.t) (memory : option M) (block : Block)
    (w : world) : option (option M * world) :=
  if dirty block then
    let w := count id incr_write_back_l1 incr_write_back_l2 w in
    match memory with
    | Some m => '(m, w) ← level_write m (address block) w true; Some (Some m, w)
    | None => Some (None, w)
    end
  else Some (memory, w).

(** [if (block.valid) victimCache->insert(block.address);
    else victimCache->insertInvalid();]. *)
Definition absorb (id : CacheID.t) (vc : VictimCache.t) (block : Block)
    (w : world) : option (VictimCache.t * world) :=
  if valid block
  then VictimCache.insert vc (address block) (emit (EvAbsorb id block) w)
  else Some (VictimCache.insertInvalid vc, w).

(** The tail shared by the four miss paths of [read] and [write]: take the
    LRU block from the back of the set, write it back if dirty, hand it to
    the victim cache if there is one, push the new line at the front. *)
Definition replace (this : t M) (index : N) (blocks : list Block)
    (vc : option VictimCache.t) (memory : option M) (line : Block)
    (w : world) : option (t M * world) :=
  '(block, blocks) ← pop_back blocks;
  let w := emit (EvEvict (cacheID this) block) w in
  '(memory, w) ← writeback (cacheID this) memory block w;
  '(vc, w) ←
    match vc with
    | Some vc => '(vc, w) ← absorb (cacheID this) vc block w; Some (Some vc, w)
    | None => Some (None, w)
    end;
  let w := emit (EvFill (cacheID this) line) w in
  Some (mk (cacheID this) (cacheSize this) (blockSize this)
           (associativity this)
           (<[N.to_nat index := mkSet (line :: blocks)]> (sets this))
           vc memory,
        w).

(** The miss path of [read] and [write], from the probe of the victim cache
    on; [line] is the block to bring in. *)
Definition miss (this : t M) (address index : N) (blocks : list Block)
    (line : Block) (w : world) : option (t M * world) :=
  match victimCache this with
  | Some vc =>
      '(hit, vc, w) ← VictimCache.read vc address w;
      if hit : bool then
        replace this index blocks (Some vc) (memory this) line w
      else
        '(memory, w) ← fetch (memory this) address w;
        replace this index blocks (Some vc) memory line w
  | None =>
      '(memory, w) ← fetch (memory this) address w;
      replace this index blocks None memory line w
  end.

(** [void read(address, p_stats)]. *)
Definition read (this : t M) (address : N) (w : world)
  : option (t M * world) :=
  let w := emit (EvRead (cacheID this) address) w in
  let w := count (cacheID this) incr_accesses incr_accesses_l2 w in
  q ← u64_div (cacheSize this) (blockSize this);
  numberOfSets ← u64_div q (associativity this);
  q ← u64_div address (blockSize this);
  tag ← u64_div q numberOfSets;
  index ← u64_rem q numberOfSets;
  set ← sets this !! N.to_nat index;
  match scan tag (blocks set) with
  | Some block =>
      let blocks := block :: remove block (blocks set) in
      Some (mk (cacheID this) (cacheSize this) (blockSize this)
               (associativity this)
               (<[N.to_nat index := mkSet blocks]> (sets this))
               (victimCache this) (memory this),
            w)
  | None =>
      let w := count (cacheID this) incr_read_misses_l1 incr_read_misses_l2 w in
      miss this address index (blocks set) (mkBlock true false tag address) w
  end.

(** [void write(address, p_stats, isWriteBack)]. *)
Definition write (this : t M) (address : N) (w : world) (isWriteBack : bool)
  : option (t M * world) :=
  let w := emit (EvWrite (cacheID this) address isWriteBack) w in
  let w := count (cacheID this) incr_accesses incr_accesses_l2 w in
  q ← u64_div (cacheSize this) (blockSize this);
  numberOfSets ← u64_div q (associativity this);
  q ← u64_div address (blockSize this);
  tag ← u64_div q numberOfSets;
  index ← u64_rem q numberOfSets;
  set ← sets this !! N.to_nat index;
  match scan tag (blocks set) with
  | Some block =>
      let blocks := set_dirty block :: remove block (blocks set) in
      Some (mk (cacheID this) (cacheSize this) (blockSize this)
               (associativity this)
               (<[N.to_nat index := mkSet blocks]> (sets this))
               (victimCache this) (memory this),
            w)
  | None =>
      let w :=
        count (cacheID this) incr_write_misses_l1 incr_write_misses_l2 w in
      miss this address index (blocks set) (mkBlock true true tag address) w
  end.

End Protocol.

(** A cache is itself a level for the cache above it. *)
#[global] Instance level {M : Type} `{Level M} : Level (t M) := {
  level_read := read;
  level_write := write
}.

End Cache.

(** ** The simulator *)

(** The globals of the program. [L2] is the object that [L1->memory] points
    to, so the hierarchy holds it once, inside [L1]. *)
Record hierarchy : Type := mk_hierarchy {
  L1 : Cache.t (Cache.t Empty_set);
  s1 : N;
  s2 : N;
  v : N
}.

Definition L2 (h : hierarchy) : option (Cache.t Empty_set) :=
  Cache.memory (L1 h).

(** [setup_cache(c1, b1, s1, v, c2, b2, s2)]; each [new Cache(...)]
    allocates the object and then runs its constructor. *)
Definition setup_cache (c1 b1 s1 v c2 b2 s2 heap : N) : outcome hierarchy :=
  heap ← allocate 1 heap;
  '(L2, heap) ← Cache.new CacheID.L2 c2 b2 s2 0 None heap;
  heap ← allocate 1 heap;
  '(L1, heap) ← Cache.new CacheID.L1 c1 b1 s1 v (Some L2) heap;
  Returns (mk_hierarchy L1 s1 s2 v).

(** [cache_access(type, arg, p_stats)]; the [switch] has no default. *)
Definition cache_access (type : ascii) (arg : N) (h : hierarchy) (w : world)
  : option (hierarchy * world) :=
  if Ascii.eqb type READ then
    let w := upd incr_reads w in
    '(c, w) ← Cache.read (L1 h) arg w;
    Some (mk_hierarchy c (s1 h) (s2 h) (v h), w)
  else if Ascii.eqb type WRITE then
    let w := upd incr_writes w in
    '(c, w) ← Cache.write (L1 h) arg w false;
    Some (mk_hierarchy c (s1 h) (s2 h) (v h), w)
  else Some (h, w).

(** A whole trace, event by event. *)
Fixpoint run (events : list (ascii * N)) (h : hierarchy) (w : world)
  : option (hierarchy * world) :=
  match events with
  | [] => Some (h, w)
  | (type, arg) :: events =>
      '(h, w) ← cache_access type arg h w; run events h w
  end.

(** The statistics record before the first event. *)
Definition stats0 : cache_stats_t :=
  mk_stats 0 0 0 0 0 0 0 0 0 0 0 0 (S754_zero false).

Definition world0 : world := mk_world stats0 [].

(** ** The final statistics

    [float] and [double] are the IEEE 754 formats binary32 and binary64 of
    [SpecFloat], every operation rounded to nearest even in the format of
    its operands: a division by zero yields an infinity or a NaN and never
    traps. *)

Module F32.

Definition prec : Z := 24.
Definition emax : Z := 128.

Definition add : spec_float → spec_float → spec_float := SFadd prec emax.
Definition sub : spec_float → spec_float → spec_float := SFsub prec emax.
Definition mul : spec_float → spec_float → spec_float := SFmul prec emax.
Definition div : spec_float → spec_float → spec_float := SFdiv prec emax.

(** [(float) n] for a [uint64_t]. *)
Definition of_u64 (n : N) : spec_float :=
  binary_normalize prec emax (Z.of_N n) 0 false.

(** [(float) x] for a [double]. *)
Definition of_double (x : spec_float) : spec_float :=
  match x with
  | S754_finite s m e => binary_round prec emax s m e
  | _ => x
  end.

End F32.

Module F64.

Definition prec : Z := 53.
Definition emax : Z := 1024.

Definition add : spec_float → spec_float → spec_float := SFadd prec emax.
Definition mul : spec_float → spec_float → spec_float := SFmul prec emax.

(** The promotion of a [float] operand to [double], which is exact. *)
Definition of_float (x : spec_float) : spec_float :=
  match x with
  | S754_finite s m e => binary_round prec emax s m e
  | _ => x
  end.

(** The literals [2.0], [4.0], [500.0], and [0.2] and [0.4] rounded to
    binary64. *)
Definition lit_2 : spec_float := binary_normalize prec emax 2 0 false.
Definition lit_4 : spec_float := binary_normalize prec emax 4 0 false.
Definition lit_500 : spec_float := binary_normalize prec emax 500 0 false.
Definition lit_0_2 : spec_float := S754_finite false 7205759403792794 (-55).
Definition lit_0_4 : spec_float := S754_finite false 7205759403792794 (-54).

End F64.

(** [float mp2 = 500.0]. *)
Definition mp2 : spec_float := F32.of_double F64.lit_500.

(** [float ht2 = 4.0 + (0.4 * (float) s2)], computed in [double]. *)
Definition ht2 (h : hierarchy) : spec_float :=
  F32.of_double
    (F64.add F64.lit_4
       (F64.mul F64.lit_0_4 (F64.of_float (F32.of_u64 (s2 h))))).

(** [float mr2 = ((float) read_misses_l2 + write_misses_l2)
                 / ((float) accesses_l2)]. *)
Definition mr2 (st : cache_stats_t) : spec_float :=
  F32.div
    (F32.add (F32.of_u64 (read_misses_l2 st)) (F32.of_u64 (write_misses_l2 st)))
    (F32.of_u64 (accesses_l2 st)).

(** [float aat2 = ht2 + (mr2 * mp2)]. *)
Definition aat2 (h : hierarchy) (st : cache_stats_t) : spec_float :=
  F32.add (ht2 h) (F32.mul (mr2 st) mp2).

(** The miss rate of the victim cache,
    [((float) accesses_vc - victim_hits) / ((float) accesses_vc)]. *)
Definition mrv (st : cache_stats_t) : spec_float :=
  F32.div
    (F32.sub (F32.of_u64 (accesses_vc st)) (F32.of_u64 (victim_hits st)))
    (F32.of_u64 (accesses_vc st)).

(** [float mp1 = (v == 0) ? aat2 : (mrv * (float) aat2)]. *)
Definition mp1 (h : hierarchy) (st : cache_stats_t) : spec_float :=
  if v h =? 0 then aat2 h st else F32.mul (mrv st) (aat2 h st).

(** [float ht1 = 2.0 + (0.2 * (float) s1)], computed in [double]. *)
Definition ht1 (h : hierarchy) : spec_float :=
  F32.of_double
    (F64.add F64.lit_2
       (F64.mul F64.lit_0_2 (F64.of_float (F32.of_u64 (s1 h))))).

(** [float mr1 = ((float) read_misses_l1 + write_misses_l1)
                 / (float) accesses]. *)
Definition mr1 (st : cache_stats_t) : spec_float :=
  F32.div
    (F32.add (F32.of_u64 (read_misses_l1 st)) (F32.of_u64 (write_misses_l1 st)))
    (F32.of_u64 (accesses st)).

(** [float aat1 = ht1 + (mr1 * mp1)]. *)
Definition aat1 (h : hierarchy) (st : cache_stats_t) : spec_float :=
  F32.add (ht1 h) (F32.mul (mr1 st) (mp1 h st)).

(** [complete_cache(p_stats)]: stores [aat1], then deletes both caches. *)
Definition complete_cache (h : hierarchy) (st : cache_stats_t) : cache_stats_t :=
  set_avg_access_time_l1 (aat1 h st) st.

(** * Properties *)

(** ** Lists of blocks *)

(** The number of valid blocks of [l] that carry the tag [t]. *)
Fixpoint occurrences (t : N) (l : list Block) : nat :=
  match l with
  | [] => 0%nat
  | b :: l' =>
      if valid b && (tag b =? t) then S (occurrences t l')
      else occurrences t l'
  end.

(** At most one valid block for each tag. *)
Definition unique (l : list Block) : Prop :=
  ∀ t, (occurrences t l ≤ 1)%nat.

Lemma occurrences_app t l1 l2 :
  occurrences t (l1 ++ l2) = (occurrences t l1 + occurrences t l2)%nat.
Proof.
  induction l1 as [|b l1 IH]; simpl; [done |].
  destruct (valid b && (tag b =? t)); lia.
Qed.

Lemma occurrences_replicate_default t n :
  occurrences t (replicate n Block_default) = 0%nat.
Proof. induction n; simpl; auto. Qed.

Lemma scan_Some t l b :
  scan t l = Some b → valid b = true ∧ tag b = t ∧ b ∈ l.
Proof.
  induction l as [|x l IH]; simpl; [done |].
  destruct (valid x && (tag x =? t)) eqn:E.
  - intros [= <-]. apply andb_true_iff in E as [Hv Ht].
    apply N.eqb_eq in Ht. split_and!; [done | done | apply list_elem_of_here].
  - intros Hs. destruct (IH Hs) as (? & ? & ?).
    split_and!; [done | done | by apply list_elem_of_further].
Qed.

Lemma scan_None t l : scan t l = None ↔ occurrences t l = 0%nat.
Proof.
  induction l as [|x l IH]; simpl; [done |].
  destruct (valid x && (tag x =? t)); [split; [done | lia] | done].
Qed.

Lemma scan_is_Some t l : is_Some (scan t l) ↔ (0 < occurrences t l)%nat.
Proof.
  destruct (scan t l) eqn:E.
  - split; [| eauto]. intros _.
    destruct (occurrences t l) eqn:E'; [| lia].
    apply scan_None in E'. congruence.
  - apply scan_None in E. rewrite E. split; [intros [? [=]] | lia].
Qed.

Lemma scan_head t b l :
  valid b = true → tag b = t → scan t (b :: l) = Some b.
Proof. intros Hv Ht. simpl. by rewrite Hv, Ht, N.eqb_refl. Qed.

Lemma occurrences_elem_of b l :
  b ∈ l → valid b = true → (0 < occurrences (tag b) l)%nat.
Proof.
  induction 1 as [b l | b x l _ IH]; simpl; intros Hv.
  - rewrite Hv, N.eqb_refl. simpl. lia.
  - specialize (IH Hv). destruct (valid x && (tag x =? tag b)); lia.
Qed.

Lemma occurrences_zero_elem_of t b l :
  occurrences t l = 0%nat → b ∈ l → valid b = true → tag b ≠ t.
Proof.
  intros H0 Hb Hv <-. pose proof (occurrences_elem_of _ _ Hb Hv). lia.
Qed.

(** [remove] erases exactly the valid blocks that carry the tag of a valid
    [value], and nothing for an invalid [value]. *)
Lemma occurrences_remove_eq value l :
  valid value = true → occurrences (tag value) (remove value l) = 0%nat.
Proof.
  intros Hv. induction l as [|e l IH]; simpl; [done |].
  unfold Block_eq. rewrite Hv, andb_true_r.
  destruct (valid e && (tag e =? tag value)) eqn:E; [done |].
  simpl. by rewrite E.
Qed.

Lemma occurrences_remove_ne value t l :
  tag value ≠ t → occurrences t (remove value l) = occurrences t l.
Proof.
  intros Hne. induction l as [|e l IH]; simpl; [done |].
  unfold Block_eq.
  destruct (valid e && valid value && (tag e =? tag value)) eqn:E.
  - rewrite IH. apply andb_true_iff in E as [_ E]. apply N.eqb_eq in E.
    destruct (tag e =? t) eqn:E'; [apply N.eqb_eq in E'; congruence |].
    by rewrite andb_false_r.
  - simpl. by rewrite IH.
Qed.

Lemma remove_invalid value l : valid value = false → remove value l = l.
Proof.
  intros Hv. induction l as [|e l IH]; simpl; [done |].
  unfold Block_eq. rewrite Hv, andb_false_r. simpl. by rewrite IH.
Qed.

Lemma length_remove value l :
  valid value = true →
  (length (remove value l) + occurrences (tag value) l)%nat = length l.
Proof.
  intros Hv. induction l as [|e l IH]; simpl; [done |].
  unfold Block_eq. rewrite Hv, andb_true_r.
  destruct (valid e && (tag e =? tag value)); simpl; lia.
Qed.

Lemma elem_of_remove value b l : b ∈ remove value l → b ∈ l.
Proof.
  induction l as [|e l IH]; simpl; [done |].
  destruct (Block_eq e value).
  - intros Hb. apply list_elem_of_further. auto.
  - intros [-> | Hb]%elem_of_cons;
      [apply list_elem_of_here | apply list_elem_of_further; auto].
Qed.

(** A hit on a list without duplicates: [remove] erases one element. *)
Lemma length_remove_unique t l b :
  unique l → scan t l = Some b → S (length (remove b l)) = length l.
Proof.
  intros Hu Hs. destruct (scan_Some _ _ _ Hs) as (Hv & Ht & Hin).
  pose proof (length_remove b l Hv). pose proof (Hu (tag b)).
  pose proof (occurrences_elem_of _ _ Hin Hv). lia.
Qed.

Lemma pop_back_Some l block rest :
  pop_back l = Some (block, rest) ↔ l = rest ++ [block].
Proof.
  unfold pop_back. split.
  - destruct (list.last l) as [x|] eqn:E; simpl; [| done].
    intros [= -> <-]. apply last_Some in E as [l' ->].
    by rewrite removelast_last.
  - intros ->. rewrite last_snoc. simpl. by rewrite removelast_last.
Qed.

Lemma pop_back_is_Some l : l ≠ [] → is_Some (pop_back l).
Proof.
  intros Hl. unfold pop_back.
  apply last_is_Some in Hl as [x ->]. simpl. eauto.
Qed.

Lemma occurrences_positive t l :
  (0 < occurrences t l)%nat → ∃ b, b ∈ l ∧ valid b = true ∧ tag b = t.
Proof.
  intros [b Hb]%scan_is_Some. exists b.
  destruct (scan_Some _ _ _ Hb) as (? & ? & ?). done.
Qed.

(** Moving the hit block to the front keeps, for every tag, the number of
    valid blocks that carry it. *)
Lemma occurrences_promote t l b b' t' :
  unique l → scan t l = Some b → valid b' = valid b → tag b' = tag b →
  occurrences t' (b' :: remove b l) = occurrences t' l.
Proof.
  intros Hu Hs Hv' Ht'. destruct (scan_Some _ _ _ Hs) as (Hv & Ht & Hin).
  simpl. rewrite Hv', Ht', Hv. simpl.
  destruct (tag b =? t') eqn:E.
  - apply N.eqb_eq in E. subst t'. rewrite occurrences_remove_eq by done.
    pose proof (Hu (tag b)). pose proof (occurrences_elem_of _ _ Hin Hv). lia.
  - apply N.eqb_neq in E. by apply occurrences_remove_ne.
Qed.

Lemma unique_app_l l1 l2 : unique (l1 ++ l2) → unique l1.
Proof. intros Hu t. specialize (Hu t). rewrite occurrences_app in Hu. lia. Qed.

Lemma unique_remove value l : unique l → unique (remove value l).
Proof.
  intros Hu t. specialize (Hu t).
  destruct (valid value) eqn:Hv; [| by rewrite remove_invalid].
  destruct (N.eq_dec (tag value) t) as [<- | Hne].
  - rewrite occurrences_remove_eq by done. lia.
  - by rewrite occurrences_remove_ne.
Qed.

Lemma unique_snoc_invalid l : unique l → unique (l ++ [mkBlock false false 0 0]).
Proof. intros Hu t. rewrite occurrences_app. simpl. specialize (Hu t). lia. Qed.

Lemma unique_cons b l :
  unique l → occurrences (tag b) l = 0%nat → unique (b :: l).
Proof.
  intros Hu H0 t. simpl. specialize (Hu t).
  destruct (valid b && (tag b =? t)) eqn:E; [| done].
  apply andb_true_iff in E as [_ E]. apply N.eqb_eq in E. subst t. lia.
Qed.

(** ** The invariant of one level *)

Section Invariant.

Context {M : Type} `{Level M}.

Implicit Types (c this : Cache.t M) (s : CacheSet) (vc : VictimCache.t).

(** The number of sets, [cacheSize / blockSize / associativity]. *)
Definition numberOfSets c : N :=
  Cache.cacheSize c / Cache.blockSize c / Cache.associativity c.

(** A valid block of the set [i] was brought in by an address of that set,
    under the tag of that address. *)
Definition block_ok (bs ns : N) (i : nat) (b : Block) : Prop :=
  valid b = true →
  tag b = address b / bs / ns ∧ N.to_nat (address b / bs mod ns) = i.

Definition set_ok (assoc bs ns : N) (i : nat) s : Prop :=
  length (blocks s) = N.to_nat assoc ∧
  unique (blocks s) ∧
  ∀ b, b ∈ blocks s → block_ok bs ns i b.

(** The memory block number [T] is in none of the sets. *)
Definition absent (ns : N) (sets : list CacheSet) (T : N) : Prop :=
  ∀ s, sets !! N.to_nat (T mod ns) = Some s →
       occurrences (T / ns) (blocks s) = 0%nat.

(** The entries of the victim cache, whatever its current length. *)
Definition entries_ok (ns : N) (sets : list CacheSet) (l : list Block) : Prop :=
  unique l ∧ ∀ e, e ∈ l → valid e = true → absent ns sets (tag e).

Definition vc_ok (bs ns : N) (sets : list CacheSet) vc : Prop :=
  VictimCache.blockSize vc = bs ∧
  length (VictimCache.blocks vc) = N.to_nat (VictimCache.numberOfBlocks vc) ∧
  entries_ok ns sets (VictimCache.blocks vc).

Definition sets_ok (assoc bs ns : N) (sets : list CacheSet) : Prop :=
  ∀ i s, sets !! i = Some s → set_ok assoc bs ns i s.

Definition inv c : Prop :=
  sets_ok (Cache.associativity c) (Cache.blockSize c) (numberOfSets c)
    (Cache.sets c) ∧
  ∀ vc, Cache.victimCache c = Some vc →
        vc_ok (Cache.blockSize c) (numberOfSets c) (Cache.sets c) vc.

(** *** A hit *)

Lemma sets_ok_hit assoc bs ns sets i s t b b' :
  sets_ok assoc bs ns sets → sets !! i = Some s →
  scan t (blocks s) = Some b →
  valid b' = valid b → tag b' = tag b → address b' = address b →
  sets_ok assoc bs ns (<[i := mkSet (b' :: remove b (blocks s))]> sets).
Proof.
  intros Hok Hi Hs Hv' Ht' Ha' j s' Hj.
  destruct (decide (i = j)) as [<- | Hne].
  - rewrite list_lookup_insert_eq in Hj by (by eapply lookup_lt_Some).
    injection Hj as <-. destruct (Hok _ _ Hi) as (Hlen & Hu & Hb).
    destruct (scan_Some _ _ _ Hs) as (Hv & Ht & Hin).
    split_and!; simpl.
    + rewrite <- Hlen. by eapply length_remove_unique.
    + intros t'. erewrite occurrences_promote by done. apply Hu.
    + intros x [-> | Hx]%elem_of_cons.
      * unfold block_ok. rewrite Hv', Ht', Ha'. by apply Hb.
      * apply Hb. by eapply elem_of_remove.
  - rewrite list_lookup_insert_ne in Hj by done. by apply Hok.
Qed.

Lemma absent_hit ns sets i s t b b' T :
  unique (blocks s) → sets !! i = Some s → scan t (blocks s) = Some b →
  valid b' = valid b → tag b' = tag b →
  absent ns sets T →
  absent ns (<[i := mkSet (b' :: remove b (blocks s))]> sets) T.
Proof.
  intros Hu Hi Hs Hv' Ht' Habs s' Hs'.
  destruct (decide (i = N.to_nat (T mod ns))) as [-> | Hne].
  - rewrite list_lookup_insert_eq in Hs' by (by eapply lookup_lt_Some).
    injection Hs' as <-. simpl blocks.
    erewrite occurrences_promote by done. by apply Habs.
  - rewrite list_lookup_insert_ne in Hs' by done. by apply Habs.
Qed.

Lemma inv_hit c i s t b b' :
  inv c → Cache.sets c !! i = Some s → scan t (blocks s) = Some b →
  valid b' = valid b → tag b' = tag b → address b' = address b →
  inv (Cache.mk (Cache.cacheID c) (Cache.cacheSize c) (Cache.blockSize c)
         (Cache.associativity c)
         (<[i := mkSet (b' :: remove b (blocks s))]> (Cache.sets c))
         (Cache.victimCache c) (Cache.memory c)).
Proof.
  intros [Hsets Hvc] Hi Hs Hv' Ht' Ha'. split; unfold numberOfSets; simpl.
  - by eapply sets_ok_hit.
  - intros vc Hvc'. destruct (Hvc _ Hvc') as (Hbs & Hlen & Hu & Habs).
    split_and!; [done | done |]. split; [done |].
    intros e He Hve. eapply absent_hit; try done.
    + by destruct (Hsets _ _ Hi) as (_ & ? & _).
    + by apply Habs.
Qed.

(** *** A miss *)

Lemma div_mod_inj (ns x y : N) :
  ns ≠ 0 → x / ns = y / ns → x mod ns = y mod ns → x = y.
Proof.
  intros Hns Hd Hm.
  rewrite (N.div_mod x ns), (N.div_mod y ns) by done. by rewrite Hd, Hm.
Qed.

Lemma sets_ok_replace assoc bs ns sets index s line rest block :
  sets_ok assoc bs ns sets → sets !! N.to_nat index = Some s →
  blocks s = rest ++ [block] →
  tag line = address line / bs / ns → index = address line / bs mod ns →
  occurrences (tag line) (blocks s) = 0%nat →
  sets_ok assoc bs ns (<[N.to_nat index := mkSet (line :: rest)]> sets).
Proof.
  intros Hok Hi Hrest Ht Hidx H0 j s' Hj.
  destruct (decide (N.to_nat index = j)) as [<- | Hne].
  - rewrite list_lookup_insert_eq in Hj by (by eapply lookup_lt_Some).
    injection Hj as <-. destruct (Hok _ _ Hi) as (Hlen & Hu & Hb).
    rewrite Hrest in *. split_and!; simpl.
    + rewrite <- Hlen, length_app. simpl. lia.
    + apply unique_cons; [by eapply unique_app_l |].
      rewrite occurrences_app in H0. lia.
    + intros x [-> | Hx]%elem_of_cons.
      * intros _. by subst index.
      * apply Hb, elem_of_app. by left.
  - rewrite list_lookup_insert_ne in Hj by done. by apply Hok.
Qed.

Lemma absent_replace_other ns sets index s line rest block T :
  sets !! N.to_nat index = Some s → blocks s = rest ++ [block] →
  ¬ (T / ns = tag line ∧ T mod ns = index) →
  absent ns sets T →
  absent ns (<[N.to_nat index := mkSet (line :: rest)]> sets) T.
Proof.
  intros Hi Hrest Hne Habs s' Hs'.
  destruct (decide (N.to_nat index = N.to_nat (T mod ns))) as [Heq | Hni].
  - rewrite <- Heq in Hs'.
    rewrite list_lookup_insert_eq in Hs' by (by eapply lookup_lt_Some).
    injection Hs' as <-. apply N2Nat.inj in Heq.
    unfold absent in Habs. rewrite <- Heq in Habs. specialize (Habs _ Hi).
    rewrite Hrest, occurrences_app in Habs. simpl.
    destruct (valid line && (tag line =? T / ns)) eqn:E; [| lia].
    apply andb_true_iff in E as [_ E]. apply N.eqb_eq in E.
    destruct Hne. by split.
  - rewrite list_lookup_insert_ne in Hs' by done. by apply Habs.
Qed.

Lemma absent_replace_evicted bs ns sets index s line rest block :
  sets !! N.to_nat index = Some s → blocks s = rest ++ [block] →
  unique (blocks s) → block_ok bs ns (N.to_nat index) block →
  valid block = true → occurrences (tag line) (blocks s) = 0%nat →
  absent ns (<[N.to_nat index := mkSet (line :: rest)]> sets)
    (address block / bs).
Proof.
  intros Hi Hrest Hu Hb Hv H0 s' Hs'. destruct (Hb Hv) as [Ht Hidx].
  rewrite <- Hidx in Hs'.
  rewrite list_lookup_insert_eq in Hs'
    by (rewrite Hidx; by eapply lookup_lt_Some).
  injection Hs' as <-. rewrite <- Ht. simpl.
  assert (block ∈ blocks s) as Hin
    by (rewrite Hrest; apply elem_of_app; right; apply list_elem_of_here).
  pose proof (occurrences_zero_elem_of _ _ _ H0 Hin Hv) as Hne.
  specialize (Hu (tag block)). rewrite Hrest, occurrences_app in Hu.
  simpl in Hu. rewrite Hv, N.eqb_refl in Hu. simpl in Hu.
  destruct (tag line =? tag block) eqn:E;
    [apply N.eqb_eq in E; congruence |].
  rewrite andb_false_r. lia.
Qed.

(** The probe of the victim cache. *)
Lemma vc_read_inv vc a w hit vc' w' :
  VictimCache.read vc a w = Some (hit, vc', w') →
  VictimCache.blockSize vc ≠ 0 ∧
  VictimCache.numberOfBlocks vc' = VictimCache.numberOfBlocks vc ∧
  VictimCache.blockSize vc' = VictimCache.blockSize vc ∧
  trace w' = trace w ∧
  if hit then
    ∃ e, scan (a / VictimCache.blockSize vc) (VictimCache.blocks vc) = Some e ∧
         VictimCache.blocks vc' = remove e (VictimCache.blocks vc) ∧
         p_stats w' = incr_victim_hits (incr_accesses_vc (p_stats w))
  else
    scan (a / VictimCache.blockSize vc) (VictimCache.blocks vc) = None ∧
    vc' = vc ∧ p_stats w' = incr_accesses_vc (p_stats w).
Proof.
  unfold VictimCache.read, u64_div.
  destruct (VictimCache.blockSize vc =? 0) eqn:E; [done |].
  apply N.eqb_neq in E. simpl.
  destruct (scan _ _) as [e|] eqn:Hs; intros [= <- <- <-]; simpl;
    split_and!; eauto.
Qed.

Lemma vc_insert_inv vc a w vc' w' :
  VictimCache.insert vc a w = Some (vc', w') →
  VictimCache.blockSize vc ≠ 0 ∧
  VictimCache.numberOfBlocks vc' = VictimCache.numberOfBlocks vc ∧
  VictimCache.blockSize vc' = VictimCache.blockSize vc ∧
  p_stats w' = p_stats w ∧
  ∃ rest,
    VictimCache.blocks vc' =
      mkBlock true false (a / VictimCache.blockSize vc) a :: rest ∧
    if N.of_nat (length (VictimCache.blocks vc))
       =? VictimCache.numberOfBlocks vc
    then ∃ x, VictimCache.blocks vc = rest ++ [x] ∧
              trace w' = trace w ++ [EvVictimDrop x]
    else rest = VictimCache.blocks vc ∧ trace w' = trace w.
Proof.
  unfold VictimCache.insert, u64_div.
  destruct (VictimCache.blockSize vc =? 0) eqn:E; [done |].
  apply N.eqb_neq in E. simpl.
  destruct (N.of_nat _ =? _) eqn:Hfull; simpl.
  - destruct (pop_back _) as [[x rest]|] eqn:Hp; simpl; [| done].
    apply pop_back_Some in Hp. intros [= <- <-]; simpl.
    split_and!; eauto.
  - intros [= <- <-]; simpl. split_and!; eauto.
Qed.

Lemma entries_ok_probe ns sets vc a w hit vc' w' :
  entries_ok ns sets (VictimCache.blocks vc) →
  VictimCache.read vc a w = Some (hit, vc', w') →
  entries_ok ns sets (VictimCache.blocks vc') ∧
  occurrences (a / VictimCache.blockSize vc) (VictimCache.blocks vc') = 0%nat ∧
  (if hit then S (length (VictimCache.blocks vc'))
   else length (VictimCache.blocks vc')) = length (VictimCache.blocks vc).
Proof.
  intros [Hu Habs] Hr. apply vc_read_inv in Hr as (_ & _ & _ & _ & Hr).
  destruct hit.
  - destruct Hr as (e & Hs & -> & _).
    destruct (scan_Some _ _ _ Hs) as (Hv & Ht & Hin). split_and!.
    + split; [by apply unique_remove |].
      intros x Hx. apply Habs. by eapply elem_of_remove.
    + rewrite <- Ht. by apply occurrences_remove_eq.
    + by eapply length_remove_unique.
  - destruct Hr as (Hs & -> & _). split_and!; [done | | done].
    by apply scan_None.
Qed.

Lemma replace_inv this index l ovc memory line w c' w' :
  Cache.replace this index l ovc memory line w = Some (c', w') →
  ∃ block rest memory' w1 ovc' w2,
    l = rest ++ [block] ∧
    Cache.writeback (Cache.cacheID this) memory block
      (emit (EvEvict (Cache.cacheID this) block) w) = Some (memory', w1) ∧
    match ovc with
    | Some v => ∃ v', Cache.absorb (Cache.cacheID this) v block w1
                        = Some (v', w2) ∧ ovc' = Some v'
    | None => ovc' = None ∧ w2 = w1
    end ∧
    c' = Cache.mk (Cache.cacheID this) (Cache.cacheSize this)
           (Cache.blockSize this) (Cache.associativity this)
           (<[N.to_nat index := mkSet (line :: rest)]> (Cache.sets this))
           ovc' memory' ∧
    w' = emit (EvFill (Cache.cacheID this) line) w2.
Proof.
  unfold Cache.replace.
  destruct (pop_back l) as [[block rest]|] eqn:Hp; simpl; [| done].
  apply pop_back_Some in Hp.
  destruct (Cache.writeback _ _ _ _) as [[memory' w1]|] eqn:Hwb; simpl;
    [| done].
  destruct ovc as [v|]; simpl.
  - destruct (Cache.absorb _ _ _ _) as [[v' w2]|] eqn:Hab; simpl; [| done].
    intros [= <- <-]. exists block, rest, memory', w1, (Some v'), w2.
    split_and!; eauto.
  - intros [= <- <-]. exists block, rest, memory', w1, None, w1.
    split_and!; eauto.
Qed.

Lemma vc_ok_absorb bs ns sets id v block w v' w' :
  Cache.absorb id v block w = Some (v', w') →
  VictimCache.blockSize v = bs →
  entries_ok ns sets (VictimCache.blocks v) →
  (valid block = true → absent ns sets (address block / bs)) →
  (valid block = true →
   occurrences (address block / bs) (VictimCache.blocks v) = 0%nat) →
  (length (VictimCache.blocks v) = N.to_nat (VictimCache.numberOfBlocks v) ∨
   S (length (VictimCache.blocks v))
     = N.to_nat (VictimCache.numberOfBlocks v)) →
  vc_ok bs ns sets v'.
Proof.
  intros Hab Hbs [Hu Habs] Hnew H0 Hlen. unfold Cache.absorb in Hab.
  destruct (valid block) eqn:Hv.
  - apply vc_insert_inv in Hab as (_ & Hn & Hbs' & _ & rest & Hbl & Hcase).
    assert (∃ tl, VictimCache.blocks v = rest ++ tl ∧
                  S (length rest) = N.to_nat (VictimCache.numberOfBlocks v))
      as (tl & Hsplit & Hlen').
    { destruct (N.eqb_spec (N.of_nat (length (VictimCache.blocks v)))
                  (VictimCache.numberOfBlocks v)) as [Heq | Hne].
      - destruct Hcase as (x & Hx & _). exists [x]. split; [done |].
        rewrite <- Heq, Hx, length_app. simpl. lia.
      - destruct Hcase as [-> _]. exists []. rewrite app_nil_r.
        split; [done | lia]. }
    rewrite Hsplit in *. split_and!.
    + congruence.
    + rewrite Hbl, Hn. simpl. done.
    + rewrite Hbl, Hbs. split.
      * apply unique_cons; [by eapply unique_app_l |]. simpl.
        specialize (H0 eq_refl). rewrite occurrences_app in H0. lia.
      * intros e [-> | He]%elem_of_cons Hve; simpl; [by apply Hnew |].
        apply Habs; [apply elem_of_app; by left | done].
  - injection Hab as <- <-. unfold VictimCache.insertInvalid.
    destruct (N.eqb_spec (N.of_nat (length (VictimCache.blocks v)))
                (VictimCache.numberOfBlocks v)) as [Heq | Hne]; simpl.
    + split_and!; simpl; [done | lia | done].
    + split_and!; simpl; [done | rewrite length_app; simpl; lia |].
      split; [by apply unique_snoc_invalid |].
      intros e [He | ->%list_elem_of_singleton]%elem_of_app; [| done].
      by apply Habs.
Qed.

Lemma inv_replace this index s ovc memory line w c' w' :
  numberOfSets this ≠ 0 →
  sets_ok (Cache.associativity this) (Cache.blockSize this)
    (numberOfSets this) (Cache.sets this) →
  Cache.sets this !! N.to_nat index = Some s →
  tag line = address line / Cache.blockSize this / numberOfSets this →
  index = address line / Cache.blockSize this mod numberOfSets this →
  occurrences (tag line) (blocks s) = 0%nat →
  (∀ v, ovc = Some v →
     VictimCache.blockSize v = Cache.blockSize this ∧
     entries_ok (numberOfSets this) (Cache.sets this) (VictimCache.blocks v) ∧
     occurrences (address line / Cache.blockSize this) (VictimCache.blocks v)
       = 0%nat ∧
     (length (VictimCache.blocks v)
        = N.to_nat (VictimCache.numberOfBlocks v) ∨
      S (length (VictimCache.blocks v))
        = N.to_nat (VictimCache.numberOfBlocks v))) →
  Cache.replace this index (blocks s) ovc memory line w = Some (c', w') →
  inv c'.
Proof.
  intros Hns Hsets Hi Ht Hidx H0 Hvc Hr.
  apply replace_inv in Hr
    as (block & rest & memory' & w1 & ovc' & w2 & Hrest & _ & Hovc & -> & _).
  unfold inv, numberOfSets in *. simpl.
  set (ns := Cache.cacheSize this / Cache.blockSize this
             / Cache.associativity this) in *.
  split; [by eapply sets_ok_replace |].
  intros v' ->. destruct ovc as [v|]; [| by destruct Hovc].
  destruct Hovc as (v'' & Hab & [= <-]).
  destruct (Hvc v eq_refl) as (Hbs & [Hu Habs] & Hq & Hlen).
  destruct (Hsets _ _ Hi) as (_ & Hus & Hbok).
  assert (block ∈ blocks s) as Hin
    by (rewrite Hrest; apply elem_of_app; right; apply list_elem_of_here).
  eapply vc_ok_absorb; [exact Hab | done | | | | done].
  - split; [done |]. intros e He Hve.
    eapply absent_replace_other; [exact Hi | exact Hrest | | by apply Habs].
    intros [Hd Hm]. apply (occurrences_zero_elem_of _ _ _ Hq He Hve).
    apply (div_mod_inj ns); [done | by rewrite Hd, Ht | by rewrite Hm, Hidx].
  - intros Hv. eapply absent_replace_evicted; eauto.
  - intros Hv.
    destruct (occurrences (address block / Cache.blockSize this)
                (VictimCache.blocks v)) eqn:Ho; [done |].
    exfalso.
    destruct (occurrences_positive (address block / Cache.blockSize this)
                (VictimCache.blocks v)) as (e & He & Hve & Hte); [lia |].
    destruct (Hbok _ Hin Hv) as [Htb Hib].
    pose proof (Habs e He Hve s) as Hz. rewrite Hte, Hib, <- Htb in Hz.
    specialize (Hz Hi). pose proof (occurrences_elem_of _ _ Hin Hv). lia.
Qed.

Lemma inv_miss this a index s line w c' w' :
  inv this → numberOfSets this ≠ 0 →
  Cache.sets this !! N.to_nat index = Some s →
  address line = a →
  tag line = a / Cache.blockSize this / numberOfSets this →
  index = a / Cache.blockSize this mod numberOfSets this →
  scan (tag line) (blocks s) = None →
  Cache.miss this a index (blocks s) line w = Some (c', w') →
  inv c'.
Proof.
  intros [Hsets Hvc] Hns Hi Ha Ht Hidx Hs%scan_None Hm. subst a.
  unfold Cache.miss in Hm.
  destruct (Cache.victimCache this) as [vc|] eqn:Evc.
  - destruct (Hvc _ eq_refl) as (Hbs & Hlen & Hent).
    destruct (VictimCache.read vc (address line) w)
      as [[[hit vc'] w1]|] eqn:Hr; simpl in Hm; [| done].
    pose proof (entries_ok_probe _ _ _ _ _ _ _ _ Hent Hr) as (Hent' & Hq & Hl).
    apply vc_read_inv in Hr as (_ & Hn & Hbs' & _).
    assert (∀ v, Some vc' = Some v →
      VictimCache.blockSize v = Cache.blockSize this ∧
      entries_ok (numberOfSets this) (Cache.sets this) (VictimCache.blocks v) ∧
      occurrences (address line / Cache.blockSize this) (VictimCache.blocks v)
        = 0%nat ∧
      (length (VictimCache.blocks v)
         = N.to_nat (VictimCache.numberOfBlocks v) ∨
       S (length (VictimCache.blocks v))
         = N.to_nat (VictimCache.numberOfBlocks v))) as Hpre.
    { intros v [= <-]. rewrite Hbs', Hbs, Hn. rewrite Hbs in Hq.
      split_and!; [done | done | done |]. destruct hit; lia. }
    destruct hit.
    + by apply (inv_replace _ _ _ _ _ _ _ _ _ Hns Hsets Hi Ht Hidx Hs Hpre Hm).
    + destruct (Cache.fetch _ _ _) as [[memory' w2]|]; simpl in Hm; [| done].
      by apply (inv_replace _ _ _ _ _ _ _ _ _ Hns Hsets Hi Ht Hidx Hs Hpre Hm).
  - destruct (Cache.fetch _ _ _) as [[memory' w2]|]; simpl in Hm; [| done].
    refine (inv_replace _ _ _ None _ _ _ _ _ Hns Hsets Hi Ht Hidx Hs _ Hm).
    by intros v.
Qed.

(** What [read] and [write] compute before they branch on hit or miss. *)
Lemma read_unfold this a w :
  Cache.read this a w =
    let w0 := Cache.count (Cache.cacheID this) incr_accesses incr_accesses_l2
                (emit (EvRead (Cache.cacheID this) a) w) in
    if (Cache.blockSize this =? 0) || (Cache.associativity this =? 0)
       || (numberOfSets this =? 0) then None
    else
      let q := a / Cache.blockSize this in
      let index := q mod numberOfSets this in
      let tag := q / numberOfSets this in
      match Cache.sets this !! N.to_nat index with
      | None => None
      | Some set =>
          match scan tag (blocks set) with
          | Some block =>
              Some (Cache.mk (Cache.cacheID this) (Cache.cacheSize this)
                      (Cache.blockSize this) (Cache.associativity this)
                      (<[N.to_nat index :=
                           mkSet (block :: remove block (blocks set))]>
                         (Cache.sets this))
                      (Cache.victimCache this) (Cache.memory this),
                    w0)
          | None =>
              Cache.miss this a index (blocks set)
                (mkBlock true false tag a)
                (Cache.count (Cache.cacheID this) incr_read_misses_l1
                   incr_read_misses_l2 w0)
          end
      end.
Proof.
  unfold Cache.read, numberOfSets, u64_div, u64_rem.
  destruct (Cache.blockSize this =? 0); [done |].
  destruct (Cache.associativity this =? 0); [done |]. simpl.
  destruct (_ =? 0); [done |]. simpl.
  destruct (Cache.sets this !! _); [| done]. simpl. done.
Qed.

Lemma write_unfold this a w isWriteBack :
  Cache.write this a w isWriteBack =
    let w0 := Cache.count (Cache.cacheID this) incr_accesses incr_accesses_l2
                (emit (EvWrite (Cache.cacheID this) a isWriteBack) w) in
    if (Cache.blockSize this =? 0) || (Cache.associativity this =? 0)
       || (numberOfSets this =? 0) then None
    else
      let q := a / Cache.blockSize this in
      let index := q mod numberOfSets this in
      let tag := q / numberOfSets this in
      match Cache.sets this !! N.to_nat index with
      | None => None
      | Some set =>
          match scan tag (blocks set) with
          | Some block =>
              Some (Cache.mk (Cache.cacheID this) (Cache.cacheSize this)
                      (Cache.blockSize this) (Cache.associativity this)
                      (<[N.to_nat index :=
                           mkSet (set_dirty block
                                  :: remove block (blocks set))]>
                         (Cache.sets this))
                      (Cache.victimCache this) (Cache.memory this),
                    w0)
          | None =>
              Cache.miss this a index (blocks set)
                (mkBlock true true tag a)
                (Cache.count (Cache.cacheID this) incr_write_misses_l1
                   incr_write_misses_l2 w0)
          end
      end.
Proof.
  unfold Cache.write, numberOfSets, u64_div, u64_rem.
  destruct (Cache.blockSize this =? 0); [done |].
  destruct (Cache.associativity this =? 0); [done |]. simpl.
  destruct (_ =? 0); [done |]. simpl.
  destruct (Cache.sets this !! _); [| done]. simpl. done.
Qed.

(** Both operations keep the invariant of their level. *)
Lemma read_inv this a w c' w' :
  inv this → Cache.read this a w = Some (c', w') → inv c'.
Proof.
  intros Hinv. rewrite read_unfold. cbv zeta.
  destruct (_ || _) eqn:Hz; [done |].
  apply orb_false_iff in Hz as [_ Hns%N.eqb_neq].
  destruct (Cache.sets this !! _) as [s|] eqn:Hi; [| done].
  destruct (scan _ _) as [b|] eqn:Hs.
  - intros [= <- <-]. by eapply inv_hit.
  - intros Hm. eapply inv_miss; [done | done | exact Hi | ..| exact Hm]; done.
Qed.

Lemma write_inv this a w isWriteBack c' w' :
  inv this → Cache.write this a w isWriteBack = Some (c', w') → inv c'.
Proof.
  intros Hinv. rewrite write_unfold. cbv zeta.
  destruct (_ || _) eqn:Hz; [done |].
  apply orb_false_iff in Hz as [_ Hns%N.eqb_neq].
  destruct (Cache.sets this !! _) as [s|] eqn:Hi; [| done].
  destruct (scan _ _) as [b|] eqn:Hs.
  - intros [= <- <-]. by eapply inv_hit.
  - intros Hm. eapply inv_miss; [done | done | exact Hi | ..| exact Hm]; done.
Qed.

(** *** What the operations leave alone *)

(** The configuration of a level: everything but the contents of the sets,
    of the victim cache and of the level below. *)
Definition same_vc (ovc ovc' : option VictimCache.t) : Prop :=
  match ovc, ovc' with
  | Some v, Some v' =>
      VictimCache.numberOfBlocks v' = VictimCache.numberOfBlocks v ∧
      VictimCache.blockSize v' = VictimCache.blockSize v
  | None, None => True
  | _, _ => False
  end.

Definition same_config this c' : Prop :=
  Cache.cacheID c' = Cache.cacheID this ∧
  Cache.cacheSize c' = Cache.cacheSize this ∧
  Cache.blockSize c' = Cache.blockSize this ∧
  Cache.associativity c' = Cache.associativity this ∧
  length (Cache.sets c') = length (Cache.sets this) ∧
  same_vc (Cache.victimCache this) (Cache.victimCache c').

Lemma same_vc_refl ovc : same_vc ovc ovc.
Proof. by destruct ovc. Qed.

Lemma absorb_config id v block w v' w' :
  Cache.absorb id v block w = Some (v', w') → same_vc (Some v) (Some v').
Proof.
  unfold Cache.absorb. destruct (valid block).
  - intros (_ & ? & ? & _)%vc_insert_inv. by split.
  - intros [= <- <-]. unfold VictimCache.insertInvalid.
    by destruct (negb _).
Qed.

Lemma replace_config this index l ovc memory line w c' w' :
  Cache.replace this index l ovc memory line w = Some (c', w') →
  Cache.cacheID c' = Cache.cacheID this ∧
  Cache.cacheSize c' = Cache.cacheSize this ∧
  Cache.blockSize c' = Cache.blockSize this ∧
  Cache.associativity c' = Cache.associativity this ∧
  length (Cache.sets c') = length (Cache.sets this) ∧
  same_vc ovc (Cache.victimCache c').
Proof.
  intros (block & rest & memory' & w1 & ovc' & w2 & _ & _ & Hovc & -> & _)
    %replace_inv.
  simpl. rewrite length_insert. split_and!; try done.
  destruct ovc as [v|].
  - destruct Hovc as (v' & Hab & ->). by eapply absorb_config.
  - by destruct Hovc as [-> _].
Qed.

Lemma miss_config this a index l line w c' w' :
  Cache.miss this a index l line w = Some (c', w') → same_config this c'.
Proof.
  unfold Cache.miss, same_config.
  destruct (Cache.victimCache this) as [vc|] eqn:Evc.
  - destruct (VictimCache.read vc a w) as [[[hit vc'] w1]|] eqn:Hr; simpl;
      [| done].
    apply vc_read_inv in Hr as (_ & Hn & Hbs & _).
    assert (∀ memory w2,
      Cache.replace this index l (Some vc') memory line w2 = Some (c', w') →
      Cache.cacheID c' = Cache.cacheID this ∧
      Cache.cacheSize c' = Cache.cacheSize this ∧
      Cache.blockSize c' = Cache.blockSize this ∧
      Cache.associativity c' = Cache.associativity this ∧
      length (Cache.sets c') = length (Cache.sets this) ∧
      same_vc (Some vc) (Cache.victimCache c')) as Hrep.
    { intros memory w2 (? & ? & ? & ? & ? & Hvc)%replace_config.
      split_and!; try done.
      destruct (Cache.victimCache c'); simpl in *; [| done].
      destruct Hvc. split; congruence. }
    destruct hit; [by apply Hrep |].
    destruct (Cache.fetch _ _ _) as [[memory' w2]|]; simpl; [| done].
    by apply Hrep.
  - destruct (Cache.fetch _ _ _) as [[memory' w2]|]; simpl; [| done].
    by intros ?%replace_config.
Qed.

Lemma read_config this a w c' w' :
  Cache.read this a w = Some (c', w') → same_config this c'.
Proof.
  rewrite read_unfold. cbv zeta. destruct (_ || _); [done |].
  destruct (Cache.sets this !! _) as [s|]; [| done].
  destruct (scan _ _).
  - intros [= <- <-]. unfold same_config. simpl. rewrite length_insert.
    split_and!; try done. apply same_vc_refl.
  - apply miss_config.
Qed.

Lemma write_config this a w isWriteBack c' w' :
  Cache.write this a w isWriteBack = Some (c', w') → same_config this c'.
Proof.
  rewrite write_unfold. cbv zeta. destruct (_ || _); [done |].
  destruct (Cache.sets this !! _) as [s|]; [| done].
  destruct (scan _ _).
  - intros [= <- <-]. unfold same_config. simpl. rewrite length_insert.
    split_and!; try done. apply same_vc_refl.
  - apply miss_config.
Qed.

(** *** The level below *)

(** Whatever the operations of the level below keep, the operations of this
    level keep for [memory]; and the level below stays where it is. *)
Section Below.

Variable P : M → Prop.
Hypothesis P_read :
  ∀ m a w m' w', P m → level_read m a w = Some (m', w') → P m'.
Hypothesis P_write :
  ∀ m a w wb m' w', P m → level_write m a w wb = Some (m', w') → P m'.

Definition below (memory : option M) : Prop :=
  match memory with Some m => P m | None => True end.

Definition same_below (memory memory' : option M) : Prop :=
  is_Some memory' ↔ is_Some memory.

Lemma fetch_below memory a w memory' w' :
  Cache.fetch memory a w = Some (memory', w') →
  below memory → below memory' ∧ same_below memory memory'.
Proof.
  unfold Cache.fetch, same_below. destruct memory as [m|].
  - destruct (level_read m a w) as [[m' w1]|] eqn:Hr; simpl; [| done].
    intros [= <- <-] Hm. split; [by eapply P_read | by split; eauto].
  - by intros [= <- <-].
Qed.

Lemma writeback_below id memory block w memory' w' :
  Cache.writeback id memory block w = Some (memory', w') →
  below memory → below memory' ∧ same_below memory memory'.
Proof.
  unfold Cache.writeback, same_below. destruct (dirty block).
  - destruct memory as [m|].
    + destruct (level_write m _ _ _) as [[m' w1]|] eqn:Hr; simpl; [| done].
      intros [= <- <-] Hm. split; [by eapply P_write | by split; eauto].
    + by intros [= <- <-].
  - by intros [= <- <-].
Qed.

Lemma replace_below this index l ovc memory line w c' w' :
  Cache.replace this index l ovc memory line w = Some (c', w') →
  below memory →
  below (Cache.memory c') ∧ same_below memory (Cache.memory c').
Proof.
  intros (block & rest & memory' & w1 & ovc' & w2 & _ & Hwb & _ & -> & _)
    %replace_inv Hm.
  simpl. by eapply writeback_below.
Qed.

Lemma miss_below this a index l line w c' w' :
  Cache.miss this a index l line w = Some (c', w') →
  below (Cache.memory this) →
  below (Cache.memory c') ∧ same_below (Cache.memory this) (Cache.memory c').
Proof.
  unfold Cache.miss. intros Hm Hb.
  assert (∀ ovc w0 memory' w2,
    Cache.fetch (Cache.memory this) a w0 = Some (memory', w2) →
    Cache.replace this index l ovc memory' line w2 = Some (c', w') →
    below (Cache.memory c') ∧
    same_below (Cache.memory this) (Cache.memory c')) as Hfetch.
  { intros ovc w0 memory' w2 Hf Hr.
    destruct (fetch_below _ _ _ _ _ Hf Hb) as [Hb' Hs'].
    destruct (replace_below _ _ _ _ _ _ _ _ _ Hr Hb') as [Hb'' Hs''].
    split; [done |]. unfold same_below in *. by rewrite Hs'', Hs'. }
  destruct (Cache.victimCache this) as [vc|].
  - destruct (VictimCache.read vc a w) as [[[hit vc'] w1]|]; simpl in Hm;
      [| done].
    destruct hit; [by eapply replace_below |].
    destruct (Cache.fetch _ _ _) as [[memory' w2]|] eqn:Hf; simpl in Hm;
      [| done].
    by eapply Hfetch.
  - destruct (Cache.fetch _ _ _) as [[memory' w2]|] eqn:Hf; simpl in Hm;
      [| done].
    by eapply Hfetch.
Qed.

Lemma read_below this a w c' w' :
  Cache.read this a w = Some (c', w') →
  below (Cache.memory this) →
  below (Cache.memory c') ∧ same_below (Cache.memory this) (Cache.memory c').
Proof.
  rewrite read_unfold. cbv zeta. destruct (_ || _); [done |].
  destruct (Cache.sets this !! _) as [s|]; [| done].
  destruct (scan _ _).
  - intros [= <- <-]. done.
  - apply miss_below.
Qed.

Lemma write_below this a w isWriteBack c' w' :
  Cache.write this a w isWriteBack = Some (c', w') →
  below (Cache.memory this) →
  below (Cache.memory c') ∧ same_below (Cache.memory this) (Cache.memory c').
Proof.
  rewrite write_unfold. cbv zeta. destruct (_ || _); [done |].
  destruct (Cache.sets this !! _) as [s|]; [| done].
  destruct (scan _ _).
  - intros [= <- <-]. done.
  - apply miss_below.
Qed.

End Below.

End Invariant.

(** ** The steps of a miss *)

Section Steps.

Context {M : Type} `{Level M}.

Implicit Types (this c : Cache.t M).

(** The miss path, step by step: the probe of the victim cache, the fetch
    from the level below unless the probe hit, the eviction of the back
    block, its write-back, its way into the victim cache, the fill. *)
Lemma miss_inv this a index l line w c' w' :
  Cache.miss this a index l line w = Some (c', w') →
  ∃ (hit : bool) ovc1 wp mem1 wf block rest mem2 wb ovc2 wa,
    match Cache.victimCache this with
    | Some vc =>
        ∃ vc1, VictimCache.read vc a w = Some (hit, vc1, wp) ∧ ovc1 = Some vc1
    | None => hit = false ∧ ovc1 = None ∧ wp = w
    end ∧
    (if hit then mem1 = Cache.memory this ∧ wf = wp
     else Cache.fetch (Cache.memory this) a wp = Some (mem1, wf)) ∧
    l = rest ++ [block] ∧
    Cache.writeback (Cache.cacheID this) mem1 block
      (emit (EvEvict (Cache.cacheID this) block) wf) = Some (mem2, wb) ∧
    match ovc1 with
    | Some vc1 =>
        ∃ vc2, Cache.absorb (Cache.cacheID this) vc1 block wb = Some (vc2, wa) ∧
               ovc2 = Some vc2
    | None => ovc2 = None ∧ wa = wb
    end ∧
    c' = Cache.mk (Cache.cacheID this) (Cache.cacheSize this)
           (Cache.blockSize this) (Cache.associativity this)
           (<[N.to_nat index := mkSet (line :: rest)]> (Cache.sets this))
           ovc2 mem2 ∧
    w' = emit (EvFill (Cache.cacheID this) line) wa.
Proof.
  unfold Cache.miss. destruct (Cache.victimCache this) as [vc|].
  - destruct (VictimCache.read vc a w) as [[[hit vc1] wp]|] eqn:Hr; simpl;
      [| done].
    destruct hit.
    + intros (block & rest & mem2 & wb & ovc2 & wa & ? & ? & ? & ? & ?)
        %replace_inv.
      exists true, (Some vc1), wp, (Cache.memory this), wp, block, rest, mem2,
        wb, ovc2, wa.
      split_and!; eauto.
    + destruct (Cache.fetch _ _ _) as [[mem1 wf]|] eqn:Hf; simpl; [| done].
      intros (block & rest & mem2 & wb & ovc2 & wa & ? & ? & ? & ? & ?)
        %replace_inv.
      exists false, (Some vc1), wp, mem1, wf, block, rest, mem2, wb, ovc2, wa.
      split_and!; eauto.
  - destruct (Cache.fetch _ _ _) as [[mem1 wf]|] eqn:Hf; simpl; [| done].
    intros (block & rest & mem2 & wb & ovc2 & wa & ? & ? & [-> ->] & ? & ?)
      %replace_inv.
    exists false, None, w, mem1, wf, block, rest, mem2, wb, None, wb.
    split_and!; eauto.
Qed.

(** The write-back: nothing for a clean block; for a dirty one the counter
    of the level, then the [write] of the level below if there is one. *)
Lemma writeback_inv id memory block w memory' w' :
  Cache.writeback id memory block w = Some (memory', w') →
  if dirty block then
    match memory with
    | Some m =>
        ∃ m', level_write m (address block)
                (Cache.count id incr_write_back_l1 incr_write_back_l2 w) true
              = Some (m', w') ∧ memory' = Some m'
    | None =>
        memory' = None ∧
        w' = Cache.count id incr_write_back_l1 incr_write_back_l2 w
    end
  else memory' = memory ∧ w' = w.
Proof.
  unfold Cache.writeback. destruct (dirty block); [| by intros [= <- <-]].
  destruct memory as [m|]; [| by intros [= <- <-]].
  destruct (level_write _ _ _ _) as [[m' w1]|]; simpl; [| done].
  intros [= <- <-]. by exists m'.
Qed.

Lemma fetch_inv memory a w memory' w' :
  Cache.fetch memory a w = Some (memory', w') →
  match memory with
  | Some m => ∃ m', level_read m a w = Some (m', w') ∧ memory' = Some m'
  | None => memory' = None ∧ w' = w
  end.
Proof.
  unfold Cache.fetch. destruct memory as [m|]; [| by intros [= <- <-]].
  destruct (level_read _ _ _) as [[m' w1]|]; simpl; [| done].
  intros [= <- <-]. by exists m'.
Qed.

(** The way of the evicted block into the victim cache: a valid block
    becomes the front entry, under the number of its memory block, after the
    back entry was dropped if the victim cache was full. *)
Lemma absorb_inv id vc block w vc' w' :
  Cache.absorb id vc block w = Some (vc', w') →
  p_stats w' = p_stats w ∧
  if valid block then
    ∃ rest dropped,
      VictimCache.blocks vc'
        = mkBlock true false (address block / VictimCache.blockSize vc)
            (address block) :: rest ∧
      trace w' = trace w ++ EvAbsorb id block :: dropped ∧
      (dropped = [] ∨ ∃ x, dropped = [EvVictimDrop x])
  else trace w' = trace w.
Proof.
  unfold Cache.absorb. destruct (valid block); [| by intros [= <- <-]].
  intros (_ & _ & _ & Hst & rest & Hbl & Hcase)%vc_insert_inv.
  split; [done |]. simpl in *.
  destruct (_ =? _).
  - destruct Hcase as (x & _ & Htr). exists rest, [EvVictimDrop x].
    split_and!; [done | | by eauto].
    by rewrite Htr, <- app_assoc.
  - destruct Hcase as [_ Htr]. exists rest, []. by split_and!; [| | left].
Qed.

End Steps.

(** ** A level without victim cache and without a level below *)

Section Terminal.

Context {M : Type} `{Level M}.

Implicit Types (this c : Cache.t M).

(** What such a level adds to the trace after the event of the call:
    nothing on a hit, an eviction and a fill on a miss. *)
Definition terminal_tail (id : CacheID.t) (evs : list event) : Prop :=
  evs = [] ∨ ∃ block line, evs = [EvEvict id block; EvFill id line].

(** The counters that a level with the identity [L2] leaves alone. *)
Definition l1_counters (st : cache_stats_t) : N * N * N * N * N * N * N * N :=
  (accesses st, accesses_vc st, reads st, writes st, read_misses_l1 st,
   write_misses_l1 st, write_back_l1 st, victim_hits st).

Lemma terminal_miss this a index l line w c' w' :
  Cache.victimCache this = None → Cache.memory this = None →
  Cache.miss this a index l line w = Some (c', w') →
  Cache.victimCache c' = None ∧ Cache.memory c' = None ∧
  ∃ block,
    trace w' = trace w ++ [EvEvict (Cache.cacheID this) block;
                           EvFill (Cache.cacheID this) line] ∧
    p_stats w' =
      if dirty block
      then p_stats (Cache.count (Cache.cacheID this) incr_write_back_l1
                      incr_write_back_l2 w)
      else p_stats w.
Proof.
  intros Hvc Hm
    (hit & ovc1 & wp & mem1 & wf & block & rest & mem2 & wb & ovc2 & wa
     & Hprobe & Hfetch & _ & Hwb & Habs & -> & ->)%miss_inv.
  rewrite Hvc in Hprobe. destruct Hprobe as (-> & -> & ->).
  apply fetch_inv in Hfetch. rewrite Hm in Hfetch. destruct Hfetch as [-> ->].
  destruct Habs as [-> ->]. apply writeback_inv in Hwb. simpl.
  split; [done |].
  destruct (dirty block) eqn:Hd; destruct Hwb as [-> ->];
    (split; [done |]); exists block; rewrite Hd; simpl;
    by rewrite <- app_assoc.
Qed.

Lemma terminal_read this a w c' w' :
  Cache.victimCache this = None → Cache.memory this = None →
  Cache.read this a w = Some (c', w') →
  Cache.victimCache c' = None ∧ Cache.memory c' = None ∧
  ∃ evs,
    trace w' = trace w ++ EvRead (Cache.cacheID this) a :: evs ∧
    terminal_tail (Cache.cacheID this) evs ∧
    (Cache.cacheID this = CacheID.L2 →
     l1_counters (p_stats w') = l1_counters (p_stats w) ∧
     accesses_l2 (p_stats w') = u64_incr (accesses_l2 (p_stats w))).
Proof.
  intros Hvc Hm. rewrite read_unfold. cbv zeta. destruct (_ || _); [done |].
  destruct (Cache.sets this !! _) as [s|]; [| done].
  destruct (scan _ _).
  - intros [= <- <-]. simpl. split_and!; [done | done |].
    exists []. split_and!; [done | by left |]. by intros ->.
  - intros (? & ? & block & Htr & Hst)%terminal_miss; [| done | done].
    split_and!; [done | done |].
    exists [EvEvict (Cache.cacheID this) block;
            EvFill (Cache.cacheID this)
              (mkBlock true false
                 (a / Cache.blockSize this / numberOfSets this) a)].
    split_and!.
    + rewrite Htr. simpl. by rewrite <- app_assoc.
    + right. by eexists _, _.
    + intros Hid. rewrite Hst, Hid. by destruct (dirty block).
Qed.

Lemma terminal_write this a w isWriteBack c' w' :
  Cache.victimCache this = None → Cache.memory this = None →
  Cache.write this a w isWriteBack = Some (c', w') →
  Cache.victimCache c' = None ∧ Cache.memory c' = None ∧
  ∃ evs,
    trace w' = trace w ++ EvWrite (Cache.cacheID this) a isWriteBack :: evs ∧
    terminal_tail (Cache.cacheID this) evs ∧
    (Cache.cacheID this = CacheID.L2 →
     l1_counters (p_stats w') = l1_counters (p_stats w) ∧
     accesses_l2 (p_stats w') = u64_incr (accesses_l2 (p_stats w))).
Proof.
  intros Hvc Hm. rewrite write_unfold. cbv zeta. destruct (_ || _); [done |].
  destruct (Cache.sets this !! _) as [s|]; [| done].
  destruct (scan _ _).
  - intros [= <- <-]. simpl. split_and!; [done | done |].
    exists []. split_and!; [done | by left |]. by intros ->.
  - intros (? & ? & block & Htr & Hst)%terminal_miss; [| done | done].
    split_and!; [done | done |].
    exists [EvEvict (Cache.cacheID this) block;
            EvFill (Cache.cacheID this)
              (mkBlock true true
                 (a / Cache.blockSize this / numberOfSets this) a)].
    split_and!.
    + rewrite Htr. simpl. by rewrite <- app_assoc.
    + right. by eexists _, _.
    + intros Hid. rewrite Hst, Hid. by destruct (dirty block).
Qed.

End Terminal.

(** ** A level over a level without victim cache *)

Section TwoLevels.

Context {M : Type} `{Level M}.

Implicit Types (this c : Cache.t (Cache.t M)) (m : Cache.t M).

Lemma trace_count id f1 f2 w : trace (Cache.count id f1 f2 w) = trace w.
Proof. done. Qed.

(** What the call of [read] or [write] on a level without victim cache and
    without a level below leaves in the trace: the event of the call,
    [entry], then the tail of that level. *)
Definition call_events (entry : event) (id : CacheID.t) (evs : list event)
  : Prop :=
  ∃ tail, evs = entry :: tail ∧ terminal_tail id tail.

(** What the probe of the victim cache and the write-back count at the
    level [L1]. *)
Definition probe_stats (vc : bool) (hit : bool) (st : cache_stats_t)
  : cache_stats_t :=
  if vc then
    if hit then incr_victim_hits (incr_accesses_vc st) else incr_accesses_vc st
  else st.

Definition writeback_stats (block : Block) (st : cache_stats_t)
  : cache_stats_t :=
  if dirty block then incr_write_back_l1 st else st.

Lemma l1_counters_writeback block st st' :
  l1_counters st = l1_counters st' →
  l1_counters (writeback_stats block st)
    = l1_counters (writeback_stats block st').
Proof.
  unfold writeback_stats, l1_counters. destruct (dirty block); simpl;
    intros [= -> -> -> -> -> -> -> ->]; done.
Qed.

(** The trace, the new state and the counters of the miss path, in closed
    form. *)
Lemma two_level_miss this m a index l line w c' w' :
  Cache.memory this = Some m →
  Cache.victimCache m = None → Cache.memory m = None →
  Cache.miss this a index l line w = Some (c', w') →
  ∃ (hit : bool) block rest m' fetch_evs wb_evs vc_evs,
    l = rest ++ [block] ∧
    Cache.memory c' = Some m' ∧
    Cache.victimCache m' = None ∧ Cache.memory m' = None ∧
    Cache.cacheID m' = Cache.cacheID m ∧
    trace w' = trace w ++ fetch_evs
                 ++ EvEvict (Cache.cacheID this) block :: wb_evs
                 ++ vc_evs ++ [EvFill (Cache.cacheID this) line] ∧
    (if hit then fetch_evs = []
     else call_events (EvRead (Cache.cacheID m) a) (Cache.cacheID m)
            fetch_evs) ∧
    (if dirty block
     then call_events (EvWrite (Cache.cacheID m) (address block) true)
            (Cache.cacheID m) wb_evs
     else wb_evs = [] ∧ (hit = true → m' = m)) ∧
    match Cache.victimCache this with
    | Some vc =>
        (if hit
         then is_Some (scan (a / VictimCache.blockSize vc)
                         (VictimCache.blocks vc))
         else scan (a / VictimCache.blockSize vc) (VictimCache.blocks vc)
              = None) ∧
        if valid block then
          ∃ vc' tl dropped,
            Cache.victimCache c' = Some vc' ∧
            VictimCache.blocks vc'
              = mkBlock true false (address block / VictimCache.blockSize vc)
                  (address block) :: tl ∧
            vc_evs = EvAbsorb (Cache.cacheID this) block :: dropped ∧
            (dropped = [] ∨ ∃ x, dropped = [EvVictimDrop x])
        else vc_evs = []
    | None => hit = false ∧ vc_evs = []
    end ∧
    (Cache.cacheID this = CacheID.L1 → Cache.cacheID m = CacheID.L2 →
     l1_counters (p_stats w')
       = l1_counters
           (writeback_stats block
              (probe_stats (bool_decide (is_Some (Cache.victimCache this)))
                 hit (p_stats w))) ∧
     accesses_l2 (p_stats w')
       = let x := accesses_l2 (p_stats w) in
         let y := if hit then x else u64_incr x in
         if dirty block then u64_incr y else y).
Proof.
  intros Hmem Hmvc Hmm
    (hit & ovc1 & wp & mem1 & wf & block & rest & mem2 & wb & ovc2 & wa
     & Hprobe & Hfetch & Hl & Hwb & Habs & -> & ->)%miss_inv.
  (* the fetch *)
  assert (∃ m1 fetch_evs,
    mem1 = Some m1 ∧ Cache.victimCache m1 = None ∧ Cache.memory m1 = None ∧
    Cache.cacheID m1 = Cache.cacheID m ∧ (hit = true → m1 = m) ∧
    trace wf = trace wp ++ fetch_evs ∧
    (if hit then fetch_evs = []
     else call_events (EvRead (Cache.cacheID m) a) (Cache.cacheID m)
            fetch_evs) ∧
    (Cache.cacheID m = CacheID.L2 →
     l1_counters (p_stats wf) = l1_counters (p_stats wp) ∧
     accesses_l2 (p_stats wf)
       = if hit then accesses_l2 (p_stats wp)
         else u64_incr (accesses_l2 (p_stats wp))))
    as (m1 & fetch_evs & -> & Hvc1 & Hm1 & Hid1 & Hsame1 & Htrf & Hfe & Hstf).
  { destruct hit.
    - destruct Hfetch as [-> ->]. exists m, [].
      rewrite app_nil_r. by split_and!.
    - apply fetch_inv in Hfetch. rewrite Hmem in Hfetch.
      destruct Hfetch as (m1 & Hr & ->).
      pose proof (read_config _ _ _ _ _ Hr) as (Hid & _).
      apply terminal_read in Hr as (? & ? & evs & Htr & Htail & Hst);
        [| done | done].
      exists m1, (EvRead (Cache.cacheID m) a :: evs).
      split_and!; try done. by exists evs. }
  (* the write-back *)
  apply writeback_inv in Hwb.
  assert (∃ m2 wb_evs,
    mem2 = Some m2 ∧ Cache.victimCache m2 = None ∧ Cache.memory m2 = None ∧
    Cache.cacheID m2 = Cache.cacheID m ∧
    trace wb = trace wf ++ EvEvict (Cache.cacheID this) block :: wb_evs ∧
    (if dirty block
     then call_events (EvWrite (Cache.cacheID m) (address block) true)
            (Cache.cacheID m) wb_evs
     else wb_evs = [] ∧ (hit = true → m2 = m)) ∧
    (Cache.cacheID this = CacheID.L1 → Cache.cacheID m = CacheID.L2 →
     l1_counters (p_stats wb)
       = l1_counters (writeback_stats block (p_stats wf)) ∧
     accesses_l2 (p_stats wb)
       = if dirty block then u64_incr (accesses_l2 (p_stats wf))
         else accesses_l2 (p_stats wf)))
    as (m2 & wb_evs & -> & Hvc2 & Hm2 & Hid2 & Htrw & Hwe & Hstw).
  { unfold writeback_stats. destruct (dirty block).
    - destruct Hwb as (m2 & Hw & ->).
      pose proof (write_config _ _ _ _ _ _ Hw) as (Hid & _).
      apply terminal_write in Hw as (? & ? & evs & Htr & Htail & Hst);
        [| done | done].
      exists m2, (EvWrite (Cache.cacheID m) (address block) true :: evs).
      rewrite Hid1 in *. split_and!; try done; try congruence.
      + rewrite Htr. simpl. by rewrite <- app_assoc.
      + by exists evs.
      + intros Hidt Hidm. destruct (Hst Hidm) as [-> ->].
        by rewrite Hidt.
    - destruct Hwb as [-> ->]. exists m1, []. by split_and!. }
  (* the victim cache *)
  assert (trace wp = trace w ∧
          p_stats wp
            = probe_stats (bool_decide (is_Some (Cache.victimCache this)))
                hit (p_stats w)) as [Htrp Hstp].
  { unfold probe_stats. destruct (Cache.victimCache this).
    - destruct Hprobe as (vc1 & (_ & _ & _ & ? & Hhit)%vc_read_inv & _).
      split; [done |]. rewrite bool_decide_true by eauto.
      destruct hit; [by destruct Hhit as (? & _ & _ & ->) |].
      by destruct Hhit as (_ & _ & ->).
    - destruct Hprobe as (_ & _ & ->). split; [done |].
      rewrite bool_decide_false; [done |]. by intros [? [=]]. }
  assert (p_stats wa = p_stats wb) as Hsta.
  { destruct ovc1.
    - by destruct Habs as (vc2 & [? _]%absorb_inv & _).
    - by destruct Habs as [_ ->]. }
  assert (Cache.cacheID this = CacheID.L1 → Cache.cacheID m = CacheID.L2 →
     l1_counters (p_stats wa)
       = l1_counters
           (writeback_stats block
              (probe_stats (bool_decide (is_Some (Cache.victimCache this)))
                 hit (p_stats w))) ∧
     accesses_l2 (p_stats wa)
       = let x := accesses_l2 (p_stats w) in
         let y := if hit then x else u64_incr x in
         if dirty block then u64_incr y else y) as Hst.
  { intros Hidt Hidm. destruct (Hstw Hidt Hidm) as [Hw1 Hw2].
    destruct (Hstf Hidm) as [Hf1 Hf2]. rewrite Hsta, Hw1, Hw2, Hf2, Hstp.
    split.
    - apply l1_counters_writeback. by rewrite Hf1, Hstp.
    - unfold probe_stats.
      destruct (bool_decide _), hit, (dirty block); done. }
  exists hit, block, rest, m2, fetch_evs, wb_evs.
  destruct (Cache.victimCache this) as [vc|].
  - destruct Hprobe as (vc1 & Hr & ->).
    destruct Habs as (vc2 & Hab & ->).
    apply vc_read_inv in Hr as (_ & _ & Hbs & _ & Hhit).
    apply absorb_inv in Hab as [_ Hab]. destruct (valid block).
    + destruct Hab as (tl & dropped & Hbl & Htra & Hdrop).
      exists (EvAbsorb (Cache.cacheID this) block :: dropped).
      split_and!; try done.
      * simpl. rewrite Htra, Htrw, Htrf, Htrp.
        by rewrite <- !app_assoc.
      * destruct hit; [by destruct Hhit as (e & -> & _) | by destruct Hhit].
      * exists vc2, tl, dropped. rewrite <- Hbs. by split_and!.
    + exists []. split_and!; try done.
      * simpl. rewrite Hab, Htrw, Htrf, Htrp. by rewrite <- !app_assoc.
      * destruct hit; [by destruct Hhit as (e & -> & _) | by destruct Hhit].
  - destruct Hprobe as (-> & -> & ->). destruct Habs as [-> ->].
    exists []. split_and!; try done.
    simpl. rewrite Htrw, Htrf. by rewrite <- !app_assoc.
Qed.

End TwoLevels.

(** ** No undefined behaviour *)

Section Total.

Context {M : Type} `{Level M}.

Implicit Types (this c : Cache.t M).

(** [P] is what is known of the level below: its operations keep it and,
    under it, return. *)
Variable P : M → Prop.
Hypothesis P_read :
  ∀ m a w m' w', P m → level_read m a w = Some (m', w') → P m'.
Hypothesis P_write :
  ∀ m a w wb m' w', P m → level_write m a w wb = Some (m', w') → P m'.
Hypothesis P_read_total : ∀ m a w, P m → is_Some (level_read m a w).
Hypothesis P_write_total : ∀ m a w wb, P m → is_Some (level_write m a w wb).

(** A level whose operations return: the invariant, at least one set, at
    least one block in each set, as many sets as [numberOfSets] says, a
    victim cache that is not empty, and a level below that is ready too. *)
Definition ready this : Prop :=
  inv this ∧
  Cache.blockSize this ≠ 0 ∧
  Cache.associativity this ≠ 0 ∧
  numberOfSets this ≠ 0 ∧
  length (Cache.sets this) = N.to_nat (numberOfSets this) ∧
  (∀ vc, Cache.victimCache this = Some vc → VictimCache.numberOfBlocks vc ≠ 0) ∧
  below P (Cache.memory this).

Lemma fetch_total memory a w :
  below P memory → is_Some (Cache.fetch memory a w).
Proof.
  unfold Cache.fetch. destruct memory as [m|]; [| by eauto].
  intros Hm. destruct (P_read_total m a w Hm) as [[m' w'] ->]. simpl. eauto.
Qed.

Lemma writeback_total id memory block w :
  below P memory → is_Some (Cache.writeback id memory block w).
Proof.
  unfold Cache.writeback. destruct (dirty block); [| by eauto].
  destruct memory as [m|]; [| by eauto].
  intros Hm. destruct (P_write_total m (address block)
    (Cache.count id incr_write_back_l1 incr_write_back_l2 w) true Hm)
    as [[m' w'] ->].
  simpl. eauto.
Qed.

Lemma absorb_total id vc block w :
  VictimCache.blockSize vc ≠ 0 →
  VictimCache.numberOfBlocks vc ≠ 0 →
  is_Some (Cache.absorb id vc block w).
Proof.
  intros Hbs Hn. unfold Cache.absorb. destruct (valid block); [| by eauto].
  unfold VictimCache.insert, u64_div.
  destruct (N.eqb_spec (VictimCache.blockSize vc) 0) as [| _]; [done |].
  simpl.
  destruct (N.eqb_spec (N.of_nat (length (VictimCache.blocks vc)))
              (VictimCache.numberOfBlocks vc)) as [Heq | _]; [| by eauto].
  destruct (pop_back_is_Some (VictimCache.blocks vc)) as [[x rest] ->].
  - intros E. rewrite E in Heq. simpl in Heq. lia.
  - simpl. eauto.
Qed.

Lemma replace_total this index l ovc memory line w :
  l ≠ [] →
  (∀ vc, ovc = Some vc →
         VictimCache.blockSize vc ≠ 0 ∧ VictimCache.numberOfBlocks vc ≠ 0) →
  below P memory →
  is_Some (Cache.replace this index l ovc memory line w).
Proof.
  intros Hl Hvc Hm. unfold Cache.replace.
  destruct (pop_back_is_Some l Hl) as [[block rest] ->]. simpl.
  destruct (writeback_total (Cache.cacheID this) memory block
              (emit (EvEvict (Cache.cacheID this) block) w) Hm)
    as [[memory' w1] ->].
  simpl. destruct ovc as [vc|]; simpl; [| by eauto].
  destruct (Hvc vc eq_refl) as [Hbs Hn].
  destruct (absorb_total (Cache.cacheID this) vc block w1 Hbs Hn)
    as [[vc' w2] ->].
  simpl. eauto.
Qed.

Lemma miss_total this a index l line w :
  ready this → l ≠ [] → is_Some (Cache.miss this a index l line w).
Proof.
  intros ([_ Hvc] & Hbs & _ & _ & _ & Hn & Hm) Hl. unfold Cache.miss.
  assert (∀ ovc w0,
    (∀ vc, ovc = Some vc →
           VictimCache.blockSize vc ≠ 0 ∧ VictimCache.numberOfBlocks vc ≠ 0) →
    is_Some ('(memory, w1) ← Cache.fetch (Cache.memory this) a w0;
             Cache.replace this index l ovc memory line w1)) as Hfetch.
  { intros ovc w0 Hovc.
    destruct (fetch_total (Cache.memory this) a w0 Hm) as [[memory' w1] Hf].
    rewrite Hf. simpl. apply replace_total; [done | done |].
    by eapply (fetch_below P P_read). }
  destruct (Cache.victimCache this) as [vc|] eqn:Evc.
  - destruct (Hvc vc eq_refl) as (Hvbs & _). specialize (Hn vc eq_refl).
    destruct (VictimCache.read vc a w) as [[[hit vc'] w1]|] eqn:Hr.
    + apply vc_read_inv in Hr as (_ & Hn' & Hbs' & _). simpl.
      assert (∀ v, Some vc' = Some v →
        VictimCache.blockSize v ≠ 0 ∧ VictimCache.numberOfBlocks v ≠ 0)
        as Hovc by (intros v [= <-]; split; congruence).
      destruct hit; [by apply replace_total | by apply Hfetch].
    + exfalso. unfold VictimCache.read, u64_div in Hr.
      destruct (N.eqb_spec (VictimCache.blockSize vc) 0) as [| _];
        [congruence |].
      simpl in Hr. by destruct (scan _ _).
  - by apply Hfetch.
Qed.

Lemma ready_set this i s :
  ready this → Cache.sets this !! i = Some s → blocks s ≠ [].
Proof.
  intros ([Hsets _] & _ & Ha & _) Hi. destruct (Hsets _ _ Hi) as [Hlen _].
  intros E. rewrite E in Hlen. simpl in Hlen. lia.
Qed.

Lemma ready_lookup this (q : N) :
  ready this →
  is_Some (Cache.sets this !! N.to_nat (q mod numberOfSets this)).
Proof.
  intros (_ & _ & _ & Hns & Hlen & _). apply lookup_lt_is_Some.
  rewrite Hlen. pose proof (N.mod_lt q _ Hns). lia.
Qed.

Lemma ready_nonzero this :
  ready this →
  (Cache.blockSize this =? 0) || (Cache.associativity this =? 0)
  || (numberOfSets this =? 0) = false.
Proof.
  intros (_ & Hbs & Ha & Hns & _).
  by apply N.eqb_neq in Hbs as ->, Ha as ->, Hns as ->.
Qed.

Lemma read_total this a w : ready this → is_Some (Cache.read this a w).
Proof.
  intros Hr. rewrite read_unfold. cbv zeta. rewrite ready_nonzero by done.
  destruct (ready_lookup this (a / Cache.blockSize this) Hr) as [s Hs].
  rewrite Hs. destruct (scan _ _); [by eauto |].
  apply miss_total; [done | by eapply ready_set].
Qed.

Lemma write_total this a w isWriteBack :
  ready this → is_Some (Cache.write this a w isWriteBack).
Proof.
  intros Hr. rewrite write_unfold. cbv zeta. rewrite ready_nonzero by done.
  destruct (ready_lookup this (a / Cache.blockSize this) Hr) as [s Hs].
  rewrite Hs. destruct (scan _ _); [by eauto |].
  apply miss_total; [done | by eapply ready_set].
Qed.

Lemma ready_same this c' :
  ready this → inv c' → same_config this c' → below P (Cache.memory c') →
  ready c'.
Proof.
  intros (_ & Hbs & Ha & Hns & Hlen & Hn & _) Hinv
    (_ & Hcs' & Hbs' & Ha' & Hlen' & Hvc') Hm.
  unfold ready, numberOfSets in *. rewrite Hcs', Hbs', Ha', Hlen'.
  split_and!; try done.
  intros vc' Hvc. rewrite Hvc in Hvc'.
  destruct (Cache.victimCache this) as [vc|]; [| done].
  destruct Hvc' as [-> _]. by apply Hn.
Qed.

Lemma read_ready this a w c' w' :
  ready this → Cache.read this a w = Some (c', w') → ready c'.
Proof.
  intros Hr Hread. eapply ready_same; [done | | |].
  - eapply read_inv; [| done]. by destruct Hr.
  - by eapply read_config.
  - eapply (read_below P P_read P_write); [done |].
    by destruct Hr as (_ & _ & _ & _ & _ & _ & ?).
Qed.

Lemma write_ready this a w isWriteBack c' w' :
  ready this → Cache.write this a w isWriteBack = Some (c', w') → ready c'.
Proof.
  intros Hr Hwrite. eapply ready_same; [done | | |].
  - eapply write_inv; [| done]. by destruct Hr.
  - by eapply write_config.
  - eapply (write_below P P_read P_write); [done |].
    by destruct Hr as (_ & _ & _ & _ & _ & _ & ?).
Qed.

End Total.

(** ** Construction *)

Lemma pow2_nonzero (e : N) : 2 ^ e ≠ 0.
Proof. by apply N.pow_nonzero. Qed.

(** The object that the constructor builds when it returns:
    [2^c / 2^b / 2^s] sets of [2^s] invalid blocks. The exponents must be
    such that [uint64_t] holds the powers. *)
Definition constructed {M : Type} (id : CacheID.t) (c b s v : N)
    (cache : option M) : option (Cache.t M) :=
  if (c <? 64) && (b <? 64) && (s <? 64) then
    Some (Cache.mk id (2 ^ c) (2 ^ b) (2 ^ s)
            (replicate (N.to_nat (2 ^ c / 2 ^ b / 2 ^ s))
               (mkSet (replicate (N.to_nat (2 ^ s)) Block_default)))
            (if v =? 0 then None
             else Some (VictimCache.mk v (2 ^ b)
                          (replicate (N.to_nat v) Block_default)))
            cache)
  else None.

(** The number of objects that the constructor allocates: the sets, their
    blocks, and the victim cache with its blocks. *)
Definition storage (c b s v : N) : N :=
  2 ^ c / 2 ^ b / 2 ^ s + 2 ^ c / 2 ^ b / 2 ^ s * 2 ^ s
  + (if v =? 0 then 0 else 1 + v).

(** Decides the comparisons of the goal, and drops the cases that the
    hypotheses exclude. *)
Ltac case_leb :=
  repeat match goal with
         | |- context [?x <=? ?y] => destruct (N.leb_spec x y)
         end;
  try lia.

Lemma allocate_eq n heap :
  allocate n heap = if n <=? heap then Returns (heap - n) else Throws.
Proof. done. Qed.

Lemma new_sets_eq n a heap :
  Cache.new_sets n a heap =
    if N.of_nat n * a <=? heap then
      Returns (replicate n (mkSet (replicate (N.to_nat a) Block_default)),
               heap - N.of_nat n * a)
    else Throws.
Proof.
  revert heap. induction n as [|n IH]; intros heap.
  - cbn [Cache.new_sets replicate].
    destruct (N.leb_spec (N.of_nat 0 * a) heap); [do 2 f_equal; lia | lia].
  - cbn [Cache.new_sets]. rewrite allocate_eq.
    destruct (N.leb_spec a heap) as [Ha | Ha]; simpl.
    + rewrite IH.
      destruct (N.leb_spec (N.of_nat n * a) (heap - a)) as [Hn | Hn]; simpl.
      * destruct (N.leb_spec (N.of_nat (S n) * a) heap) as [_ | Hs];
          [| lia].
        do 2 f_equal. lia.
      * by destruct (N.leb_spec (N.of_nat (S n) * a) heap); [lia |].
    + by destruct (N.leb_spec (N.of_nat (S n) * a) heap); [lia |].
Qed.

(** The constructor, in closed form: undefined only on an exponent that
    [uint64_t] cannot hold, ended by an exception only when the free store
    has not the room. *)
Lemma new_eq {M : Type} id c b s v (cache : option M) heap :
  Cache.new id c b s v cache heap =
    match constructed id c b s v cache with
    | Some this =>
        if storage c b s v <=? heap
        then Returns (this, heap - storage c b s v)
        else Throws
    | None => Undefined
    end.
Proof.
  unfold Cache.new, VictimCache.new, constructed, storage, pow2, u64_div.
  destruct (c <? 64); [| done]. destruct (b <? 64); [| done].
  destruct (s <? 64); [| done]. simpl.
  destruct (N.eqb_spec (2 ^ b) 0) as [E | _]; [by apply pow2_nonzero in E |].
  simpl.
  destruct (N.eqb_spec (2 ^ s) 0) as [E | _]; [by apply pow2_nonzero in E |].
  simpl. generalize (2 ^ c / 2 ^ b / 2 ^ s). intros n.
  rewrite allocate_eq.
  destruct (N.leb_spec n heap) as [Hn | Hn]; simpl; [| by case_leb].
  rewrite new_sets_eq, N2Nat.id.
  destruct (N.leb_spec (n * 2 ^ s) (heap - n)) as [Hb | Hb]; simpl;
    [| by case_leb].
  destruct (v =? 0); simpl; [case_leb; do 2 f_equal; lia |].
  rewrite allocate_eq.
  destruct (N.leb_spec 1 (heap - n - n * 2 ^ s)) as [H1 | H1]; simpl;
    [| by case_leb].
  rewrite allocate_eq.
  destruct (N.leb_spec v (heap - n - n * 2 ^ s - 1)) as [Hv | Hv]; simpl;
    [| by case_leb].
  case_leb. do 2 f_equal. lia.
Qed.

Lemma new_inv {M : Type} `{Level M} id c b s v (cache : option M) this :
  constructed id c b s v cache = Some this → inv this.
Proof.
  unfold constructed. destruct (_ && _); [| done]. intros [= <-].
  split; unfold numberOfSets; simpl.
  - intros i s' [-> _]%lookup_replicate. split_and!; simpl.
    + by rewrite length_replicate.
    + intros t. rewrite occurrences_replicate_default. lia.
    + by intros x ->%elem_of_replicate_inv [=].
  - intros vc. destruct (v =? 0); [done |]. intros [= <-].
    split_and!; simpl; [done | by rewrite length_replicate |].
    split.
    + intros t. rewrite occurrences_replicate_default. lia.
    + by intros x ->%elem_of_replicate_inv [=].
Qed.

(** ** The invariant of the hierarchy *)

(** [inv] holds of L1 and of the cache that [L1->memory] points to. *)
Definition hierarchy_inv (h : hierarchy) : Prop :=
  inv (L1 h) ∧ below inv (Cache.memory (L1 h)).

(** [setup_cache], in closed form. *)
Lemma setup_cache_outcome c1 b1 s1 v c2 b2 s2 heap :
  setup_cache c1 b1 s1 v c2 b2 s2 heap =
    if 1 <=? heap then
      match constructed CacheID.L2 c2 b2 s2 0 None with
      | Some l2 =>
          if 1 + storage c2 b2 s2 0 + 1 <=? heap then
            match constructed CacheID.L1 c1 b1 s1 v (Some l2) with
            | Some l1 =>
                if 1 + storage c2 b2 s2 0 + 1 + storage c1 b1 s1 v <=? heap
                then Returns (mk_hierarchy l1 s1 s2 v)
                else Throws
            | None => Undefined
            end
          else Throws
      | None => Undefined
      end
    else Throws.
Proof.
  unfold setup_cache. rewrite allocate_eq.
  destruct (N.leb_spec 1 heap) as [H1 | H1]; simpl; [| done].
  rewrite new_eq.
  destruct (constructed CacheID.L2 _ _ _ _ _) as [l2|]; simpl; [| done].
  generalize (storage c2 b2 s2 0). intros n2.
  destruct (N.leb_spec n2 (heap - 1)) as [H2 | H2]; simpl; [| by case_leb].
  rewrite allocate_eq.
  destruct (N.leb_spec 1 (heap - 1 - n2)) as [H3 | H3]; simpl;
    [| by case_leb].
  rewrite new_eq.
  destruct (constructed CacheID.L1 _ _ _ _ _) as [l1|]; simpl;
    [| by case_leb].
  generalize (storage c1 b1 s1 v). intros n1.
  destruct (N.leb_spec n1 (heap - 1 - n2 - 1)) as [H4 | H4]; simpl;
    by case_leb.
Qed.

Lemma setup_cache_eq {heap} c1 b1 s1 v c2 b2 s2 h :
  setup_cache c1 b1 s1 v c2 b2 s2 heap = Returns h →
  ∃ l1 l2,
    constructed CacheID.L2 c2 b2 s2 0 None = Some l2 ∧
    constructed CacheID.L1 c1 b1 s1 v (Some l2) = Some l1 ∧
    h = mk_hierarchy l1 s1 s2 v.
Proof.
  rewrite setup_cache_outcome. destruct (1 <=? heap); [| done].
  destruct (constructed CacheID.L2 _ _ _ _ _) as [l2|]; [| done].
  destruct (_ <=? heap); [| done].
  destruct (constructed CacheID.L1 _ _ _ _ _) as [l1|] eqn:E1; [| done].
  destruct (_ <=? heap); [| done].
  intros [= <-]. by exists l1, l2.
Qed.

Lemma setup_inv {heap} c1 b1 s1 v c2 b2 s2 h :
  setup_cache c1 b1 s1 v c2 b2 s2 heap = Returns h → hierarchy_inv h.
Proof.
  intros (l1 & l2 & H2 & H1 & ->)%setup_cache_eq. split; simpl.
  - by eapply new_inv.
  - unfold constructed in H1. destruct (_ && _); [| done].
    injection H1 as <-. simpl. by eapply new_inv.
Qed.

Lemma cache_access_inv type arg h w h' w' :
  cache_access type arg h w = Some (h', w') →
  hierarchy_inv h → hierarchy_inv h'.
Proof.
  unfold cache_access, hierarchy_inv. intros Hacc [H1 H2].
  destruct (Ascii.eqb type READ).
  - destruct (Cache.read _ _ _) as [[c w1]|] eqn:Hr; simpl in Hacc; [| done].
    injection Hacc as <- <-. simpl. split; [by eapply read_inv |].
    eapply (read_below inv); [| | exact Hr | done].
    + intros m a w0 m' w0'. apply read_inv.
    + intros m a w0 wb m' w0'. apply write_inv.
  - destruct (Ascii.eqb type WRITE); [| by injection Hacc as <- <-].
    destruct (Cache.write _ _ _ _) as [[c w1]|] eqn:Hr; simpl in Hacc;
      [| done].
    injection Hacc as <- <-. simpl. split; [by eapply write_inv |].
    eapply (write_below inv); [| | exact Hr | done].
    + intros m a w0 m' w0'. apply read_inv.
    + intros m a w0 wb m' w0'. apply write_inv.
Qed.

Lemma run_inv events h w h' w' :
  run events h w = Some (h', w') → hierarchy_inv h → hierarchy_inv h'.
Proof.
  revert h w. induction events as [|[type arg] events IH]; simpl; intros h w.
  - by intros [= <- <-].
  - destruct (cache_access type arg h w) as [[h1 w1]|] eqn:Hacc; simpl;
      [| done].
    intros Hrun Hinv. eapply IH; [exact Hrun |]. by eapply cache_access_inv.
Qed.

(** ** The configuration of the hierarchy *)

(** A cache built by [Cache(id, c, b, s, v, _)], at any later time. *)
Definition configured {M : Type} (id : CacheID.t) (c b s v : N)
    (this : Cache.t M) : Prop :=
  Cache.cacheID this = id ∧
  Cache.cacheSize this = 2 ^ c ∧
  Cache.blockSize this = 2 ^ b ∧
  Cache.associativity this = 2 ^ s ∧
  length (Cache.sets this) = N.to_nat (2 ^ c / 2 ^ b / 2 ^ s) ∧
  match Cache.victimCache this with
  | Some vc =>
      v ≠ 0 ∧ VictimCache.numberOfBlocks vc = v ∧
      VictimCache.blockSize vc = 2 ^ b
  | None => v = 0
  end.

Lemma configured_same {M : Type} `{Level M} id c b s v (this c' : Cache.t M) :
  configured id c b s v this → same_config this c' →
  configured id c b s v c'.
Proof.
  intros (? & ? & ? & ? & ? & Hvc) (? & ? & ? & ? & ? & Hvc').
  split_and!; try congruence.
  destruct (Cache.victimCache this), (Cache.victimCache c'); simpl in *;
    try done.
  destruct Hvc as (? & ? & ?), Hvc'. split_and!; congruence.
Qed.

Lemma new_configured {M : Type} id c b s v (cache : option M) this :
  constructed id c b s v cache = Some this →
  configured id c b s v this ∧ Cache.memory this = cache.
Proof.
  unfold constructed. destruct (_ && _); [| done]. intros [= <-].
  split; [| done]. split_and!; simpl; try done.
  - by rewrite length_replicate.
  - destruct (N.eqb_spec v 0); simpl; [done | by split_and!].
Qed.

(** The hierarchy that [setup_cache(c1, b1, s1, v, c2, b2, s2)] built, at any
    later time. *)
Definition shaped (c1 b1 s1' v' c2 b2 s2' : N) (h : hierarchy) : Prop :=
  configured CacheID.L1 c1 b1 s1' v' (L1 h) ∧
  is_Some (Cache.memory (L1 h)) ∧
  below (configured CacheID.L2 c2 b2 s2' 0) (Cache.memory (L1 h)) ∧
  s1 h = s1' ∧ s2 h = s2' ∧ v h = v'.

Lemma setup_shaped {heap} c1 b1 s1 v c2 b2 s2 h :
  setup_cache c1 b1 s1 v c2 b2 s2 heap = Returns h →
  shaped c1 b1 s1 v c2 b2 s2 h.
Proof.
  intros (l1 & l2 & H2 & H1 & ->)%setup_cache_eq.
  apply new_configured in H1 as [H1 Hm], H2 as [H2 _].
  unfold shaped. simpl. rewrite Hm. split_and!; eauto.
Qed.

Lemma cache_access_shaped c1 b1 s1 v c2 b2 s2 type arg h w h' w' :
  cache_access type arg h w = Some (h', w') →
  shaped c1 b1 s1 v c2 b2 s2 h → shaped c1 b1 s1 v c2 b2 s2 h'.
Proof.
  unfold cache_access, shaped. intros Hacc (H1 & Hm & H2 & ? & ? & ?).
  assert (∀ m a w0 m' w0',
    configured CacheID.L2 c2 b2 s2 0 m →
    level_read m a w0 = Some (m', w0') →
    configured CacheID.L2 c2 b2 s2 0 m') as Pr.
  { intros m a w0 m' w0' Hc Hr. apply (configured_same _ _ _ _ _ m m' Hc).
    exact (read_config _ _ _ _ _ Hr). }
  assert (∀ m a w0 wb m' w0',
    configured CacheID.L2 c2 b2 s2 0 m →
    level_write m a w0 wb = Some (m', w0') →
    configured CacheID.L2 c2 b2 s2 0 m') as Pw.
  { intros m a w0 wb m' w0' Hc Hr. apply (configured_same _ _ _ _ _ m m' Hc).
    exact (write_config _ _ _ _ _ _ Hr). }
  destruct (Ascii.eqb type READ).
  - destruct (Cache.read _ _ _) as [[c w1]|] eqn:Hr; simpl in Hacc; [| done].
    injection Hacc as <- <-. simpl.
    destruct (read_below _ Pr Pw _ _ _ _ _ Hr H2) as [Hb Hs].
    split_and!; try done; [| by apply Hs].
    exact (configured_same _ _ _ _ _ _ _ H1 (read_config _ _ _ _ _ Hr)).
  - destruct (Ascii.eqb type WRITE); [| by injection Hacc as <- <-].
    destruct (Cache.write _ _ _ _) as [[c w1]|] eqn:Hr; simpl in Hacc;
      [| done].
    injection Hacc as <- <-. simpl.
    destruct (write_below _ Pr Pw _ _ _ _ _ _ Hr H2) as [Hb Hs].
    split_and!; try done; [| by apply Hs].
    exact (configured_same _ _ _ _ _ _ _ H1 (write_config _ _ _ _ _ _ Hr)).
Qed.

Lemma run_shaped c1 b1 s1 v c2 b2 s2 events h w h' w' :
  run events h w = Some (h', w') →
  shaped c1 b1 s1 v c2 b2 s2 h → shaped c1 b1 s1 v c2 b2 s2 h'.
Proof.
  revert h w. induction events as [|[type arg] events IH]; simpl; intros h w.
  - by intros [= <- <-].
  - destruct (cache_access type arg h w) as [[h1 w1]|] eqn:Hacc; simpl;
      [| done].
    intros Hrun Hinv. eapply IH; [exact Hrun |].
    by eapply cache_access_shaped.
Qed.

(** ** Configurations under which no access is undefined *)

Lemma pow2_sets_nonzero (c b s : N) : b + s ≤ c → 2 ^ c / 2 ^ b / 2 ^ s ≠ 0.
Proof.
  intros Hle.
  rewrite N.Div0.div_div, <- N.pow_add_r, <- N.pow_sub_r by (done || lia).
  apply pow2_nonzero.
Qed.

Lemma new_ready {M : Type} `{Level M} (P : M → Prop) id c b s v
    (cache : option M) this :
  b + s ≤ c → below P cache →
  constructed id c b s v cache = Some this → ready P this.
Proof.
  intros Hle Hm Hnew. pose proof (new_inv _ _ _ _ _ _ _ Hnew) as Hinv.
  unfold constructed in Hnew. destruct (_ && _); [| done].
  injection Hnew as <-. unfold ready, numberOfSets. simpl.
  split_and!; try done; try apply pow2_nonzero.
  - by apply pow2_sets_nonzero.
  - by rewrite length_replicate.
  - intros vc. destruct (N.eqb_spec v 0); [done |]. by intros [= <-].
Qed.

(** Below L2 there is nothing to know. *)
Definition nothing (m : Empty_set) : Prop := True.

Definition hierarchy_ready (h : hierarchy) : Prop := ready (ready nothing) (L1 h).

Lemma L2_read_ready (m : Cache.t Empty_set) a w m' w' :
  ready nothing m → level_read m a w = Some (m', w') → ready nothing m'.
Proof. apply read_ready; by intros []. Qed.

Lemma L2_write_ready (m : Cache.t Empty_set) a w wb m' w' :
  ready nothing m → level_write m a w wb = Some (m', w') → ready nothing m'.
Proof. apply write_ready; by intros []. Qed.

Lemma L2_read_total (m : Cache.t Empty_set) a w :
  ready nothing m → is_Some (level_read m a w).
Proof. apply read_total; by intros []. Qed.

Lemma L2_write_total (m : Cache.t Empty_set) a w wb :
  ready nothing m → is_Some (level_write m a w wb).
Proof. apply write_total; by intros []. Qed.

Lemma setup_ready {heap} c1 b1 s1 v c2 b2 s2 h :
  b1 + s1 ≤ c1 → b2 + s2 ≤ c2 →
  setup_cache c1 b1 s1 v c2 b2 s2 heap = Returns h → hierarchy_ready h.
Proof.
  intros Hle1 Hle2 (l1 & l2 & H2 & H1 & ->)%setup_cache_eq.
  unfold hierarchy_ready. simpl.
  apply (new_ready (ready nothing) CacheID.L1 c1 b1 s1 v (Some l2) l1 Hle1);
    [| done].
  simpl. by apply (new_ready nothing CacheID.L2 c2 b2 s2 0 None l2 Hle2).
Qed.

Lemma cache_access_total type arg h w :
  hierarchy_ready h →
  ∃ h' w', cache_access type arg h w = Some (h', w') ∧ hierarchy_ready h'.
Proof.
  unfold cache_access, hierarchy_ready. intros Hr.
  destruct (Ascii.eqb type READ).
  - destruct (read_total (ready nothing) L2_read_ready L2_read_total
                L2_write_total (L1 h) arg (upd incr_reads w) Hr)
      as [[c w1] Hread].
    rewrite Hread. simpl. eexists _, _. split; [done |]. simpl.
    by eapply (read_ready (ready nothing) L2_read_ready L2_write_ready).
  - destruct (Ascii.eqb type WRITE); [| by eexists _, _].
    destruct (write_total (ready nothing) L2_read_ready L2_read_total
                L2_write_total (L1 h) arg (upd incr_writes w) false Hr)
      as [[c w1] Hwrite].
    rewrite Hwrite. simpl. eexists _, _. split; [done |]. simpl.
    by eapply (write_ready (ready nothing) L2_read_ready L2_write_ready).
Qed.

Lemma run_total events h w :
  hierarchy_ready h →
  ∃ h' w', run events h w = Some (h', w') ∧ hierarchy_ready h'.
Proof.
  revert h w. induction events as [|[type arg] events IH]; simpl; intros h w Hr.
  - by eexists _, _.
  - destruct (cache_access_total type arg h w Hr) as (h1 & w1 & -> & Hr1).
    simpl. by apply IH.
Qed.

(** ** A sample run

    A direct-mapped L1 of one 16-byte block with a victim cache of two
    blocks, over an L2 of four blocks, constructed in a free store with
    room for 64 objects: two stores to the blocks 0 and 1, then a load of
    block 0. *)
Definition sample_events : list (ascii * N) :=
  [(WRITE, 0); (WRITE, 16); (READ, 0)].

Definition sample_heap : N := 64.

Definition sample_setup : outcome hierarchy :=
  setup_cache 4 4 0 2 6 4 0 sample_heap.

Definition sample_run : option (hierarchy * world) :=
  h ← returned sample_setup; run sample_events h world0.

Definition hierarchy0 : hierarchy :=
  mk_hierarchy (Cache.mk CacheID.L1 0 0 0 [] None None) 0 0 0.

Definition sample_h0 : hierarchy :=
  Eval vm_compute in default hierarchy0 (returned sample_setup).

Definition sample_h : hierarchy :=
  Eval vm_compute in default hierarchy0 (fst <$> sample_run).

Definition sample_w : world :=
  Eval vm_compute in default world0 (snd <$> sample_run).

Lemma sample_setup_eq :
  setup_cache 4 4 0 2 6 4 0 sample_heap = Returns sample_h0.
Proof. reflexivity. Qed.

Lemma sample_run_eq : run sample_events sample_h0 world0 = Some (sample_h, sample_w).
Proof. reflexivity. Qed.

(** ** The set that an access works on *)

Section Behaviour.

Context {M : Type} `{Level M}.

Implicit Types (this c : Cache.t M).

(** The address decomposition in the words of the specification. *)
Definition spec_block_number this (address : N) : N :=
  address / Cache.blockSize this.

Definition spec_number_of_sets this : N :=
  Cache.cacheSize this / Cache.blockSize this / Cache.associativity this.

Definition spec_index this (address : N) : N :=
  spec_block_number this address mod spec_number_of_sets this.

Definition spec_tag this (address : N) : N :=
  spec_block_number this address / spec_number_of_sets this.

Lemma miss_sets this a index l line w c' w' :
  Cache.miss this a index l line w = Some (c', w') →
  ∃ rest block,
    l = rest ++ [block] ∧
    Cache.sets c' = <[N.to_nat index := mkSet (line :: rest)]> (Cache.sets this).
Proof.
  unfold Cache.miss.
  assert (∀ ovc memory w0,
    Cache.replace this index l ovc memory line w0 = Some (c', w') →
    ∃ rest block,
      l = rest ++ [block] ∧
      Cache.sets c'
        = <[N.to_nat index := mkSet (line :: rest)]> (Cache.sets this)) as Hrep.
  { intros ovc memory w0
      (block & rest & ? & ? & ? & ? & -> & _ & _ & -> & _)%replace_inv.
    by exists rest, block. }
  destruct (Cache.victimCache this) as [vc|].
  - destruct (VictimCache.read vc a w) as [[[hit vc'] w1]|]; simpl; [| done].
    destruct hit; [by apply Hrep |].
    destruct (Cache.fetch _ _ _) as [[memory' w2]|]; simpl; [| done].
    by apply Hrep.
  - destruct (Cache.fetch _ _ _) as [[memory' w2]|]; simpl; [| done].
    by apply Hrep.
Qed.

(** The set at the index of the address, before and after a [read] or a
    [write]; [hit_block] is what a hit pushes at the front and [dirty_line]
    the dirty bit of the line that a miss brings in. *)
Definition works_on this (a : N) c' (hit_block : Block → Block)
    (dirty_line : bool) : Prop :=
  let i := N.to_nat (spec_index this a) in
  let t := spec_tag this a in
  ∃ set,
    Cache.sets this !! i = Some set ∧
    (∀ j, j ≠ i → Cache.sets c' !! j = Cache.sets this !! j) ∧
    match scan t (blocks set) with
    | Some block =>
        Cache.sets c' !! i
          = Some (mkSet (hit_block block :: remove block (blocks set)))
    | None =>
        blocks set ≠ [] ∧
        Cache.sets c' !! i
          = Some (mkSet (mkBlock true dirty_line t a
                         :: removelast (blocks set)))
    end.

Lemma works_on_hit this i set block hit_block dirty_line a c' :
  N.to_nat (spec_index this a) = i →
  Cache.sets this !! i = Some set →
  scan (spec_tag this a) (blocks set) = Some block →
  Cache.sets c'
    = <[i := mkSet (hit_block block :: remove block (blocks set))]>
        (Cache.sets this) →
  works_on this a c' hit_block dirty_line.
Proof.
  intros Hi Hset Hs Hc. unfold works_on. rewrite Hi. exists set.
  split; [done |]. rewrite Hs, Hc. split.
  - intros j Hj. by rewrite list_lookup_insert_ne.
  - rewrite list_lookup_insert_eq; [done | by eapply lookup_lt_Some].
Qed.

Lemma works_on_miss this i set hit_block dirty_line a c' w0 w' :
  N.to_nat (spec_index this a) = i →
  Cache.sets this !! i = Some set →
  scan (spec_tag this a) (blocks set) = None →
  Cache.miss this a (spec_index this a) (blocks set)
    (mkBlock true dirty_line (spec_tag this a) a) w0 = Some (c', w') →
  works_on this a c' hit_block dirty_line.
Proof.
  intros Hi Hset Hs (rest & block & Hrest & Hc)%miss_sets.
  unfold works_on. rewrite Hi in *. exists set.
  split; [done |]. rewrite Hs, Hc, Hrest, removelast_last. split_and!.
  - intros j Hj. by rewrite list_lookup_insert_ne.
  - by destruct rest.
  - rewrite list_lookup_insert_eq; [done | by eapply lookup_lt_Some].
Qed.

Lemma read_works_on this a w c' w' :
  Cache.read this a w = Some (c', w') →
  works_on this a c' (λ block, block) false.
Proof.
  rewrite read_unfold. cbv zeta. destruct (_ || _); [done |].
  destruct (Cache.sets this !! _) as [set|] eqn:Hset; [| done].
  destruct (scan _ _) as [block|] eqn:Hs.
  - intros [= <- <-]. by eapply works_on_hit.
  - intros Hm. by eapply works_on_miss.
Qed.

Lemma write_works_on this a w isWriteBack c' w' :
  Cache.write this a w isWriteBack = Some (c', w') →
  works_on this a c' set_dirty true.
Proof.
  rewrite write_unfold. cbv zeta. destruct (_ || _); [done |].
  destruct (Cache.sets this !! _) as [set|] eqn:Hset; [| done].
  destruct (scan _ _) as [block|] eqn:Hs.
  - intros [= <- <-]. by eapply works_on_hit.
  - intros Hm. by eapply works_on_miss.
Qed.

End Behaviour.

(** Below L2 there is no level. *)
Lemma empty_memory (m : Cache.t Empty_set) : Cache.memory m = None.
Proof. by destruct (Cache.memory m) as [[]|]. Qed.

(** ** Counting in the trace *)

(** [write(_, _, true)] entered at the level [id]: a write-back that the
    level above issued. *)
Definition is_writeback_to (id : CacheID.t) (e : event) : bool :=
  match e with
  | EvWrite id' _ true => CacheID.eqb id' id
  | _ => false
  end.

(** A dirty block taken from the back of a set of the level [id]. *)
Definition is_dirty_eviction (id : CacheID.t) (e : event) : bool :=
  match e with
  | EvEvict id' block => CacheID.eqb id' id && dirty block
  | _ => false
  end.

(** A dirty evicted block of the level [id] handed to its victim cache. *)
Definition is_dirty_absorption (id : CacheID.t) (e : event) : bool :=
  match e with
  | EvAbsorb id' block => CacheID.eqb id' id && dirty block
  | _ => false
  end.

(** The victim cache dropped a valid entry. *)
Definition is_victim_eviction (e : event) : bool :=
  match e with
  | EvVictimDrop block => valid block
  | _ => false
  end.

Definition count (f : event → bool) (evs : list event) : nat :=
  length (List.filter f evs).

Definition writebacks_to (id : CacheID.t) : list event → nat :=
  count (is_writeback_to id).

Definition dirty_evictions (id : CacheID.t) : list event → nat :=
  count (is_dirty_eviction id).

Definition dirty_absorptions (id : CacheID.t) : list event → nat :=
  count (is_dirty_absorption id).

Definition victim_evictions : list event → nat := count is_victim_eviction.

Lemma count_app f l1 l2 : count f (l1 ++ l2) = (count f l1 + count f l2)%nat.
Proof. unfold count. by rewrite List.filter_app, length_app. Qed.

Lemma count_cons f e l :
  count f (e :: l) = ((if f e then 1 else 0) + count f l)%nat.
Proof. unfold count. simpl. by destruct (f e). Qed.

Lemma count_nil f : count f [] = 0%nat.
Proof. done. Qed.

Lemma count_terminal_tail f id tail :
  terminal_tail id tail →
  (∀ block, f (EvEvict id block) = false) →
  (∀ line, f (EvFill id line) = false) →
  count f tail = 0%nat.
Proof.
  intros [-> | (block & line & ->)] He Hf; [done |].
  by rewrite !count_cons, He, Hf.
Qed.

(** ** Write-backs and dirty evictions *)

Section Balance.

Implicit Types (this : Cache.t (Cache.t Empty_set)) (m : Cache.t Empty_set).

(** [L1] over [L2], as [setup_cache] links them. *)
Definition linked this : Prop :=
  Cache.cacheID this = CacheID.L1 ∧
  ∃ m, Cache.memory this = Some m ∧
       Cache.cacheID m = CacheID.L2 ∧ Cache.victimCache m = None.

(** An access adds as many write-backs received by L2 as dirty evictions
    from L1. *)
Definition balanced (w w' : world) : Prop :=
  ∃ evs,
    trace w' = trace w ++ evs ∧
    writebacks_to CacheID.L2 evs = dirty_evictions CacheID.L1 evs.

Lemma balanced_refl w : balanced w w.
Proof. exists []. by rewrite app_nil_r. Qed.

Lemma balanced_trans w1 w2 w3 :
  balanced w1 w2 → balanced w2 w3 → balanced w1 w3.
Proof.
  intros (e1 & Ht1 & Hb1) (e2 & Ht2 & Hb2). exists (e1 ++ e2). split.
  - by rewrite Ht2, Ht1, <- app_assoc.
  - unfold writebacks_to, dirty_evictions in *. rewrite !count_app. lia.
Qed.

Lemma linked_miss this a index l line w c' w' :
  linked this →
  Cache.miss this a index l line w = Some (c', w') →
  balanced w w'.
Proof.
  intros (Hid & m & Hmem & Hidm & Hvcm) Hmiss.
  destruct (two_level_miss _ _ _ _ _ _ _ _ _ Hmem Hvcm
              (empty_memory m) Hmiss)
    as (hit & block & rest & m' & fetch_evs & wb_evs & vc_evs & _ & _ & _ & _
        & _ & Htr & Hfe & Hwe & Hve & _).
  rewrite Hid, Hidm in *.
  exists (fetch_evs ++ EvEvict CacheID.L1 block :: wb_evs ++ vc_evs
          ++ [EvFill CacheID.L1 line]).
  split; [done |]. unfold writebacks_to, dirty_evictions.
  rewrite !count_app, !count_cons, !count_app, !count_cons, !count_nil.
  simpl.
  assert (count (is_writeback_to CacheID.L2) fetch_evs = 0%nat ∧
          count (is_dirty_eviction CacheID.L1) fetch_evs = 0%nat) as [-> ->].
  { destruct hit; [by subst |]. destruct Hfe as (tail & -> & Htail).
    rewrite !count_cons. simpl.
    by rewrite !(count_terminal_tail _ _ _ Htail). }
  assert (count (is_writeback_to CacheID.L2) vc_evs = 0%nat ∧
          count (is_dirty_eviction CacheID.L1) vc_evs = 0%nat) as [-> ->].
  { destruct (Cache.victimCache this); [| by destruct Hve as [_ ->]].
    destruct Hve as [_ Hve]. destruct (valid block); [| by subst].
    destruct Hve as (? & ? & dropped & _ & _ & -> & [-> | [x ->]]); done. }
  destruct (dirty block).
  - destruct Hwe as (tail & -> & Htail). rewrite !count_cons. simpl.
    by rewrite !(count_terminal_tail _ _ _ Htail).
  - by destruct Hwe as [-> _].
Qed.

Lemma linked_read this a w c' w' :
  linked this → Cache.read this a w = Some (c', w') → balanced w w'.
Proof.
  intros Hl. rewrite read_unfold. cbv zeta. destruct (_ || _); [done |].
  destruct (Cache.sets this !! _) as [s|]; [| done].
  assert (balanced w (Cache.count (Cache.cacheID this) incr_accesses
                        incr_accesses_l2
                        (emit (EvRead (Cache.cacheID this) a) w))) as Hent.
  { exists [EvRead (Cache.cacheID this) a]. split; [done |].
    destruct Hl as [-> _]. done. }
  destruct (scan _ _).
  - by intros [= <- <-].
  - intros Hm%linked_miss; [| done]. eapply balanced_trans; [exact Hent |].
    destruct Hm as (evs & Ht & Hb). by exists evs.
Qed.

Lemma linked_write this a w isWriteBack c' w' :
  linked this → Cache.write this a w isWriteBack = Some (c', w') →
  balanced w w'.
Proof.
  intros Hl. rewrite write_unfold. cbv zeta. destruct (_ || _); [done |].
  destruct (Cache.sets this !! _) as [s|]; [| done].
  assert (balanced w (Cache.count (Cache.cacheID this) incr_accesses
                        incr_accesses_l2
                        (emit (EvWrite (Cache.cacheID this) a isWriteBack) w)))
    as Hent.
  { exists [EvWrite (Cache.cacheID this) a isWriteBack]. split; [done |].
    destruct Hl as [-> _]. by destruct isWriteBack. }
  destruct (scan _ _).
  - by intros [= <- <-].
  - intros Hm%linked_miss; [| done]. eapply balanced_trans; [exact Hent |].
    destruct Hm as (evs & Ht & Hb). by exists evs.
Qed.

Lemma shaped_linked c1 b1 s1 v c2 b2 s2 h :
  shaped c1 b1 s1 v c2 b2 s2 h → linked (L1 h).
Proof.
  intros ((Hid & _) & [m Hm] & Hb & _). split; [done |].
  exists m. rewrite Hm in Hb. simpl in Hb.
  destruct Hb as (Hidm & _ & _ & _ & _ & Hvc).
  split_and!; [done | done |].
  destruct (Cache.victimCache m); [| done]. by destruct Hvc.
Qed.

Lemma cache_access_balanced c1 b1 s1 v c2 b2 s2 type arg h w h' w' :
  shaped c1 b1 s1 v c2 b2 s2 h →
  cache_access type arg h w = Some (h', w') → balanced w w'.
Proof.
  intros Hl%shaped_linked. unfold cache_access.
  destruct (Ascii.eqb type READ).
  - destruct (Cache.read _ _ _) as [[c w1]|] eqn:Hr; simpl; [| done].
    intros [= <- <-]. apply linked_read in Hr as (evs & Ht & Hb); [| done].
    by exists evs.
  - destruct (Ascii.eqb type WRITE); [| intros [= <- <-]; apply balanced_refl].
    destruct (Cache.write _ _ _ _) as [[c w1]|] eqn:Hr; simpl; [| done].
    intros [= <- <-]. apply linked_write in Hr as (evs & Ht & Hb); [| done].
    by exists evs.
Qed.

Lemma run_balanced c1 b1 s1 v c2 b2 s2 events h w h' w' :
  shaped c1 b1 s1 v c2 b2 s2 h →
  run events h w = Some (h', w') → balanced w w'.
Proof.
  revert h w. induction events as [|[type arg] events IH]; simpl; intros h w.
  - intros _ [= <- <-]. apply balanced_refl.
  - destruct (cache_access type arg h w) as [[h1 w1]|] eqn:Hacc; simpl;
      [| done].
    intros Hs Hrun. eapply balanced_trans.
    + by eapply cache_access_balanced.
    + eapply IH; [| done]. by eapply cache_access_shaped.
Qed.

End Balance.

(** ** The LRU window *)

(** The accesses that a level receives. *)
Inductive access : Type :=
  | Read (a : N)
  | Write (a : N) (isWriteBack : bool).

Definition address_of (o : access) : N :=
  match o with Read a | Write a _ => a end.

Lemma remove_app value l1 l2 :
  remove value (l1 ++ l2) = remove value l1 ++ remove value l2.
Proof.
  induction l1 as [|e l1 IH]; simpl; [done |].
  destruct (Block_eq e value); [done | by rewrite IH].
Qed.

Lemma unique_NoDup_tags l :
  unique l → (∀ x, x ∈ l → valid x = true) → NoDup (tag <$> l).
Proof.
  induction l as [|b l IH]; intros Hu Hv; [constructor |].
  simpl. apply NoDup_cons_2.
  - intros (x & Hx & Hin)%list_elem_of_fmap.
    specialize (Hu (tag b)). simpl in Hu.
    rewrite (Hv b), N.eqb_refl in Hu by apply list_elem_of_here.
    simpl in Hu.
    assert (valid x = true) as Hvx by (by apply Hv, list_elem_of_further).
    pose proof (occurrences_elem_of _ _ Hin Hvx) as Hpos.
    rewrite <- Hx in Hpos. lia.
  - apply IH.
    + intros t. specialize (Hu t). simpl in Hu.
      destruct (valid b && (tag b =? t)); lia.
    + intros x Hx. by apply Hv, list_elem_of_further.
Qed.

(** The block of the tag [ta] is in the list, behind valid blocks whose tags
    all belong to [W]. *)
Definition resident (W : list N) (ta : N) (l : list Block) : Prop :=
  ∃ front ba back,
    l = front ++ ba :: back ∧ valid ba = true ∧ tag ba = ta ∧
    ∀ x, x ∈ front → valid x = true ∧ tag x ∈ W.

Lemma resident_front W ta b l :
  valid b = true → tag b = ta → resident W ta (b :: l).
Proof.
  intros Hv Ht. exists [], b, l. split_and!; try done.
  by intros x ?%elem_of_nil.
Qed.

Lemma resident_scan W ta l : resident W ta l → is_Some (scan ta l).
Proof.
  intros (front & ba & back & -> & Hv & Ht & _). apply scan_is_Some.
  rewrite <- Ht. apply occurrences_elem_of; [| done].
  apply elem_of_app. right. apply list_elem_of_here.
Qed.

Lemma resident_hit_other W ta l t' block b' :
  resident W ta l → scan t' l = Some block → t' ≠ ta → t' ∈ W →
  valid b' = true → tag b' = t' →
  resident W ta (b' :: remove block l).
Proof.
  intros (front & ba & back & -> & Hv & Ht & Hfront) Hs Hne HW Hv' Ht'.
  destruct (scan_Some _ _ _ Hs) as (Hvb & Htb & _).
  exists (b' :: remove block front), ba, (remove block back).
  split_and!; try done.
  - rewrite remove_app. simpl.
    assert (Block_eq ba block = false) as ->; [| done].
    unfold Block_eq. rewrite Hv, Hvb, Ht, Htb. simpl.
    by apply N.eqb_neq.
  - intros x [-> | Hx%elem_of_remove]%elem_of_cons.
    + by rewrite Ht'.
    + by apply Hfront.
Qed.

Lemma resident_miss W ta l t' line :
  resident W ta l → unique l → occurrences t' l = 0%nat → t' ∈ W →
  (length W < length l)%nat →
  valid line = true → tag line = t' →
  resident W ta (line :: removelast l).
Proof.
  intros (front & ba & back & -> & Hv & Ht & Hfront) Hu H0 HW Hlen Hvl Htl.
  rewrite occurrences_app in H0.
  assert (S (length front) ≤ length W)%nat as Hfl.
  { rewrite <- (length_fmap tag front).
    change (S (length (tag <$> front)))
      with (length (t' :: (tag <$> front))).
    apply submseteq_length, NoDup_submseteq.
    - apply NoDup_cons_2.
      + intros (x & Hx & Hin)%list_elem_of_fmap.
        destruct (Hfront x Hin) as [Hvx _].
        pose proof (occurrences_elem_of _ _ Hin Hvx). rewrite <- Hx in *. lia.
      + apply unique_NoDup_tags; [by eapply unique_app_l |].
        intros x Hx. by apply Hfront.
    - intros x [-> | (y & -> & Hy)%list_elem_of_fmap]%elem_of_cons; [done |].
      by apply Hfront. }
  destruct (decide (back = [])) as [-> | Hback].
  { rewrite length_app in Hlen. simpl in Hlen. lia. }
  apply last_is_Some in Hback as [x [back' ->]%last_Some].
  exists (line :: front), ba, back'.
  split_and!; try done.
  - change (front ++ ba :: back' ++ [x])
      with (front ++ (ba :: back') ++ [x]).
    by rewrite app_assoc, removelast_last.
  - intros y [-> | Hy]%elem_of_cons; [by rewrite Htl | by apply Hfront].
Qed.

Section Window.

Context {M : Type} `{Level M}.

Implicit Types (this c : Cache.t M).

Definition perform this (o : access) (w : world) : option (Cache.t M * world) :=
  match o with
  | Read a => Cache.read this a w
  | Write a isWriteBack => Cache.write this a w isWriteBack
  end.

Fixpoint perform_all this (ops : list access) (w : world)
  : option (Cache.t M * world) :=
  match ops with
  | [] => Some (this, w)
  | o :: ops => '(c, w) ← perform this o w; perform_all c ops w
  end.

(** [a'] belongs to the set of [a] and to another memory block. *)
Definition competes this (a a' : N) : bool :=
  (spec_index this a' =? spec_index this a)
  && negb (spec_tag this a' =? spec_tag this a).

(** The tags of the other memory blocks of the set of [a] that the accesses
    [ops] touch, each once. Fewer of them than the associativity: the
    accesses stay within the LRU window of [a]. *)
Definition competitors this (a : N) (ops : list access) : list N :=
  remove_dups
    (spec_tag this <$> List.filter (competes this a) (address_of <$> ops)).

Lemma competitors_elem_of this a ops o :
  o ∈ ops → competes this a (address_of o) = true →
  spec_tag this (address_of o) ∈ competitors this a ops.
Proof.
  intros Ho Hc. apply elem_of_remove_dups, list_elem_of_fmap_2.
  apply list_elem_of_In, List.filter_In. split; [| done].
  by apply list_elem_of_In, list_elem_of_fmap_2.
Qed.

(** What the address decomposition depends on. *)
Definition geometry this : CacheID.t * N * N * N :=
  (Cache.cacheID this, Cache.cacheSize this, Cache.blockSize this,
   Cache.associativity this).

Lemma same_config_geometry this c' :
  same_config this c' → geometry c' = geometry this.
Proof. intros (? & ? & ? & ? & _). unfold geometry. congruence. Qed.

Lemma perform_config this o w c' w' :
  perform this o w = Some (c', w') → same_config this c'.
Proof. destruct o; [apply read_config | apply write_config]. Qed.

Lemma perform_inv this o w c' w' :
  inv this → perform this o w = Some (c', w') → inv c'.
Proof. destruct o; [apply read_inv | apply write_inv]. Qed.

Lemma perform_works_on this o w c' w' :
  perform this o w = Some (c', w') →
  ∃ hit_block dirty_line,
    works_on this (address_of o) c' hit_block dirty_line ∧
    ∀ block, valid (hit_block block) = valid block ∧
             tag (hit_block block) = tag block.
Proof.
  destruct o as [a | a wb]; simpl.
  - intros ?%read_works_on. by exists (λ block, block), false.
  - intros ?%write_works_on. by exists set_dirty, true.
Qed.

(** One access keeps the block of [a] in its set, as long as the tags in
    front of it are fewer than the associativity. *)
Lemma perform_resident this o w c' w' a W :
  inv this → perform this o w = Some (c', w') →
  (competes this a (address_of o) = true →
   spec_tag this (address_of o) ∈ W) →
  (length W < N.to_nat (Cache.associativity this))%nat →
  (∃ set, Cache.sets this !! N.to_nat (spec_index this a) = Some set ∧
          resident W (spec_tag this a) (blocks set)) →
  ∃ set, Cache.sets c' !! N.to_nat (spec_index this a) = Some set ∧
         resident W (spec_tag this a) (blocks set).
Proof.
  intros [Hsets _] Hp HW Hlen (set & Hset & Hres).
  destruct (perform_works_on _ _ _ _ _ Hp)
    as (hb & d & (set0 & Hset0 & Hother & Hcase) & Hhb).
  destruct (decide (N.to_nat (spec_index this (address_of o))
                    = N.to_nat (spec_index this a))) as [Heq | Hne].
  - rewrite Heq in *. rewrite Hset in Hset0. injection Hset0 as <-.
    apply N2Nat.inj in Heq. unfold competes in HW.
    rewrite Heq, N.eqb_refl in HW. simpl in HW.
    destruct (Hsets _ _ Hset) as (Hl & Hu & _).
    destruct (scan _ _) as [block|] eqn:Hs.
    + eexists. split; [exact Hcase |]. simpl.
      destruct (scan_Some _ _ _ Hs) as (Hv & Ht & _).
      destruct (Hhb block) as [Hv' Ht'].
      destruct (N.eqb_spec (spec_tag this (address_of o)) (spec_tag this a))
        as [Hta | Hta].
      * apply resident_front; congruence.
      * eapply resident_hit_other; eauto; congruence.
    + destruct Hcase as [_ Hcase]. eexists. split; [exact Hcase |]. simpl.
      destruct (N.eqb_spec (spec_tag this (address_of o)) (spec_tag this a))
        as [Hta | Hta].
      * exfalso. destruct (resident_scan _ _ _ Hres) as [x Hx].
        rewrite Hta in Hs. congruence.
      * eapply resident_miss; eauto.
        -- by apply scan_None.
        -- lia.
  - exists set. split; [| done]. rewrite Hother; [done | congruence].
Qed.

Lemma geometry_spec this c a :
  geometry c = geometry this →
  spec_index c a = spec_index this a ∧ spec_tag c a = spec_tag this a ∧
  Cache.associativity c = Cache.associativity this ∧
  Cache.cacheID c = Cache.cacheID this.
Proof.
  unfold geometry, spec_index, spec_tag, spec_block_number,
    spec_number_of_sets.
  by intros [= -> -> -> ->].
Qed.

Lemma perform_all_resident this a W ops : ∀ c w c2 w2,
  geometry c = geometry this → inv c →
  (∀ o, o ∈ ops → competes this a (address_of o) = true →
        spec_tag this (address_of o) ∈ W) →
  (length W < N.to_nat (Cache.associativity this))%nat →
  (∃ set, Cache.sets c !! N.to_nat (spec_index this a) = Some set ∧
          resident W (spec_tag this a) (blocks set)) →
  perform_all c ops w = Some (c2, w2) →
  geometry c2 = geometry this ∧
  ∃ set, Cache.sets c2 !! N.to_nat (spec_index this a) = Some set ∧
         resident W (spec_tag this a) (blocks set).
Proof.
  induction ops as [|o ops IH]; simpl; intros c w c2 w2 Hg Hinv HW Hlen Hres.
  - by intros [= <- <-].
  - destruct (perform c o w) as [[c' w']|] eqn:Hp; simpl; [| done].
    pose proof (same_config_geometry _ _ (perform_config _ _ _ _ _ Hp)) as Hg'.
    rewrite Hg in Hg'.
    apply IH; try done.
    + by eapply perform_inv.
    + intros o' Ho'. apply HW. by apply list_elem_of_further.
    + destruct (geometry_spec this c a Hg) as (Hi & Ht & Ha & _).
      assert (∀ a', competes c a a' = competes this a a'
                    ∧ spec_tag c a' = spec_tag this a') as Hsame.
      { intros a'. unfold competes.
        destruct (geometry_spec this c a' Hg) as (-> & -> & _).
        by rewrite Hi, Ht. }
      rewrite <- Hi, <- Ht in *.
      eapply perform_resident; eauto.
      * intros Hc. destruct (Hsame (address_of o)) as [Hc' ->].
        rewrite Hc' in Hc. apply HW; [apply list_elem_of_here | done].
      * by rewrite Ha.
Qed.

(** After a [read] of [a], a [read] of [a] that comes within the LRU window
    of [a] is a hit: it counts the access and nothing else. *)
Lemma reread_hits this a w c1 w1 ops c2 w2 w3 :
  inv this →
  Cache.read this a w = Some (c1, w1) →
  perform_all c1 ops w1 = Some (c2, w2) →
  (length (competitors this a ops) < N.to_nat (Cache.associativity this))%nat →
  ∃ c3,
    Cache.read c2 a w3
    = Some (c3, Cache.count (Cache.cacheID this) incr_accesses
                  incr_accesses_l2 (emit (EvRead (Cache.cacheID this) a) w3)).
Proof.
  intros Hinv Hr Hops Hlen.
  pose proof (read_inv _ _ _ _ _ Hinv Hr) as Hinv1.
  pose proof (same_config_geometry _ _ (read_config _ _ _ _ _ Hr)) as Hg1.
  assert (∃ set, Cache.sets c1 !! N.to_nat (spec_index this a) = Some set ∧
                 resident (competitors this a ops) (spec_tag this a)
                   (blocks set)) as Hres1.
  { destruct (read_works_on _ _ _ _ _ Hr) as (set & Hset & _ & Hcase).
    destruct (scan _ _) as [block|] eqn:Hs.
    - eexists. split; [exact Hcase |]. simpl.
      destruct (scan_Some _ _ _ Hs) as (? & ? & _).
      by apply resident_front.
    - destruct Hcase as [_ Hcase]. eexists. split; [exact Hcase |].
      by apply resident_front. }
  destruct (perform_all_resident this a (competitors this a ops) ops
              c1 w1 c2 w2 Hg1 Hinv1) as (Hg2 & set & Hset & Hres); try done.
  { intros o. apply competitors_elem_of. }
  unfold geometry in Hg2. injection Hg2 as Hid Hcs Hbs Ha.
  destruct (resident_scan _ _ _ Hres) as [x Hx].
  rewrite read_unfold in Hr |- *. cbv zeta in Hr |- *.
  unfold numberOfSets, spec_index, spec_tag, spec_block_number,
    spec_number_of_sets in *.
  rewrite Hid, Hcs, Hbs, Ha.
  destruct (_ || _); [done |].
  rewrite Hset, Hx. eauto.
Qed.

End Window.

(** ** Rates with a zero denominator *)

(** An infinity or a NaN: what IEEE 754 gives for a rate whose denominator
    is zero. *)
Definition non_finite (x : spec_float) : bool :=
  match x with
  | S754_infinity _ | S754_nan => true
  | _ => false
  end.

Lemma of_u64_zero : F32.of_u64 0 = S754_zero false.
Proof. reflexivity. Qed.

Lemma div_zero_non_finite x : non_finite (F32.div x (S754_zero false)) = true.
Proof. by destruct x. Qed.

Lemma mul_non_finite_l x y : non_finite x = true → non_finite (F32.mul x y) = true.
Proof. destruct x; try done; by destruct y. Qed.

Lemma mul_non_finite_r x y : non_finite y = true → non_finite (F32.mul x y) = true.
Proof. destruct y; try done; by destruct x. Qed.

Lemma add_non_finite_r x y : non_finite y = true → non_finite (F32.add x y) = true.
Proof. destruct y as [| [] | |]; try done; by destruct x as [| [] | |]. Qed.

Lemma mul_nan_l y : F32.mul S754_nan y = S754_nan.
Proof. by destruct y. Qed.

Lemma mul_nan_r x : F32.mul x S754_nan = S754_nan.
Proof. by destruct x. Qed.

Lemma add_nan_r x : F32.add x S754_nan = S754_nan.
Proof. by destruct x. Qed.

(** ** The write-back of an evicted block *)

(** An event of the level [id] that changes one of its sets. *)
Definition is_eviction_at (id : CacheID.t) (e : event) : bool :=
  match e with EvEvict id' _ => CacheID.eqb id' id | _ => false end.

Definition is_fill_at (id : CacheID.t) (e : event) : bool :=
  match e with EvFill id' _ => CacheID.eqb id' id | _ => false end.

Lemma linked_miss_writeback (this : Cache.t (Cache.t Empty_set)) m a index l
    line w c' w' rest block :
  Cache.cacheID this = CacheID.L1 → Cache.memory this = Some m →
  Cache.cacheID m = CacheID.L2 → Cache.victimCache m = None →
  l = rest ++ [block] → dirty block = true →
  Cache.miss this a index l line w = Some (c', w') →
  ∃ pre post,
    trace w' = trace w ++ pre
                 ++ [EvEvict CacheID.L1 block;
                     EvWrite CacheID.L2 (address block) true]
                 ++ post ++ [EvFill CacheID.L1 line] ∧
    count (is_eviction_at CacheID.L1) pre = 0%nat ∧
    count (is_fill_at CacheID.L1) pre = 0%nat ∧
    count (is_writeback_to CacheID.L2) pre = 0%nat ∧
    count (is_fill_at CacheID.L1) post = 0%nat ∧
    count (is_writeback_to CacheID.L2) post = 0%nat ∧
    Cache.sets c'
      = <[N.to_nat index := mkSet (line :: rest)]> (Cache.sets this) ∧
    write_back_l1 (p_stats w') = u64_incr (write_back_l1 (p_stats w)).
Proof.
  intros Hid Hmem Hidm Hvcm Hl Hd Hmiss.
  pose proof (miss_sets _ _ _ _ _ _ _ _ Hmiss) as (rest' & block' & Hl' & Hsets).
  destruct (two_level_miss _ _ _ _ _ _ _ _ _ Hmem Hvcm
              (empty_memory m) Hmiss)
    as (hit & block'' & rest'' & m' & fetch_evs & wb_evs & vc_evs & Hl'' & _
        & _ & _ & _ & Htr & Hfe & Hwe & Hve & Hst).
  rewrite Hl in Hl', Hl''.
  apply app_inj_tail in Hl' as [<- <-], Hl'' as [<- <-].
  rewrite Hd, Hid, Hidm in *.
  destruct Hwe as (tail & -> & Htail).
  exists fetch_evs, (tail ++ vc_evs). split_and!.
  - rewrite Htr. simpl. by rewrite <- !app_assoc.
  - destruct hit; [by subst |]. destruct Hfe as (t & -> & Ht).
    rewrite count_cons. simpl. by rewrite (count_terminal_tail _ _ _ Ht).
  - destruct hit; [by subst |]. destruct Hfe as (t & -> & Ht).
    rewrite count_cons. simpl. by rewrite (count_terminal_tail _ _ _ Ht).
  - destruct hit; [by subst |]. destruct Hfe as (t & -> & Ht).
    rewrite count_cons. simpl. by rewrite (count_terminal_tail _ _ _ Ht).
  - rewrite count_app, (count_terminal_tail _ _ _ Htail) by done.
    destruct (Cache.victimCache this); [| by destruct Hve as [_ ->]].
    destruct Hve as [_ Hve]. destruct (valid block); [| by subst].
    by destruct Hve as (? & ? & dropped & _ & _ & -> & [-> | [x ->]]).
  - rewrite count_app, (count_terminal_tail _ _ _ Htail) by done.
    destruct (Cache.victimCache this); [| by destruct Hve as [_ ->]].
    destruct Hve as [_ Hve]. destruct (valid block); [| by subst].
    by destruct Hve as (? & ? & dropped & _ & _ & -> & [-> | [x ->]]).
  - done.
  - destruct (Hst eq_refl eq_refl) as [Hc _].
    unfold l1_counters, writeback_stats, probe_stats in Hc. rewrite Hd in Hc.
    destruct (bool_decide _), hit; simpl in Hc;
      by injection Hc as _ _ _ _ _ _ -> _.
Qed.

(** ** The access that follows an eviction into the victim cache *)

(** [read] or [write] entered at the level [id]. *)
Definition is_call_to (id : CacheID.t) (e : event) : bool :=
  match e with
  | EvRead id' _ | EvWrite id' _ _ => CacheID.eqb id' id
  | _ => false
  end.

Definition calls_to (id : CacheID.t) : list event → nat := count (is_call_to id).

Section VictimHit.

Implicit Types (this : Cache.t (Cache.t Empty_set)) (m : Cache.t Empty_set).

(** A miss of L1 whose address is that of the front entry of the victim
    cache. *)
Lemma victim_hit_miss this m a index l line w c' w' vc e tl :
  Cache.cacheID this = CacheID.L1 → Cache.memory this = Some m →
  Cache.cacheID m = CacheID.L2 → Cache.victimCache m = None →
  Cache.victimCache this = Some vc →
  VictimCache.blocks vc = e :: tl → valid e = true →
  tag e = a / VictimCache.blockSize vc →
  Cache.miss this a index l line w = Some (c', w') →
  ∃ lru rest evs,
    l = rest ++ [lru] ∧
    trace w' = trace w ++ evs ∧
    victim_hits (p_stats w') = u64_incr (victim_hits (p_stats w)) ∧
    if dirty lru then
      accesses_l2 (p_stats w') = u64_incr (accesses_l2 (p_stats w)) ∧
      calls_to CacheID.L2 evs = 1%nat ∧
      EvWrite CacheID.L2 (address lru) true ∈ evs
    else
      accesses_l2 (p_stats w') = accesses_l2 (p_stats w) ∧
      calls_to CacheID.L2 evs = 0%nat ∧
      Cache.memory c' = Cache.memory this.
Proof.
  intros Hid Hmem Hidm Hvcm Hvc Hbl Hv Ht Hmiss.
  destruct (two_level_miss _ _ _ _ _ _ _ _ _ Hmem Hvcm (empty_memory m) Hmiss)
    as (hit & lru & rest & m' & fetch_evs & wb_evs & vc_evs & Hl & Hmem'
        & _ & _ & _ & Htr & Hfe & Hwe & Hve & Hst).
  rewrite Hvc in Hve, Hst. destruct Hve as [Hhit Hve].
  assert (hit = true) as ->.
  { destruct hit; [done |]. rewrite Hbl in Hhit.
    by rewrite (scan_head _ e tl Hv Ht) in Hhit. }
  subst fetch_evs. rewrite Hid, Hidm in *.
  destruct (Hst eq_refl eq_refl) as [Hc Ha].
  rewrite bool_decide_true in Hc by eauto.
  exists lru, rest, (EvEvict CacheID.L1 lru :: wb_evs ++ vc_evs
                     ++ [EvFill CacheID.L1 line]).
  assert (calls_to CacheID.L2 vc_evs = 0%nat) as Hcv.
  { destruct (valid lru); [| by subst].
    by destruct Hve as (? & ? & dropped & _ & _ & -> & [-> | [x ->]]). }
  split_and!; [done | done | |].
  - unfold l1_counters, writeback_stats, probe_stats in Hc.
    destruct (dirty lru); simpl in Hc; by injection Hc as _ _ _ _ _ _ _ ->.
  - unfold calls_to in *. rewrite count_cons, !count_app, Hcv.
    simpl in Ha. destruct (dirty lru).
    + destruct Hwe as (tail & -> & Htail). split_and!; [done | |].
      * rewrite count_cons, (count_terminal_tail _ _ _ Htail) by done. done.
      * apply list_elem_of_further, list_elem_of_here.
    + destruct Hwe as [-> Hm']. split_and!; [done | done |].
      by rewrite Hmem', Hmem, Hm'.
Qed.

Lemma absorb_not_in_call entry id evs id' b :
  call_events entry id evs → entry ≠ EvAbsorb id' b → EvAbsorb id' b ∉ evs.
Proof.
  intros (tail & -> & [-> | (x & y & ->)]) Hne Hin.
  - by apply list_elem_of_singleton in Hin.
  - repeat (apply elem_of_cons in Hin as [Hin | Hin]; [congruence |]).
    by apply elem_of_nil in Hin.
Qed.

(** The block that an access hands to the victim cache is, after the
    access, the front entry of the victim cache. *)
Lemma miss_absorbed this m a index l line w c' w' evs id' block :
  Cache.memory this = Some m → Cache.victimCache m = None →
  Cache.miss this a index l line w = Some (c', w') →
  trace w' = trace w ++ evs → EvAbsorb id' block ∈ evs →
  ∃ vc vc' tl,
    Cache.victimCache this = Some vc ∧
    Cache.victimCache c' = Some vc' ∧
    VictimCache.blocks vc'
      = mkBlock true false (address block / VictimCache.blockSize vc)
          (address block) :: tl.
Proof.
  intros Hmem Hvcm Hmiss Htr' Hin.
  destruct (two_level_miss _ _ _ _ _ _ _ _ _ Hmem Hvcm (empty_memory m) Hmiss)
    as (hit & lru & rest & m' & fetch_evs & wb_evs & vc_evs & _ & _
        & _ & _ & _ & Htr & Hfe & Hwe & Hve & _).
  rewrite Htr in Htr'. apply app_inv_head in Htr'. subst evs.
  apply elem_of_app in Hin as [Hin | Hin].
  { exfalso. destruct hit; [subst; by apply elem_of_nil in Hin |].
    by eapply absorb_not_in_call. }
  apply elem_of_cons in Hin as [[=] | Hin].
  apply elem_of_app in Hin as [Hin | Hin].
  { exfalso. destruct (dirty lru).
    - by eapply absorb_not_in_call.
    - destruct Hwe as [-> _]. by apply elem_of_nil in Hin. }
  apply elem_of_app in Hin as [Hin | Hin];
    [| by apply list_elem_of_singleton in Hin].
  destruct (Cache.victimCache this) as [vc|];
    [| destruct Hve as [_ ->]; by apply elem_of_nil in Hin].
  destruct Hve as [_ Hve]. destruct (valid lru);
    [| subst; by apply elem_of_nil in Hin].
  destruct Hve as (vc' & tl & dropped & Hvc' & Hbl & -> & Hdrop).
  apply elem_of_cons in Hin as [[= _ ->] | Hin].
  - by exists vc, vc', tl.
  - exfalso. destruct Hdrop as [-> | [x ->]].
    + by apply elem_of_nil in Hin.
    + by apply list_elem_of_singleton in Hin.
Qed.

Lemma access_absorbed c1 b1 s1 v c2 b2 s2 type arg h w h1 w1 block :
  shaped c1 b1 s1 v c2 b2 s2 h →
  cache_access type arg h w = Some (h1, w1) →
  EvAbsorb CacheID.L1 block ∈ drop (length (trace w)) (trace w1) →
  ∃ vc tl,
    Cache.victimCache (L1 h1) = Some vc ∧
    VictimCache.blocks vc
      = mkBlock true false (address block / 2 ^ b1) (address block) :: tl.
Proof.
  intros Hs Hacc Hin.
  pose proof (shaped_linked _ _ _ _ _ _ _ _ Hs)
    as (_ & m & Hmem & _ & Hvcm).
  destruct Hs as ((_ & _ & _ & _ & _ & Hcvc) & _).
  assert (∀ w0 entry line index l c' w',
    trace w0 = trace w ++ [entry] → entry ≠ EvAbsorb CacheID.L1 block →
    Cache.miss (L1 h) arg index l line w0 = Some (c', w') →
    EvAbsorb CacheID.L1 block ∈ drop (length (trace w)) (trace w') →
    ∃ vc tl,
      Cache.victimCache c' = Some vc ∧
      VictimCache.blocks vc
        = mkBlock true false (address block / 2 ^ b1) (address block) :: tl)
    as Hmiss.
  { intros w0 entry line index l c' w' Htr0 Hne Hm Hin'.
    assert (∃ evs, trace w' = trace w0 ++ evs) as [evs Htr'].
    { destruct (two_level_miss _ _ _ _ _ _ _ _ _ Hmem Hvcm (empty_memory m) Hm)
        as (? & ? & ? & ? & ? & ? & ? & _ & _ & _ & _ & _ & Htr & _).
      eauto. }
    rewrite Htr', Htr0, <- app_assoc, drop_app_length in Hin'.
    apply elem_of_cons in Hin' as [Heq | Hin']; [congruence |].
    destruct (miss_absorbed _ _ _ _ _ _ _ _ _ _ _ _ Hmem Hvcm Hm Htr' Hin')
      as (vc & vc' & tl & Hvc & Hvc' & Hbl).
    exists vc', tl. split; [done |]. rewrite Hvc in Hcvc.
    destruct Hcvc as (_ & _ & <-). done. }
  unfold cache_access in Hacc. destruct (Ascii.eqb type READ).
  - destruct (Cache.read _ _ _) as [[c w']|] eqn:Hr; simpl in Hacc; [| done].
    injection Hacc as <- <-. simpl. rewrite read_unfold in Hr.
    cbv zeta in Hr. destruct (_ || _); [done |].
    destruct (Cache.sets (L1 h) !! _) as [set|]; [| done].
    destruct (scan _ _).
    + injection Hr as <- <-. simpl in Hin. rewrite drop_app_length in Hin.
      by apply list_elem_of_singleton in Hin.
    + by eapply Hmiss; [| | exact Hr | exact Hin].
  - destruct (Ascii.eqb type WRITE).
    + destruct (Cache.write _ _ _ _) as [[c w']|] eqn:Hr; simpl in Hacc;
        [| done].
      injection Hacc as <- <-. simpl. rewrite write_unfold in Hr.
      cbv zeta in Hr. destruct (_ || _); [done |].
      destruct (Cache.sets (L1 h) !! _) as [set|]; [| done].
      destruct (scan _ _).
      * injection Hr as <- <-. simpl in Hin. rewrite drop_app_length in Hin.
        by apply list_elem_of_singleton in Hin.
      * by eapply Hmiss; [| | exact Hr | exact Hin].
    + injection Hacc as <- <-. rewrite drop_all in Hin.
      by apply elem_of_nil in Hin.
Qed.

(** The access to the memory block of the front entry of the victim
    cache. *)
Lemma access_victim_hit c1 b1 s1' v' c2 b2 s2' type a h1 w1 vc e tl :
  shaped c1 b1 s1' v' c2 b2 s2' h1 → hierarchy_inv h1 → hierarchy_ready h1 →
  Cache.victimCache (L1 h1) = Some vc →
  VictimCache.blocks vc = e :: tl → valid e = true → tag e = a / 2 ^ b1 →
  type = READ ∨ type = WRITE →
  ∃ h2 w2 set lru evs,
    cache_access type a h1 w1 = Some (h2, w2) ∧
    Cache.sets (L1 h1) !! N.to_nat (spec_index (L1 h1) a) = Some set ∧
    list.last (blocks set) = Some lru ∧
    trace w2 = trace w1 ++ evs ∧
    victim_hits (p_stats w2) = u64_incr (victim_hits (p_stats w1)) ∧
    if dirty lru then
      accesses_l2 (p_stats w2) = u64_incr (accesses_l2 (p_stats w1)) ∧
      calls_to CacheID.L2 evs = 1%nat ∧
      EvWrite CacheID.L2 (address lru) true ∈ evs
    else
      accesses_l2 (p_stats w2) = accesses_l2 (p_stats w1) ∧
      calls_to CacheID.L2 evs = 0%nat ∧
      L2 h2 = L2 h1.
Proof.
  intros Hs [[Hsets Hinvvc] _] Hready Hvc Hbl Hv Ht Htype.
  pose proof (shaped_linked _ _ _ _ _ _ _ _ Hs)
    as (Hid & m & Hmem & Hidm & Hvcm).
  destruct Hs as ((_ & _ & Hbs & _ & _ & Hcvc) & _).
  rewrite Hvc in Hcvc. destruct Hcvc as (_ & _ & Hvbs).
  destruct (cache_access_total type a h1 w1 Hready) as (h2 & w2 & Hacc & _).
  destruct (Hinvvc vc Hvc) as (_ & _ & _ & Habs).
  assert (e ∈ VictimCache.blocks vc) as Hin
    by (rewrite Hbl; apply list_elem_of_here).
  specialize (Habs e Hin Hv). rewrite Ht, <- Hbs in Habs.
  unfold spec_index, spec_tag, spec_block_number, spec_number_of_sets.
  fold (numberOfSets (L1 h1)).
  rewrite <- Hvbs in Ht.
  assert (∀ entry line w0 c w' set,
    Cache.miss (L1 h1) a
      (a / Cache.blockSize (L1 h1) mod numberOfSets (L1 h1))
      (blocks set) line w0 = Some (c, w') →
    trace w0 = trace w1 ++ [entry] →
    is_call_to CacheID.L2 entry = false →
    victim_hits (p_stats w0) = victim_hits (p_stats w1) →
    accesses_l2 (p_stats w0) = accesses_l2 (p_stats w1) →
    ∃ lru evs,
      list.last (blocks set) = Some lru ∧
      trace w' = trace w1 ++ evs ∧
      victim_hits (p_stats w') = u64_incr (victim_hits (p_stats w1)) ∧
      if dirty lru then
        accesses_l2 (p_stats w') = u64_incr (accesses_l2 (p_stats w1)) ∧
        calls_to CacheID.L2 evs = 1%nat ∧
        EvWrite CacheID.L2 (address lru) true ∈ evs
      else
        accesses_l2 (p_stats w') = accesses_l2 (p_stats w1) ∧
        calls_to CacheID.L2 evs = 0%nat ∧
        Cache.memory c = Cache.memory (L1 h1)) as Hmiss.
  { intros entry line w0 c w' set Hm Htr0 Hcall Hvh Hal2.
    destruct (victim_hit_miss _ _ _ _ _ _ _ _ _ _ _ _ Hid Hmem Hidm Hvcm Hvc
                Hbl Hv Ht Hm)
      as (lru & rest & evs & Hl & Htr & Hvh' & Hcase).
    exists lru, (entry :: evs). split_and!.
    - rewrite Hl. apply last_snoc.
    - rewrite Htr, Htr0. by rewrite <- app_assoc.
    - by rewrite Hvh', Hvh.
    - unfold calls_to in *. rewrite count_cons, Hcall. rewrite <- Hal2.
      destruct (dirty lru); [| done].
      destruct Hcase as (? & ? & ?). split_and!; [done | done |].
      by apply list_elem_of_further. }
  unfold cache_access in Hacc |- *.
  destruct Htype as [-> | ->]; simpl in Hacc |- *.
  - destruct (Cache.read _ _ _) as [[c w']|] eqn:Hr; simpl in Hacc; [| done].
    injection Hacc as <- <-. rewrite read_unfold in Hr. cbv zeta in Hr.
    destruct (_ || _); [done |].
    destruct (Cache.sets (L1 h1) !! _) as [set|] eqn:Hset; [| done].
    rewrite (proj2 (scan_None _ _) (Habs _ Hset)) in Hr.
    rewrite Hid in Hr.
    destruct (Hmiss (EvRead CacheID.L1 a) _ _ _ _ _ Hr)
      as (lru & evs & Hlast & Htr & Hvh & Hcase); [reflexivity.. |].
    exists (mk_hierarchy c (s1 h1) (s2 h1) (v h1)), w', set, lru, evs.
    by split_and!.
  - destruct (Cache.write _ _ _ _) as [[c w']|] eqn:Hr; simpl in Hacc;
      [| done].
    injection Hacc as <- <-. rewrite write_unfold in Hr. cbv zeta in Hr.
    destruct (_ || _); [done |].
    destruct (Cache.sets (L1 h1) !! _) as [set|] eqn:Hset; [| done].
    rewrite (proj2 (scan_None _ _) (Habs _ Hset)) in Hr.
    rewrite Hid in Hr.
    destruct (Hmiss (EvWrite CacheID.L1 a false) _ _ _ _ _ Hr)
      as (lru & evs & Hlast & Htr & Hvh & Hcase); [reflexivity.. |].
    exists (mk_hierarchy c (s1 h1) (s2 h1) (v h1)), w', set, lru, evs.
    by split_and!.
Qed.

(** *** Whoever holds a valid block has an L2 with sets *)

(** A set or the victim cache of the level holds a valid block. *)
Definition occupied this : Prop :=
  (∃ i set b, Cache.sets this !! i = Some set ∧ b ∈ blocks set ∧
              valid b = true) ∨
  (∃ vc e, Cache.victimCache this = Some vc ∧ e ∈ VictimCache.blocks vc ∧
           valid e = true).

Lemma read_Some_sets {M : Type} `{Level M} (c : Cache.t M) a w r :
  Cache.read c a w = Some r → numberOfSets c ≠ 0.
Proof.
  rewrite read_unfold. cbv zeta. destruct (_ || _) eqn:Hz; [done |].
  by apply orb_false_iff in Hz as [_ ?%N.eqb_neq].
Qed.

Lemma write_Some_sets {M : Type} `{Level M} (c : Cache.t M) a w wb r :
  Cache.write c a w wb = Some r → numberOfSets c ≠ 0.
Proof.
  rewrite write_unfold. cbv zeta. destruct (_ || _) eqn:Hz; [done |].
  by apply orb_false_iff in Hz as [_ ?%N.eqb_neq].
Qed.

(** A miss of L1 returns only if L1 held a valid block or L2 has sets: the
    line comes from the victim cache, which got it from L1, or from L2. *)
Lemma miss_Some_below this m a index l line w r :
  Cache.memory this = Some m →
  Cache.miss this a index l line w = Some r →
  occupied this ∨ numberOfSets m ≠ 0.
Proof.
  intros Hmem. destruct r as [c' w'].
  intros (hit & ovc1 & wp & mem1 & wf & block & rest & mem2 & wb & ovc2 & wa
          & Hprobe & Hfetch & _)%miss_inv.
  destruct hit.
  - left. right. destruct (Cache.victimCache this) as [vc|];
      [| by destruct Hprobe].
    destruct Hprobe as (vc1 & (_ & _ & _ & _ & e & Hs & _)%vc_read_inv & _).
    destruct (scan_Some _ _ _ Hs) as (? & _ & ?). by exists vc, e.
  - right. apply fetch_inv in Hfetch. rewrite Hmem in Hfetch.
    destruct Hfetch as (m' & Hr & _). exact (read_Some_sets m _ _ _ Hr).
Qed.

Lemma access_Some_sets c1 b1 s1 v c2 b2 s2 type arg h w h' w' :
  shaped c1 b1 s1 v c2 b2 s2 h →
  (occupied (L1 h) → 2 ^ c2 / 2 ^ b2 / 2 ^ s2 ≠ 0) →
  type = READ ∨ type = WRITE →
  cache_access type arg h w = Some (h', w') →
  2 ^ c1 / 2 ^ b1 / 2 ^ s1 ≠ 0 ∧ 2 ^ c2 / 2 ^ b2 / 2 ^ s2 ≠ 0.
Proof.
  intros ((_ & Hcs & Hbs & Ha & _) & [m Hmem] & Hb & _) Hocc Htype Hacc.
  rewrite Hmem in Hb. simpl in Hb.
  destruct Hb as (_ & Hcs2 & Hbs2 & Ha2 & _).
  assert (numberOfSets (L1 h) = 2 ^ c1 / 2 ^ b1 / 2 ^ s1) as Hns1
    by (unfold numberOfSets; by rewrite Hcs, Hbs, Ha).
  assert (numberOfSets m = 2 ^ c2 / 2 ^ b2 / 2 ^ s2) as Hns2
    by (unfold numberOfSets; by rewrite Hcs2, Hbs2, Ha2).
  rewrite <- Hns1, <- Hns2 in *.
  unfold cache_access in Hacc.
  destruct Htype as [-> | ->]; simpl in Hacc.
  - destruct (Cache.read _ _ _) as [[c w1]|] eqn:Hr; [| done].
    split; [by eapply read_Some_sets |].
    rewrite read_unfold in Hr. cbv zeta in Hr. destruct (_ || _); [done |].
    destruct (Cache.sets (L1 h) !! _) as [set|] eqn:Hset; [| done].
    destruct (scan _ _) as [block|] eqn:Hs.
    + apply Hocc. left. destruct (scan_Some _ _ _ Hs) as (? & _ & ?).
      by eexists _, set, block.
    + destruct (miss_Some_below _ _ _ _ _ _ _ _ Hmem Hr); auto.
  - destruct (Cache.write _ _ _ _) as [[c w1]|] eqn:Hr; [| done].
    split; [by eapply write_Some_sets |].
    rewrite write_unfold in Hr. cbv zeta in Hr. destruct (_ || _); [done |].
    destruct (Cache.sets (L1 h) !! _) as [set|] eqn:Hset; [| done].
    destruct (scan _ _) as [block|] eqn:Hs.
    + apply Hocc. left. destruct (scan_Some _ _ _ Hs) as (? & _ & ?).
      by eexists _, set, block.
    + destruct (miss_Some_below _ _ _ _ _ _ _ _ Hmem Hr); auto.
Qed.

Lemma setup_not_occupied {heap} c1 b1 s1 v c2 b2 s2 h :
  setup_cache c1 b1 s1 v c2 b2 s2 heap = Returns h → ¬ occupied (L1 h).
Proof.
  intros (l1 & l2 & _ & H1 & ->)%setup_cache_eq. simpl.
  unfold constructed in H1. destruct (_ && _); [| done]. injection H1 as <-.
  intros [(i & set & b & Hset & Hb & Hv) | (vc & e & Hvc & He & Hv)];
    simpl in *.
  - apply lookup_replicate in Hset as [-> _]. simpl in Hb.
    by apply elem_of_replicate_inv in Hb as ->.
  - destruct (v =? 0); [done |]. injection Hvc as <-. simpl in He.
    by apply elem_of_replicate_inv in He as ->.
Qed.

Lemma run_occupied c1 b1 s1 v c2 b2 s2 events : ∀ h w h' w',
  shaped c1 b1 s1 v c2 b2 s2 h →
  (occupied (L1 h) → 2 ^ c2 / 2 ^ b2 / 2 ^ s2 ≠ 0) →
  run events h w = Some (h', w') →
  occupied (L1 h') → 2 ^ c2 / 2 ^ b2 / 2 ^ s2 ≠ 0.
Proof.
  induction events as [|[type arg] events IH]; simpl; intros h w h' w' Hs Hocc.
  - by intros [= <- <-].
  - destruct (cache_access type arg h w) as [[h1 w1]|] eqn:Hacc; simpl;
      [| done].
    apply IH; [by eapply cache_access_shaped |].
    destruct (Ascii.eqb_spec type READ) as [-> | Hr].
    { intros _. by eapply access_Some_sets; [| | left | ]. }
    destruct (Ascii.eqb_spec type WRITE) as [-> | Hw].
    { intros _. by eapply access_Some_sets; [| | right | ]. }
    unfold cache_access in Hacc.
    apply Ascii.eqb_neq in Hr, Hw. rewrite Hr, Hw in Hacc.
    by injection Hacc as <- <-.
Qed.

(** A hierarchy with sets at both levels is ready. *)
Lemma shaped_ready c1 b1 s1 v c2 b2 s2 h :
  shaped c1 b1 s1 v c2 b2 s2 h → hierarchy_inv h →
  2 ^ c1 / 2 ^ b1 / 2 ^ s1 ≠ 0 → 2 ^ c2 / 2 ^ b2 / 2 ^ s2 ≠ 0 →
  hierarchy_ready h.
Proof.
  intros ((_ & Hcs & Hbs & Ha & Hlen & Hvc) & [m Hmem] & Hb & _) [Hinv1 Hinv2]
    Hns1 Hns2.
  rewrite Hmem in Hb, Hinv2. simpl in Hb, Hinv2.
  destruct Hb as (_ & Hcs2 & Hbs2 & Ha2 & Hlen2 & Hvc2).
  unfold hierarchy_ready, ready, numberOfSets.
  rewrite Hcs, Hbs, Ha, Hlen, Hmem. simpl. unfold ready, numberOfSets.
  rewrite Hcs2, Hbs2, Ha2, Hlen2.
  split_and!; try done; try apply pow2_nonzero.
  - intros vc Hvc'. rewrite Hvc' in Hvc. by destruct Hvc as (? & -> & _).
  - intros vc Hvc'. rewrite Hvc' in Hvc2. by destruct Hvc2.
  - by destruct (Cache.memory m) as [[]|].
Qed.

End VictimHit.

(** ** More sample runs *)

(** The sample run up to its last access: the store to block 1 evicts the
    dirty block 0 into the victim cache. *)
Definition sample_h1 : hierarchy :=
  Eval vm_compute in
    default hierarchy0 (fst <$> run [(WRITE, 0)] sample_h0 world0).

Definition sample_w1 : world :=
  Eval vm_compute in
    default world0 (snd <$> run [(WRITE, 0)] sample_h0 world0).

Definition sample_h2 : hierarchy :=
  Eval vm_compute in
    default hierarchy0 (fst <$> cache_access WRITE 16 sample_h1 sample_w1).

Definition sample_w2 : world :=
  Eval vm_compute in
    default world0 (snd <$> cache_access WRITE 16 sample_h1 sample_w1).

Definition block0 : Block := mkBlock true true 0 0.

(** The L2 of the sample run after its first access. *)
Definition sample_m1 : Cache.t Empty_set :=
  Eval vm_compute in
    default (Cache.mk CacheID.L2 0 0 0 [] None None) (L2 sample_h1).

(** A two-way L1 of two 16-byte blocks, hence one set, over an L2 of four
    blocks in two sets. *)
Definition two_way_h0 : hierarchy :=
  Eval vm_compute in
    default hierarchy0 (returned (setup_cache 5 4 1 0 6 4 1 sample_heap)).

Definition two_way_ops : list access := [Read 16; Write 16 false; Read 16].

Definition two_way_c1 : Cache.t (Cache.t Empty_set) :=
  Eval vm_compute in
    default (L1 hierarchy0) (fst <$> Cache.read (L1 two_way_h0) 0 world0).

Definition two_way_w1 : world :=
  Eval vm_compute in
    default world0 (snd <$> Cache.read (L1 two_way_h0) 0 world0).

Definition two_way_c2 : Cache.t (Cache.t Empty_set) :=
  Eval vm_compute in
    default (L1 hierarchy0)
      (fst <$> perform_all two_way_c1 two_way_ops two_way_w1).

Definition two_way_w2 : world :=
  Eval vm_compute in
    default world0 (snd <$> perform_all two_way_c1 two_way_ops two_way_w1).

(** * The claims *)

(** C1, as the specification states it: the write-backs received by L2 are
    the dirty evictions from L1 less those that the victim cache absorbed,
    whose write-back waits until the victim cache evicts the entry; so, as
    long as the victim cache has evicted no entry, the absorbed dirty blocks
    have not been written back. *)
Definition writebacks_deferred_by_victim_cache : Prop :=
  ∀ c1 b1 s1 v c2 b2 s2 heap events h0 h w,
    setup_cache c1 b1 s1 v c2 b2 s2 heap = Returns h0 →
    run events h0 world0 = Some (h, w) →
    victim_evictions (trace w) = 0%nat →
    writebacks_to CacheID.L2 (trace w)
      = (dirty_evictions CacheID.L1 (trace w)
         - dirty_absorptions CacheID.L1 (trace w))%nat.

(** C1 fails on the sample run: both dirty blocks that L1 evicts go to the
    victim cache, which evicts no entry, and L2 has received both
    write-backs. *)
Lemma writeback_not_deferred :
  dirty_evictions CacheID.L1 (trace sample_w) = 2%nat ∧
  dirty_absorptions CacheID.L1 (trace sample_w) = 2%nat ∧
  victim_evictions (trace sample_w) = 0%nat ∧
  writebacks_to CacheID.L2 (trace sample_w) = 2%nat ∧
  ¬ writebacks_deferred_by_victim_cache.
Proof.
  split_and!; try reflexivity.
  intros Hd.
  specialize (Hd 4 4 0 2 6 4 0 sample_heap sample_events sample_h0 sample_h
                sample_w eq_refl eq_refl eq_refl).
  discriminate Hd.
Qed.

(** C1, amended. For every trace, the write-backs that L2 receives from L1
    are as many as the dirty evictions from L1, those of blocks that the
    victim cache absorbs included: a dirty block is written back when it
    leaves its set, before it enters the victim cache, and no write-back is
    left for the time when the victim cache evicts the entry. *)
Theorem writebacks_equal_dirty_evictions
    c1 b1 s1 v c2 b2 s2 heap events h0 w0 h w :
  setup_cache c1 b1 s1 v c2 b2 s2 heap = Returns h0 →
  run events h0 w0 = Some (h, w) →
  ∃ evs,
    trace w = trace w0 ++ evs ∧
    writebacks_to CacheID.L2 evs = dirty_evictions CacheID.L1 evs.
Proof.
  intros Hsetup Hrun. eapply run_balanced; [| exact Hrun].
  by eapply setup_shaped.
Qed.

Lemma writebacks_equal_dirty_evictions_witness :
  ∃ evs,
    trace sample_w = trace world0 ++ evs ∧
    writebacks_to CacheID.L2 evs = dirty_evictions CacheID.L1 evs.
Proof.
  apply (writebacks_equal_dirty_evictions 4 4 0 2 6 4 0 sample_heap
           sample_events
           sample_h0 world0 sample_h sample_w); reflexivity.
Defined.

(** C2. Whenever a [read] or a [write] of L1 misses and the block at the
    back of the set, which it evicts, is dirty, L2 receives
    [write(block.address, _, true)] at once: in the trace of the access the
    event of that call follows the eviction immediately and precedes the
    fill of the new line, no other write-back is issued, no other block
    leaves nor enters a set of L1 in between, and the write-back counter of
    L1 is one higher. *)
Theorem dirty_eviction_written_back_at_once
    (this : Cache.t (Cache.t Empty_set)) (m : Cache.t Empty_set)
    (a : N) (w : world) (isWriteBack : bool) c' w' set block :
  Cache.cacheID this = CacheID.L1 → Cache.memory this = Some m →
  Cache.cacheID m = CacheID.L2 → Cache.victimCache m = None →
  Cache.read this a w = Some (c', w') ∨
  Cache.write this a w isWriteBack = Some (c', w') →
  Cache.sets this !! N.to_nat (spec_index this a) = Some set →
  scan (spec_tag this a) (blocks set) = None →
  list.last (blocks set) = Some block →
  dirty block = true →
  ∃ pre post line,
    trace w' = trace w ++ pre
                 ++ [EvEvict CacheID.L1 block;
                     EvWrite CacheID.L2 (address block) true]
                 ++ post ++ [EvFill CacheID.L1 line] ∧
    count (is_eviction_at CacheID.L1) pre = 0%nat ∧
    count (is_fill_at CacheID.L1) pre = 0%nat ∧
    count (is_writeback_to CacheID.L2) pre = 0%nat ∧
    count (is_fill_at CacheID.L1) post = 0%nat ∧
    count (is_writeback_to CacheID.L2) post = 0%nat ∧
    Cache.sets c' !! N.to_nat (spec_index this a)
      = Some (mkSet (line :: removelast (blocks set))) ∧
    write_back_l1 (p_stats w') = u64_incr (write_back_l1 (p_stats w)).
Proof.
  intros Hid Hmem Hidm Hvcm Hop Hset Hscan [rest Hl]%last_Some Hd.
  unfold spec_index, spec_tag, spec_block_number, spec_number_of_sets in *.
  assert (∀ entry line w0,
    trace w0 = trace w ++ [entry] →
    is_eviction_at CacheID.L1 entry = false →
    is_fill_at CacheID.L1 entry = false →
    is_writeback_to CacheID.L2 entry = false →
    write_back_l1 (p_stats w0) = write_back_l1 (p_stats w) →
    Cache.miss this a
      (a / Cache.blockSize this
       mod (Cache.cacheSize this / Cache.blockSize this
            / Cache.associativity this))
      (blocks set) line w0 = Some (c', w') →
    ∃ pre post line,
      trace w' = trace w ++ pre
                   ++ [EvEvict CacheID.L1 block;
                       EvWrite CacheID.L2 (address block) true]
                   ++ post ++ [EvFill CacheID.L1 line] ∧
      count (is_eviction_at CacheID.L1) pre = 0%nat ∧
      count (is_fill_at CacheID.L1) pre = 0%nat ∧
      count (is_writeback_to CacheID.L2) pre = 0%nat ∧
      count (is_fill_at CacheID.L1) post = 0%nat ∧
      count (is_writeback_to CacheID.L2) post = 0%nat ∧
      Cache.sets c' !! N.to_nat
        (a / Cache.blockSize this
         mod (Cache.cacheSize this / Cache.blockSize this
              / Cache.associativity this))
        = Some (mkSet (line :: removelast (blocks set))) ∧
      write_back_l1 (p_stats w') = u64_incr (write_back_l1 (p_stats w)))
    as Hmiss.
  { intros entry line w0 Htr0 He Hf Hw Hst0 Hm.
    destruct (linked_miss_writeback _ _ _ _ _ _ _ _ _ _ _ Hid Hmem Hidm Hvcm
                Hl Hd Hm)
      as (pre & post & Htr & ? & ? & ? & ? & ? & Hsets & Hst).
    exists (entry :: pre), post, line. rewrite !count_cons, He, Hf, Hw.
    split_and!; try done.
    - rewrite Htr, Htr0. by rewrite <- !app_assoc.
    - rewrite Hsets, Hl, removelast_last.
      apply list_lookup_insert_eq. by eapply lookup_lt_Some.
    - by rewrite Hst, Hst0. }
  destruct Hop as [Hop | Hop].
  - rewrite read_unfold in Hop. cbv zeta in Hop. unfold numberOfSets in Hop.
    destruct (_ || _); [done |]. rewrite Hset, Hscan in Hop.
    eapply Hmiss; [| | | | | exact Hop]; rewrite ?Hid; done.
  - rewrite write_unfold in Hop. cbv zeta in Hop. unfold numberOfSets in Hop.
    destruct (_ || _); [done |]. rewrite Hset, Hscan in Hop.
    eapply Hmiss; [| | | | | exact Hop]; rewrite ?Hid; try done.
    by destruct isWriteBack.
Qed.

Lemma dirty_eviction_written_back_at_once_witness :
  ∃ pre post line,
    trace sample_w2
      = trace (upd incr_writes sample_w1) ++ pre
          ++ [EvEvict CacheID.L1 block0; EvWrite CacheID.L2 (address block0) true]
          ++ post ++ [EvFill CacheID.L1 line] ∧
    count (is_eviction_at CacheID.L1) pre = 0%nat ∧
    count (is_fill_at CacheID.L1) pre = 0%nat ∧
    count (is_writeback_to CacheID.L2) pre = 0%nat ∧
    count (is_fill_at CacheID.L1) post = 0%nat ∧
    count (is_writeback_to CacheID.L2) post = 0%nat ∧
    Cache.sets (L1 sample_h2) !! N.to_nat (spec_index (L1 sample_h1) 16)
      = Some (mkSet (line :: removelast [block0])) ∧
    write_back_l1 (p_stats sample_w2)
      = u64_incr (write_back_l1 (p_stats (upd incr_writes sample_w1))).
Proof.
  apply (dirty_eviction_written_back_at_once (L1 sample_h1) sample_m1 16
           (upd incr_writes sample_w1) false (L1 sample_h2) sample_w2
           (mkSet [block0]) block0);
    [reflexivity | reflexivity | reflexivity | reflexivity
    | right; reflexivity | reflexivity | reflexivity | reflexivity
    | reflexivity].
Defined.

(** The configurations that the comment of [setup_cache] and the
    specification allow: in each cache the blocks of one set fit in the
    capacity ([2^s] divides [2^c / 2^b], that is [b + s <= c]), L2 is not
    smaller than L1 in any parameter, and the victim cache has at most four
    blocks. *)
Definition valid_configuration (c1 b1 s1 v c2 b2 s2 : N) : bool :=
  (b1 + s1 <=? c1) && (b2 + s2 <=? c2) &&
  (c1 <=? c2) && (b1 <=? b2) && (s1 <=? s2) && (v <=? 4).

(** C3, as the specification states it: an invalid configuration makes
    [setup_cache] fail instead of constructing the caches, whatever the
    free store. *)
Definition setup_validates : Prop :=
  ∀ c1 b1 s1 v c2 b2 s2 heap,
    valid_configuration c1 b1 s1 v c2 b2 s2 = false →
    returned (setup_cache c1 b1 s1 v c2 b2 s2 heap) = None.

(** C3 fails: a two-way L1 of a single 16-byte block (associativity 2 over
    [16 / 16 = 1] block) is accepted, and both caches are constructed, L1
    with no set at all. *)
Lemma setup_accepts_invalid_configuration :
  valid_configuration 4 4 1 0 4 4 1 = false ∧
  (∃ h, setup_cache 4 4 1 0 4 4 1 sample_heap = Returns h ∧
        Cache.sets (L1 h) = []) ∧
  ¬ setup_validates.
Proof.
  split; [reflexivity |]. split; [by eexists |].
  intros Hv. by specialize (Hv 4 4 1 0 4 4 1 sample_heap eq_refl).
Qed.

(** With exponents that [uint64_t] holds, nothing but an exception of an
    allocation keeps [setup_cache] from returning. *)
Lemma setup_cache_returns c1 b1 s1 v c2 b2 s2 heap :
  c1 < 64 → b1 < 64 → s1 < 64 → c2 < 64 → b2 < 64 → s2 < 64 →
  setup_cache c1 b1 s1 v c2 b2 s2 heap ≠ Throws →
  ∃ h, setup_cache c1 b1 s1 v c2 b2 s2 heap = Returns h.
Proof.
  intros Hc1%N.ltb_lt Hb1%N.ltb_lt Hs1%N.ltb_lt Hc2%N.ltb_lt Hb2%N.ltb_lt
    Hs2%N.ltb_lt.
  rewrite setup_cache_outcome. unfold constructed.
  rewrite Hc1, Hb1, Hs1, Hc2, Hb2, Hs2. simpl.
  destruct (1 <=? heap); [| done].
  destruct (_ <=? heap); [| done].
  destruct (_ <=? heap); [| done].
  intros _. by eexists.
Qed.

(** C3, amended. [setup_cache] validates nothing, and the program has no
    error of its own to raise: for all exponents that a [uint64_t] can
    hold, valid configuration or not, unless an allocation of the
    constructors throws (for want of room in the free store, an exception
    that names no parameter), it returns, having constructed L2 and then
    L1 over it, each with [2^c / 2^b / 2^s] sets (none when [b + s > c]),
    L1 with a victim cache exactly when [v] is not zero. A cache without
    sets shows only at the first access, whose index is a division by
    zero. *)
Theorem setup_constructs c1 b1 s1 v c2 b2 s2 heap :
  c1 < 64 → b1 < 64 → s1 < 64 → c2 < 64 → b2 < 64 → s2 < 64 →
  setup_cache c1 b1 s1 v c2 b2 s2 heap ≠ Throws →
  ∃ h,
    setup_cache c1 b1 s1 v c2 b2 s2 heap = Returns h ∧
    shaped c1 b1 s1 v c2 b2 s2 h ∧
    (c1 < b1 + s1 →
     Cache.sets (L1 h) = [] ∧
     ∀ arg w, cache_access READ arg h w = None ∧
              cache_access WRITE arg h w = None).
Proof.
  intros Hc1 Hb1 Hs1 Hc2 Hb2 Hs2 Hthrows.
  destruct (setup_cache_returns c1 b1 s1 v c2 b2 s2 heap) as [h Hsetup];
    try done.
  exists h. split; [done |]. split; [by eapply setup_shaped |].
  intros Hlt. apply setup_cache_eq in Hsetup as (l1 & l2 & _ & H1 & ->).
  unfold constructed in H1. destruct (_ && _); [| done]. injection H1 as <-.
  assert (2 ^ c1 / 2 ^ b1 / 2 ^ s1 = 0) as Hz.
  { rewrite N.Div0.div_div, <- N.pow_add_r. apply N.div_small.
    apply N.pow_lt_mono_r; lia. }
  simpl. rewrite Hz. split; [done |]. intros arg w.
  unfold cache_access. simpl.
  rewrite read_unfold, write_unfold. unfold numberOfSets. simpl.
  rewrite Hz. simpl. by rewrite !orb_true_r.
Qed.

Lemma setup_constructs_witness :
  ∃ h,
    setup_cache 4 4 1 0 4 4 1 sample_heap = Returns h ∧
    shaped 4 4 1 0 4 4 1 h ∧
    (4 < 4 + 1 →
     Cache.sets (L1 h) = [] ∧
     ∀ arg w, cache_access READ arg h w = None ∧
              cache_access WRITE arg h w = None).
Proof.
  apply (setup_constructs 4 4 1 0 4 4 1 sample_heap);
    [lia | lia | lia | lia | lia | lia | vm_compute; discriminate].
Defined.

(** C4. When [accesses_l2] is zero, or, with a victim cache configured, when
    [accesses_vc] is zero, [complete_cache] returns: the rate whose
    denominator is zero ([mr2], or the miss rate of the victim cache) is an
    infinity or a NaN, and so is the [avg_access_time_l1] that is reported;
    both are NaN when the numerator of the rate is zero too, as it is for
    counters that were never incremented. *)
Theorem complete_cache_zero_denominator h st :
  (accesses_l2 st = 0 →
   non_finite (mr2 st) = true ∧
   non_finite (avg_access_time_l1 (complete_cache h st)) = true ∧
   (read_misses_l2 st = 0 → write_misses_l2 st = 0 →
    mr2 st = S754_nan ∧
    avg_access_time_l1 (complete_cache h st) = S754_nan)) ∧
  (v h ≠ 0 → accesses_vc st = 0 →
   non_finite (mrv st) = true ∧
   non_finite (avg_access_time_l1 (complete_cache h st)) = true ∧
   (victim_hits st = 0 →
    mrv st = S754_nan ∧
    avg_access_time_l1 (complete_cache h st) = S754_nan)).
Proof.
  unfold complete_cache. simpl. unfold aat1. split.
  - intros Hz.
    assert (non_finite (mr2 st) = true) as Hmr2
      by (unfold mr2; rewrite Hz, of_u64_zero; apply div_zero_non_finite).
    split_and!; [done | |].
    + apply add_non_finite_r, mul_non_finite_r. unfold mp1, aat2.
      destruct (v h =? 0).
      * by apply add_non_finite_r, mul_non_finite_l.
      * by apply mul_non_finite_r, add_non_finite_r, mul_non_finite_l.
    + intros Hr Hw.
      assert (mr2 st = S754_nan) as E
        by (unfold mr2; by rewrite Hz, Hr, Hw).
      split; [done |]. unfold mp1, aat2. rewrite E, mul_nan_l, add_nan_r.
      destruct (v h =? 0); by rewrite ?mul_nan_r, !add_nan_r.
  - intros Hv%N.eqb_neq Hz. unfold mp1. rewrite Hv.
    assert (non_finite (mrv st) = true) as Hmrv
      by (unfold mrv; rewrite Hz, of_u64_zero; apply div_zero_non_finite).
    split_and!; [done | |].
    + by apply add_non_finite_r, mul_non_finite_r, mul_non_finite_l.
    + intros Hh.
      assert (mrv st = S754_nan) as E by (unfold mrv; by rewrite Hz, Hh).
      split; [done |]. by rewrite E, mul_nan_l, mul_nan_r, add_nan_r.
Qed.

Lemma complete_cache_zero_denominator_witness :
  mr2 stats0 = S754_nan ∧
  avg_access_time_l1 (complete_cache sample_h stats0) = S754_nan.
Proof.
  destruct (complete_cache_zero_denominator sample_h stats0) as [Hl2 _].
  destruct (Hl2 eq_refl) as (_ & _ & Hnan).
  exact (Hnan eq_refl eq_refl).
Defined.

(** C5. A [read] and a [write] at any level work on the set whose index is
    [(address / block_size) mod number_of_sets], with
    [number_of_sets = capacity / block_size / associativity], and look there
    for the tag [(address / block_size) / number_of_sets]: every other set is
    left as it is; on a hit the block found under that tag moves to the front
    of that set (dirty after a [write]); on a miss the back block of that set
    leaves and a valid block with that tag and the address comes at the
    front (clean after a [read], dirty after a [write]). *)
Theorem address_decomposition {M : Type} `{Level M} (this : Cache.t M)
    (a : N) (w : world) (isWriteBack : bool) (c' : Cache.t M) (w' : world) :
  (Cache.read this a w = Some (c', w') →
   works_on this a c' (λ block, block) false) ∧
  (Cache.write this a w isWriteBack = Some (c', w') →
   works_on this a c' set_dirty true).
Proof. split; [apply read_works_on | apply write_works_on]. Qed.

Lemma address_decomposition_witness :
  works_on (L1 sample_h1) 16 (L1 sample_h2) set_dirty true.
Proof.
  apply (proj2 (address_decomposition (L1 sample_h1) 16
                  (upd incr_writes sample_w1) false (L1 sample_h2) sample_w2)).
  reflexivity.
Defined.

(** C6, as the specification states it: the access that follows the
    eviction of a block from L1 into the victim cache, to the address of
    that block, hits in the victim cache and leaves the access counter of
    L2 as it is. *)
Definition victim_hit_without_l2_access : Prop :=
  ∀ c1 b1 s1 v c2 b2 s2 heap events h0 w0 h w type1 a1 h1 w1 pre block post
    type2 h2 w2,
    setup_cache c1 b1 s1 v c2 b2 s2 heap = Returns h0 →
    run events h0 w0 = Some (h, w) →
    cache_access type1 a1 h w = Some (h1, w1) →
    trace w1 = trace w ++ pre ++ EvAbsorb CacheID.L1 block :: post →
    type2 = READ ∨ type2 = WRITE →
    cache_access type2 (address block) h1 w1 = Some (h2, w2) →
    victim_hits (p_stats w2) = u64_incr (victim_hits (p_stats w1)) ∧
    accesses_l2 (p_stats w2) = accesses_l2 (p_stats w1).

(** C6 fails on the sample run: the load of block 0 hits in the victim
    cache, and the block that it displaces from L1, block 1, is dirty and
    is written back to L2, whose access counter goes from 3 to 4. *)
Lemma victim_hit_with_l2_access :
  cache_access WRITE 16 sample_h1 sample_w1 = Some (sample_h2, sample_w2) ∧
  trace sample_w2
    = trace sample_w1
      ++ [EvWrite CacheID.L1 16 false; EvRead CacheID.L2 16;
          EvEvict CacheID.L2 Block_default;
          EvFill CacheID.L2 (mkBlock true false 0 16);
          EvEvict CacheID.L1 block0; EvWrite CacheID.L2 0 true]
      ++ EvAbsorb CacheID.L1 block0
         :: [EvVictimDrop Block_default;
             EvFill CacheID.L1 (mkBlock true true 1 16)] ∧
  cache_access READ 0 sample_h2 sample_w2 = Some (sample_h, sample_w) ∧
  victim_hits (p_stats sample_w2) = 0 ∧ victim_hits (p_stats sample_w) = 1 ∧
  accesses_l2 (p_stats sample_w2) = 3 ∧ accesses_l2 (p_stats sample_w) = 4 ∧
  ¬ victim_hit_without_l2_access.
Proof.
  split_and!; try reflexivity.
  intros Hc.
  destruct (Hc 4 4 0 2 6 4 0 sample_heap [(WRITE, 0)] sample_h0 world0
              sample_h1 sample_w1 WRITE 16 sample_h2 sample_w2
              [EvWrite CacheID.L1 16 false; EvRead CacheID.L2 16;
               EvEvict CacheID.L2 Block_default;
               EvFill CacheID.L2 (mkBlock true false 0 16);
               EvEvict CacheID.L1 block0; EvWrite CacheID.L2 0 true]
              block0
              [EvVictimDrop Block_default;
               EvFill CacheID.L1 (mkBlock true true 1 16)]
              READ sample_h sample_w eq_refl eq_refl eq_refl eq_refl
              (or_introl eq_refl) eq_refl) as [_ Hl2].
  discriminate Hl2.
Qed.

(** C6, amended. With a victim cache, after an access has evicted a block
    from L1 into the victim cache, the next access to an address of that
    memory block, load or store, returns, hits in the victim cache
    ([victim_hits] is one higher) and reads nothing from L2. It leaves L2 and
    its access counter as they are when the block [lru] at the back of the
    set of the address, which comes out of L1 in exchange, is clean; when
    [lru] is dirty, L2 receives the write-back of [lru], its only call, and
    its access counter is one higher. *)
Theorem victim_hit_after_eviction c1 b1 s1 v c2 b2 s2 heap events h0 w0 h w
    type1 a1 h1 w1 pre block post type2 a :
  setup_cache c1 b1 s1 v c2 b2 s2 heap = Returns h0 →
  run events h0 w0 = Some (h, w) →
  cache_access type1 a1 h w = Some (h1, w1) →
  trace w1 = trace w ++ pre ++ EvAbsorb CacheID.L1 block :: post →
  type2 = READ ∨ type2 = WRITE →
  a / 2 ^ b1 = address block / 2 ^ b1 →
  ∃ h2 w2 set lru evs,
    cache_access type2 a h1 w1 = Some (h2, w2) ∧
    Cache.sets (L1 h1) !! N.to_nat (spec_index (L1 h1) a) = Some set ∧
    list.last (blocks set) = Some lru ∧
    trace w2 = trace w1 ++ evs ∧
    victim_hits (p_stats w2) = u64_incr (victim_hits (p_stats w1)) ∧
    if dirty lru then
      accesses_l2 (p_stats w2) = u64_incr (accesses_l2 (p_stats w1)) ∧
      calls_to CacheID.L2 evs = 1%nat ∧
      EvWrite CacheID.L2 (address lru) true ∈ evs
    else
      accesses_l2 (p_stats w2) = accesses_l2 (p_stats w1) ∧
      calls_to CacheID.L2 evs = 0%nat ∧
      L2 h2 = L2 h1.
Proof.
  intros Hsetup Hrun Hacc Htr Htype Ha.
  pose proof (setup_shaped _ _ _ _ _ _ _ _ Hsetup) as Hs0.
  pose proof (run_shaped _ _ _ _ _ _ _ _ _ _ _ _ Hrun Hs0) as Hs.
  pose proof (cache_access_shaped _ _ _ _ _ _ _ _ _ _ _ _ _ Hacc Hs) as Hs1.
  pose proof (cache_access_inv _ _ _ _ _ _ Hacc
                (run_inv _ _ _ _ _ Hrun (setup_inv _ _ _ _ _ _ _ _ Hsetup)))
    as Hinv1.
  assert (occupied (L1 h) → 2 ^ c2 / 2 ^ b2 / 2 ^ s2 ≠ 0) as Hocc.
  { eapply run_occupied; [exact Hs0 | | exact Hrun].
    intros Ho. by apply setup_not_occupied in Hsetup. }
  assert (type1 = READ ∨ type1 = WRITE) as Htype1.
  { destruct (Ascii.eqb_spec type1 READ) as [-> | Hr]; [by left |].
    destruct (Ascii.eqb_spec type1 WRITE) as [-> | Hw]; [by right |].
    exfalso. unfold cache_access in Hacc.
    apply Ascii.eqb_neq in Hr, Hw. rewrite Hr, Hw in Hacc.
    injection Hacc as <- <-. apply (f_equal length) in Htr.
    rewrite !length_app in Htr. simpl in Htr. lia. }
  destruct (access_Some_sets _ _ _ _ _ _ _ _ _ _ _ _ _ Hs Hocc Htype1 Hacc)
    as [Hns1 Hns2].
  pose proof (shaped_ready _ _ _ _ _ _ _ _ Hs1 Hinv1 Hns1 Hns2) as Hready1.
  destruct (access_absorbed _ _ _ _ _ _ _ _ _ _ _ _ _ block Hs Hacc)
    as (vc & tl & Hvc & Hbl).
  { rewrite Htr, drop_app_length. apply elem_of_app. right.
    apply list_elem_of_here. }
  by eapply (access_victim_hit _ _ _ _ _ _ _ type2 a h1 w1 vc _ tl Hs1
               Hinv1 Hready1 Hvc Hbl).
Qed.

Lemma victim_hit_after_eviction_witness :
  ∃ h2 w2 set lru evs,
    cache_access READ 0 sample_h2 sample_w2 = Some (h2, w2) ∧
    Cache.sets (L1 sample_h2) !! N.to_nat (spec_index (L1 sample_h2) 0)
      = Some set ∧
    list.last (blocks set) = Some lru ∧
    trace w2 = trace sample_w2 ++ evs ∧
    victim_hits (p_stats w2) = u64_incr (victim_hits (p_stats sample_w2)) ∧
    if dirty lru then
      accesses_l2 (p_stats w2) = u64_incr (accesses_l2 (p_stats sample_w2)) ∧
      calls_to CacheID.L2 evs = 1%nat ∧
      EvWrite CacheID.L2 (address lru) true ∈ evs
    else
      accesses_l2 (p_stats w2) = accesses_l2 (p_stats sample_w2) ∧
      calls_to CacheID.L2 evs = 0%nat ∧
      L2 h2 = L2 sample_h2.
Proof.
  apply (victim_hit_after_eviction 4 4 0 2 6 4 0 sample_heap
           [(WRITE, 0)] sample_h0
           world0 sample_h1 sample_w1 WRITE 16 sample_h2 sample_w2
           [EvWrite CacheID.L1 16 false; EvRead CacheID.L2 16;
            EvEvict CacheID.L2 Block_default;
            EvFill CacheID.L2 (mkBlock true false 0 16);
            EvEvict CacheID.L1 block0; EvWrite CacheID.L2 0 true]
           block0
           [EvVictimDrop Block_default;
            EvFill CacheID.L1 (mkBlock true true 1 16)]
           READ 0);
    [reflexivity | reflexivity | reflexivity | reflexivity
    | left; reflexivity | reflexivity].
Defined.

(** C7. In every state that a sequence of accesses reaches after
    [setup_cache], at L1 and at L2: after [read(a)], a second [read(a)] is
    a hit, which counts the access and leaves every miss counter as it is,
    whenever the accesses that the level received in between touched fewer
    other memory blocks of the set of [a] than the associativity, the LRU
    window of [a]; with no access in between, always. *)
Theorem reread_within_lru_window c1 b1 s1 v c2 b2 s2 heap events h0 w0 h w :
  setup_cache c1 b1 s1 v c2 b2 s2 heap = Returns h0 →
  run events h0 w0 = Some (h, w) →
  (∀ a ops wa ca wb cb wc wd,
     Cache.read (L1 h) a wa = Some (ca, wb) →
     perform_all ca ops wb = Some (cb, wc) →
     (length (competitors (L1 h) a ops) < N.to_nat (2 ^ s1))%nat →
     ∃ cc we,
       Cache.read cb a wd = Some (cc, we) ∧
       p_stats we = incr_accesses (p_stats wd) ∧
       read_misses_l1 (p_stats we) = read_misses_l1 (p_stats wd)) ∧
  (∀ m a ops wa ca wb cb wc wd,
     L2 h = Some m →
     Cache.read m a wa = Some (ca, wb) →
     perform_all ca ops wb = Some (cb, wc) →
     (length (competitors m a ops) < N.to_nat (2 ^ s2))%nat →
     ∃ cc we,
       Cache.read cb a wd = Some (cc, we) ∧
       p_stats we = incr_accesses_l2 (p_stats wd) ∧
       read_misses_l2 (p_stats we) = read_misses_l2 (p_stats wd)).
Proof.
  intros Hsetup Hrun.
  pose proof (run_inv _ _ _ _ _ Hrun (setup_inv _ _ _ _ _ _ _ _ Hsetup))
    as [Hinv1 Hinv2].
  pose proof (run_shaped _ _ _ _ _ _ _ _ _ _ _ _ Hrun
                (setup_shaped _ _ _ _ _ _ _ _ Hsetup))
    as ((Hid1 & _ & _ & Ha1 & _) & _ & Hc2 & _).
  split.
  - intros a ops wa ca wb cb wc wd Hr Hops Hlen. rewrite <- Ha1 in Hlen.
    destruct (reread_hits _ _ _ _ _ _ _ _ wd Hinv1 Hr Hops Hlen) as [cc Hrr].
    rewrite Hid1 in Hrr. by eexists _, _.
  - unfold L2. intros m a ops wa ca wb cb wc wd Hm Hr Hops Hlen.
    rewrite Hm in Hinv2, Hc2. simpl in Hinv2, Hc2.
    destruct Hc2 as (Hid2 & _ & _ & Ha2 & _). rewrite <- Ha2 in Hlen.
    destruct (reread_hits _ _ _ _ _ _ _ _ wd Hinv2 Hr Hops Hlen) as [cc Hrr].
    rewrite Hid2 in Hrr. by eexists _, _.
Qed.

Lemma reread_within_lru_window_witness :
  ∃ cc we,
    Cache.read two_way_c2 0 two_way_w2 = Some (cc, we) ∧
    p_stats we = incr_accesses (p_stats two_way_w2) ∧
    read_misses_l1 (p_stats we) = read_misses_l1 (p_stats two_way_w2).
Proof.
  destruct (reread_within_lru_window 5 4 1 0 6 4 1 sample_heap [] two_way_h0
              world0 two_way_h0 world0 eq_refl eq_refl) as [Hl1 _].
  apply (Hl1 0 two_way_ops world0 two_way_c1 two_way_w1 two_way_c2
           two_way_w2 two_way_w2); [reflexivity | reflexivity |].
  vm_compute. lia.
Defined.

(** C8. For every set of both caches, after any sequence of accesses that
    follows [setup_cache], the list of blocks of the set has exactly as many
    elements as the configured associativity, [2^s1] in L1 and [2^s2] in
    L2. *)
Theorem set_length_is_associativity c1 b1 s1 v c2 b2 s2 heap events h0 w0 h w :
  setup_cache c1 b1 s1 v c2 b2 s2 heap = Returns h0 →
  run events h0 w0 = Some (h, w) →
  (∀ s, s ∈ Cache.sets (L1 h) → length (blocks s) = N.to_nat (2 ^ s1)) ∧
  (∀ m s, L2 h = Some m → s ∈ Cache.sets m →
          length (blocks s) = N.to_nat (2 ^ s2)).
Proof.
  intros Hsetup Hrun.
  pose proof (run_inv _ _ _ _ _ Hrun (setup_inv _ _ _ _ _ _ _ _ Hsetup))
    as [[Hs1 _] H2].
  pose proof (run_shaped _ _ _ _ _ _ _ _ _ _ _ _ Hrun
                (setup_shaped _ _ _ _ _ _ _ _ Hsetup))
    as ((_ & _ & _ & Ha1 & _) & _ & Hc2 & _).
  split.
  - intros s [i Hi]%list_elem_of_lookup_1.
    destruct (Hs1 _ _ Hi) as [Hlen _]. by rewrite Hlen, Ha1.
  - unfold L2. intros m s Hm [i Hi]%list_elem_of_lookup_1.
    rewrite Hm in H2, Hc2. simpl in H2, Hc2.
    destruct H2 as [Hs2 _]. destruct Hc2 as (_ & _ & _ & Ha2 & _).
    destruct (Hs2 _ _ Hi) as [Hlen _]. by rewrite Hlen, Ha2.
Qed.

Lemma set_length_is_associativity_witness :
  (∀ s, s ∈ Cache.sets (L1 sample_h) → length (blocks s) = N.to_nat (2 ^ 0)) ∧
  (∀ m s, L2 sample_h = Some m → s ∈ Cache.sets m →
          length (blocks s) = N.to_nat (2 ^ 0)).
Proof.
  apply (set_length_is_associativity 4 4 0 2 6 4 0 sample_heap
           sample_events sample_h0
           world0 sample_h sample_w); reflexivity.
Defined.

(** C9. After any sequence of accesses that follows [setup_cache], every set
    of both caches holds at most one valid block for each tag, and so does
    the victim cache; hence the [remove] of a hit, in a set or in the victim
    cache, erases exactly one element. *)
Theorem one_valid_block_per_tag c1 b1 s1 v c2 b2 s2 heap events h0 w0 h w :
  setup_cache c1 b1 s1 v c2 b2 s2 heap = Returns h0 →
  run events h0 w0 = Some (h, w) →
  (∀ s t, s ∈ Cache.sets (L1 h) → (occurrences t (blocks s) ≤ 1)%nat) ∧
  (∀ m s t, L2 h = Some m → s ∈ Cache.sets m →
            (occurrences t (blocks s) ≤ 1)%nat) ∧
  (∀ vc t, Cache.victimCache (L1 h) = Some vc →
           (occurrences t (VictimCache.blocks vc) ≤ 1)%nat) ∧
  (∀ s t block, s ∈ Cache.sets (L1 h) → scan t (blocks s) = Some block →
                S (length (remove block (blocks s))) = length (blocks s)) ∧
  (∀ m s t block, L2 h = Some m → s ∈ Cache.sets m →
                  scan t (blocks s) = Some block →
                  S (length (remove block (blocks s))) = length (blocks s)) ∧
  (∀ vc t block, Cache.victimCache (L1 h) = Some vc →
                 scan t (VictimCache.blocks vc) = Some block →
                 S (length (remove block (VictimCache.blocks vc)))
                   = length (VictimCache.blocks vc)).
Proof.
  intros Hsetup Hrun.
  pose proof (run_inv _ _ _ _ _ Hrun (setup_inv _ _ _ _ _ _ _ _ Hsetup))
    as [[Hs1 Hvc] H2].
  assert (∀ s, s ∈ Cache.sets (L1 h) → unique (blocks s)) as U1.
  { intros s [i Hi]%list_elem_of_lookup_1. by destruct (Hs1 _ _ Hi) as (_ & ? & _). }
  assert (∀ m s, L2 h = Some m → s ∈ Cache.sets m → unique (blocks s)) as U2.
  { unfold L2. intros m s Hm [i Hi]%list_elem_of_lookup_1.
    rewrite Hm in H2. destruct H2 as [Hs2 _].
    by destruct (Hs2 _ _ Hi) as (_ & ? & _). }
  assert (∀ vc, Cache.victimCache (L1 h) = Some vc →
                unique (VictimCache.blocks vc)) as U3.
  { intros vc Hv. by destruct (Hvc _ Hv) as (_ & _ & ? & _). }
  split_and!.
  - intros s t Hs. by apply U1.
  - intros m s t Hm Hs. by eapply U2.
  - intros vc t Hv. by apply U3.
  - intros s t block Hs. apply length_remove_unique. by apply U1.
  - intros m s t block Hm Hs. apply length_remove_unique. by eapply U2.
  - intros vc t block Hv. apply length_remove_unique. by apply U3.
Qed.

Lemma one_valid_block_per_tag_witness :
  (∀ s t, s ∈ Cache.sets (L1 sample_h) →
          (occurrences t (blocks s) ≤ 1)%nat) ∧
  (∀ m s t, L2 sample_h = Some m → s ∈ Cache.sets m →
            (occurrences t (blocks s) ≤ 1)%nat) ∧
  (∀ vc t, Cache.victimCache (L1 sample_h) = Some vc →
           (occurrences t (VictimCache.blocks vc) ≤ 1)%nat) ∧
  (∀ s t block, s ∈ Cache.sets (L1 sample_h) →
                scan t (blocks s) = Some block →
                S (length (remove block (blocks s))) = length (blocks s)) ∧
  (∀ m s t block, L2 sample_h = Some m → s ∈ Cache.sets m →
                  scan t (blocks s) = Some block →
                  S (length (remove block (blocks s))) = length (blocks s)) ∧
  (∀ vc t block, Cache.victimCache (L1 sample_h) = Some vc →
                 scan t (VictimCache.blocks vc) = Some block →
                 S (length (remove block (VictimCache.blocks vc)))
                   = length (VictimCache.blocks vc)).
Proof.
  apply (one_valid_block_per_tag 4 4 0 2 6 4 0 sample_heap
           sample_events sample_h0
           world0 sample_h sample_w); reflexivity.
Defined.

(** C10. With a victim cache of [v > 0] blocks, after [setup_cache] and
    between any two accesses the list of entries of the victim cache has
    exactly [v] elements; a probe that hits leaves [v - 1] of them, and the
    [insert] or [insertInvalid] that handles the evicted block in the same
    miss brings the list back to [v]. *)
Theorem victim_cache_length c1 b1 s1 v c2 b2 s2 heap events h0 w0 h w :
  v ≠ 0 →
  setup_cache c1 b1 s1 v c2 b2 s2 heap = Returns h0 →
  run events h0 w0 = Some (h, w) →
  ∃ vc,
    Cache.victimCache (L1 h) = Some vc ∧
    length (VictimCache.blocks vc) = N.to_nat v ∧
    ∀ a w1 vc1 w2,
      VictimCache.read vc a w1 = Some (true, vc1, w2) →
      S (length (VictimCache.blocks vc1)) = N.to_nat v ∧
      ∀ id block w3 vc2 w4,
        Cache.absorb id vc1 block w3 = Some (vc2, w4) →
        length (VictimCache.blocks vc2) = N.to_nat v.
Proof.
  intros Hv Hsetup Hrun.
  pose proof (run_inv _ _ _ _ _ Hrun (setup_inv _ _ _ _ _ _ _ _ Hsetup))
    as [[_ Hvc] _].
  pose proof (run_shaped _ _ _ _ _ _ _ _ _ _ _ _ Hrun
                (setup_shaped _ _ _ _ _ _ _ _ Hsetup))
    as ((_ & _ & _ & _ & _ & Hc) & _).
  destruct (Cache.victimCache (L1 h)) as [vc|]; [| done].
  destruct Hc as (_ & Hn & _). exists vc. split; [done |].
  destruct (Hvc vc eq_refl) as (_ & Hlen & Hent). rewrite Hn in Hlen.
  split; [done |]. intros a w1 vc1 w2 Hr.
  pose proof (entries_ok_probe _ _ _ _ _ _ _ _ Hent Hr) as (_ & _ & Hl).
  apply vc_read_inv in Hr as (_ & Hn1 & _).
  split; [lia |]. intros id block w3 vc2 w4. unfold Cache.absorb.
  destruct (valid block).
  - intros (_ & _ & _ & _ & rest & -> & Hcase)%vc_insert_inv.
    destruct (N.eqb_spec (N.of_nat (length (VictimCache.blocks vc1)))
                (VictimCache.numberOfBlocks vc1)); [lia |].
    destruct Hcase as [-> _]. simpl. lia.
  - intros [= <- <-]. unfold VictimCache.insertInvalid.
    destruct (N.eqb_spec (N.of_nat (length (VictimCache.blocks vc1)))
                (VictimCache.numberOfBlocks vc1)); [lia |].
    simpl. rewrite length_app. simpl. lia.
Qed.

Lemma victim_cache_length_witness :
  ∃ vc,
    Cache.victimCache (L1 sample_h) = Some vc ∧
    length (VictimCache.blocks vc) = N.to_nat 2 ∧
    ∀ a w1 vc1 w2,
      VictimCache.read vc a w1 = Some (true, vc1, w2) →
      S (length (VictimCache.blocks vc1)) = N.to_nat 2 ∧
      ∀ id block w3 vc2 w4,
        Cache.absorb id vc1 block w3 = Some (vc2, w4) →
        length (VictimCache.blocks vc2) = N.to_nat 2.
Proof.
  apply (victim_cache_length 4 4 0 2 6 4 0 sample_heap sample_events sample_h0
           world0 sample_h sample_w); [lia | reflexivity | reflexivity].
Defined.

(** * Further properties of the simulator *)

(** ** The counters without wrap-around

    How many times each counter of [cache_stats_t] was incremented. *)
Record tally : Type := mk_tally {
  n_accesses : nat;
  n_accesses_l2 : nat;
  n_accesses_vc : nat;
  n_reads : nat;
  n_writes : nat;
  n_read_misses_l1 : nat;
  n_read_misses_l2 : nat;
  n_write_misses_l1 : nat;
  n_write_misses_l2 : nat;
  n_write_back_l1 : nat;
  n_write_back_l2 : nat;
  n_victim_hits : nat
}.

(** [k] times [x++]. *)
Definition incr_times (k : nat) (x : N) : N := Nat.iter k u64_incr x.

(** The statistics after the increments that [d] counts. *)
Definition bump (d : tally) (st : cache_stats_t) : cache_stats_t :=
  mk_stats
    (incr_times (n_accesses d) (accesses st))
    (incr_times (n_accesses_l2 d) (accesses_l2 st))
    (incr_times (n_accesses_vc d) (accesses_vc st))
    (incr_times (n_reads d) (reads st))
    (incr_times (n_writes d) (writes st))
    (incr_times (n_read_misses_l1 d) (read_misses_l1 st))
    (incr_times (n_read_misses_l2 d) (read_misses_l2 st))
    (incr_times (n_write_misses_l1 d) (write_misses_l1 st))
    (incr_times (n_write_misses_l2 d) (write_misses_l2 st))
    (incr_times (n_write_back_l1 d) (write_back_l1 st))
    (incr_times (n_write_back_l2 d) (write_back_l2 st))
    (incr_times (n_victim_hits d) (victim_hits st))
    (avg_access_time_l1 st).

Definition tally_add (d e : tally) : tally :=
  mk_tally
    (n_accesses d + n_accesses e) (n_accesses_l2 d + n_accesses_l2 e)
    (n_accesses_vc d + n_accesses_vc e) (n_reads d + n_reads e)
    (n_writes d + n_writes e) (n_read_misses_l1 d + n_read_misses_l1 e)
    (n_read_misses_l2 d + n_read_misses_l2 e)
    (n_write_misses_l1 d + n_write_misses_l1 e)
    (n_write_misses_l2 d + n_write_misses_l2 e)
    (n_write_back_l1 d + n_write_back_l1 e)
    (n_write_back_l2 d + n_write_back_l2 e)
    (n_victim_hits d + n_victim_hits e).

Definition tally0 : tally := mk_tally 0 0 0 0 0 0 0 0 0 0 0 0.

Lemma incr_times_add k l x :
  incr_times l (incr_times k x) = incr_times (k + l) x.
Proof. unfold incr_times. by rewrite Nat.add_comm, Nat.iter_add. Qed.

Lemma bump_add d e st : bump e (bump d st) = bump (tally_add d e) st.
Proof. unfold bump, tally_add. simpl. by rewrite !incr_times_add. Qed.

Lemma bump0 st : bump tally0 st = st.
Proof. by destruct st. Qed.

(** Modulo [2^64], [k] increments add [k]. *)
Lemma incr_times_mod k x :
  incr_times k x mod 2 ^ 64 = (x + N.of_nat k) mod 2 ^ 64.
Proof.
  induction k as [|k IH].
  - simpl. by rewrite N.add_0_r.
  - unfold incr_times in *. simpl. unfold u64_incr at 1.
    rewrite N.Div0.mod_mod, <- N.Div0.add_mod_idemp_l, IH,
      N.Div0.add_mod_idemp_l.
    f_equal. lia.
Qed.

(** From zero, fewer than [2^64] increments do not wrap. *)
Lemma incr_times_zero k :
  N.of_nat k < 2 ^ 64 → incr_times k 0 = N.of_nat k.
Proof.
  intros Hk. destruct k as [|k]; [done |].
  unfold incr_times. simpl. fold (incr_times k 0). unfold u64_incr.
  rewrite <- N.Div0.add_mod_idemp_l, incr_times_mod, N.Div0.add_mod_idemp_l.
  rewrite N.mod_small; lia.
Qed.

(** ** The increments of an access *)

(** The increments of one call of [read] ([is_read]) or [write] on a level
    with the identity [L2], without victim cache and without a level below:
    the access, the miss if it misses, the write-back if the miss evicts a
    dirty block. *)
Definition l2_tally (is_read miss wb : bool) : tally :=
  mk_tally 0 1 0 0 0 0
    (if is_read && miss then 1 else 0) 0
    (if negb is_read && miss then 1 else 0) 0
    (if miss && wb then 1 else 0) 0.

(** The increments of the miss path of L1: the probe of the victim cache if
    there is one ([vc]), which hits or not ([hit]); the [read] of L2 unless
    the probe hit; the write-back of the evicted block if it is dirty
    ([dirt]) and the [write] of L2 that carries it. *)
Definition miss_tally (vc hit dirt rm rwb wm wwb : bool) : tally :=
  tally_add
    (mk_tally 0 0 (if vc then 1 else 0) 0 0 0 0 0 0 0 0
       (if vc && hit then 1 else 0))
    (tally_add
       (if hit then tally0 else l2_tally true rm rwb)
       (if dirt
        then tally_add (mk_tally 0 0 0 0 0 0 0 0 0 1 0 0) (l2_tally false wm wwb)
        else tally0)).

(** The increments of one [cache_access]: [reads] or [writes], [accesses],
    and on a miss the miss counter of L1 and the miss path. *)
Definition access_tally (is_read : bool) (miss : option tally) : tally :=
  tally_add
    (mk_tally 1 0 0 (if is_read then 1 else 0) (if is_read then 0 else 1)
       0 0 0 0 0 0 0)
    (match miss with
     | Some d =>
         tally_add
           (mk_tally 0 0 0 0 0 (if is_read then 1 else 0) 0
              (if is_read then 0 else 1) 0 0 0 0)
           d
     | None => tally0
     end).

(** A line that a miss of the level [id] pushed: clean for a miss of
    [read], dirty for a miss of [write]. *)
Definition is_miss_of (id : CacheID.t) (is_write : bool) (e : event) : bool :=
  match e with
  | EvFill id' line => CacheID.eqb id' id && Bool.eqb (dirty line) is_write
  | _ => false
  end.

(** The increments [d] are those that the events [evs] account for: one
    access for each call that a level receives, one miss for each line that
    it brings in, one write-back for each dirty block that it evicts. *)
Definition counted (d : tally) (evs : list event) : Prop :=
  n_accesses d = calls_to CacheID.L1 evs ∧
  n_accesses_l2 d = calls_to CacheID.L2 evs ∧
  n_read_misses_l1 d = count (is_miss_of CacheID.L1 false) evs ∧
  n_read_misses_l2 d = count (is_miss_of CacheID.L2 false) evs ∧
  n_write_misses_l1 d = count (is_miss_of CacheID.L1 true) evs ∧
  n_write_misses_l2 d = count (is_miss_of CacheID.L2 true) evs ∧
  n_write_back_l1 d = dirty_evictions CacheID.L1 evs ∧
  n_write_back_l2 d = dirty_evictions CacheID.L2 evs.

Lemma counted_add d e evs evs' :
  counted d evs → counted e evs' → counted (tally_add d e) (evs ++ evs').
Proof.
  unfold counted, calls_to, dirty_evictions, tally_add. simpl.
  rewrite !count_app. lia.
Qed.

Lemma counted_nil : counted tally0 [].
Proof. by unfold counted. Qed.

(** The miss counter that goes with the line of a miss. *)
Definition line_tally (is_write : bool) : tally :=
  mk_tally 0 0 0 0 0 (if is_write then 0 else 1) 0 (if is_write then 1 else 0)
    0 0 0 0.

Section TerminalStats.

Context {M : Type} `{Level M}.

Implicit Types (this : Cache.t M).

Lemma terminal_miss_counted this a index l line w c' w' :
  Cache.cacheID this = CacheID.L2 →
  Cache.victimCache this = None → Cache.memory this = None →
  Cache.miss this a index l line w = Some (c', w') →
  ∃ (wb : bool) evs,
    trace w' = trace w ++ evs ∧
    counted (mk_tally 0 0 0 0 0 0 (if dirty line then 0 else 1) 0
               (if dirty line then 1 else 0) 0 (if wb then 1 else 0) 0)
      evs ∧
    p_stats w' = bump (mk_tally 0 0 0 0 0 0 0 0 0 0 (if wb then 1 else 0) 0)
                   (p_stats w).
Proof.
  intros Hid Hvc Hm (_ & _ & block & Htr & Hst)%terminal_miss; [| done | done].
  rewrite Hid in *. exists (dirty block). eexists. split; [exact Htr |].
  rewrite Hst. unfold counted, calls_to, dirty_evictions.
  rewrite !count_cons. simpl.
  destruct (dirty block), (dirty line); simpl; split_and!; try done;
    by destruct (p_stats w).
Qed.

Lemma terminal_read_stats this a w c' w' :
  Cache.cacheID this = CacheID.L2 →
  Cache.victimCache this = None → Cache.memory this = None →
  Cache.read this a w = Some (c', w') →
  ∃ miss wb evs,
    trace w' = trace w ++ evs ∧
    counted (l2_tally true miss wb) evs ∧
    p_stats w' = bump (l2_tally true miss wb) (p_stats w).
Proof.
  intros Hid Hvc Hm. rewrite read_unfold. cbv zeta. destruct (_ || _); [done |].
  destruct (Cache.sets this !! _) as [s|]; [| done].
  destruct (scan _ _).
  - intros [= <- <-]. exists false, false, [EvRead CacheID.L2 a].
    rewrite Hid. simpl. split_and!; [done | done |].
    by destruct (p_stats w).
  - intros (wb & evs & Htr & Hc & Hst)%terminal_miss_counted;
      [| done | done | done].
    exists true, wb, (EvRead CacheID.L2 a :: evs). rewrite Hid in *.
    split_and!.
    + rewrite Htr. simpl. by rewrite <- app_assoc.
    + apply (counted_add (mk_tally 0 1 0 0 0 0 0 0 0 0 0 0) _
               [EvRead CacheID.L2 a]) in Hc; [| done].
      simpl in Hc. by destruct wb.
    + rewrite Hst. simpl. destruct wb; by destruct (p_stats w).
Qed.

Lemma terminal_write_stats this a w isWriteBack c' w' :
  Cache.cacheID this = CacheID.L2 →
  Cache.victimCache this = None → Cache.memory this = None →
  Cache.write this a w isWriteBack = Some (c', w') →
  ∃ miss wb evs,
    trace w' = trace w ++ evs ∧
    counted (l2_tally false miss wb) evs ∧
    p_stats w' = bump (l2_tally false miss wb) (p_stats w).
Proof.
  intros Hid Hvc Hm. rewrite write_unfold. cbv zeta.
  destruct (_ || _); [done |].
  destruct (Cache.sets this !! _) as [s|]; [| done].
  destruct (scan _ _).
  - intros [= <- <-]. exists false, false, [EvWrite CacheID.L2 a isWriteBack].
    rewrite Hid. simpl. split_and!; [done | done |].
    by destruct (p_stats w).
  - intros (wb & evs & Htr & Hc & Hst)%terminal_miss_counted;
      [| done | done | done].
    exists true, wb, (EvWrite CacheID.L2 a isWriteBack :: evs).
    rewrite Hid in *. split_and!.
    + rewrite Htr. simpl. by rewrite <- app_assoc.
    + apply (counted_add (mk_tally 0 1 0 0 0 0 0 0 0 0 0 0) _
               [EvWrite CacheID.L2 a isWriteBack]) in Hc; [| done].
      simpl in Hc. by destruct wb.
    + rewrite Hst. simpl. destruct wb; by destruct (p_stats w).
Qed.

End TerminalStats.

Section LinkedStats.

Implicit Types (this : Cache.t (Cache.t Empty_set)) (m : Cache.t Empty_set).

Lemma linked_miss_stats this a index l line w c' w' :
  linked this →
  Cache.miss this a index l line w = Some (c', w') →
  ∃ hit dirt rm rwb wm wwb evs,
    (Cache.victimCache this = None → hit = false) ∧
    (hit = true → occupied this) ∧
    trace w' = trace w ++ evs ∧
    counted
      (tally_add (line_tally (dirty line))
         (miss_tally (bool_decide (is_Some (Cache.victimCache this)))
            hit dirt rm rwb wm wwb))
      evs ∧
    p_stats w'
      = bump (miss_tally (bool_decide (is_Some (Cache.victimCache this)))
                hit dirt rm rwb wm wwb)
          (p_stats w).
Proof.
  intros (Hid & m & Hmem & Hidm & Hvcm)
    (hit & ovc1 & wp & mem1 & wf & block & rest & mem2 & wb & ovc2 & wa
     & Hprobe & Hfetch & _ & Hwb & Habs & -> & ->)%miss_inv.
  (* the probe *)
  assert (trace wp = trace w ∧
          p_stats wp
          = bump (mk_tally 0 0
                    (if bool_decide (is_Some (Cache.victimCache this))
                     then 1 else 0) 0 0 0 0 0 0 0 0
                    (if bool_decide (is_Some (Cache.victimCache this)) && hit
                     then 1 else 0))
              (p_stats w)) as [Htp Hp].
  { destruct (Cache.victimCache this).
    - destruct Hprobe as (vc1 & (_ & _ & _ & Htr & Hhit)%vc_read_inv & _).
      split; [done |]. rewrite bool_decide_true by eauto.
      destruct hit.
      + destruct Hhit as (? & _ & _ & ->). by destruct (p_stats w).
      + destruct Hhit as (_ & _ & ->). by destruct (p_stats w).
    - destruct Hprobe as (-> & _ & ->). split; [done |].
      rewrite bool_decide_false by (by intros [? [=]]).
      by destruct (p_stats w). }
  (* the fetch *)
  assert (∃ m1 rm rwb evs,
    mem1 = Some m1 ∧ Cache.cacheID m1 = CacheID.L2 ∧
    Cache.victimCache m1 = None ∧
    trace wf = trace wp ++ evs ∧
    counted (if hit then tally0 else l2_tally true rm rwb) evs ∧
    p_stats wf
      = bump (if hit then tally0 else l2_tally true rm rwb) (p_stats wp))
    as (m1 & rm & rwb & fetch_evs & -> & Hid1 & Hvc1 & Htf & Hcf & Hf).
  { destruct hit.
    - destruct Hfetch as [-> ->]. exists m, false, false, [].
      rewrite bump0, app_nil_r. by split_and!.
    - apply fetch_inv in Hfetch. rewrite Hmem in Hfetch.
      destruct Hfetch as (m1 & Hr & ->).
      pose proof (read_config _ _ _ _ _ Hr) as (Hid1 & _ & _ & _ & _ & Hv1).
      pose proof (terminal_read_stats _ _ _ _ _ Hidm Hvcm (empty_memory m) Hr)
        as (rm & rwb & evs & Htr & Hc & Hst).
      exists m1, rm, rwb, evs. split_and!; try done; [congruence |].
      rewrite Hvcm in Hv1. by destruct (Cache.victimCache m1). }
  (* the write-back *)
  apply writeback_inv in Hwb.
  assert (∃ wm wwb evs,
    trace wb = trace wf ++ evs ∧
    counted (if dirty block
             then tally_add (mk_tally 0 0 0 0 0 0 0 0 0 1 0 0)
                    (l2_tally false wm wwb)
             else tally0) evs ∧
    p_stats wb
      = bump (if dirty block
              then tally_add (mk_tally 0 0 0 0 0 0 0 0 0 1 0 0)
                     (l2_tally false wm wwb)
              else tally0)
          (p_stats wf)) as (wm & wwb & wb_evs & Htw & Hcw & Hw).
  { destruct (dirty block) eqn:Hd.
    - destruct Hwb as (m2 & Hwr & ->).
      pose proof (terminal_write_stats _ _ _ _ _ _ Hid1 Hvc1 (empty_memory m1)
                    Hwr) as (wm & wwb & evs & Htr & Hc & Hst).
      exists wm, wwb, (EvEvict CacheID.L1 block :: evs). split_and!.
      + rewrite Htr, Hid. simpl. by rewrite <- app_assoc.
      + apply (counted_add (mk_tally 0 0 0 0 0 0 0 0 0 1 0 0) _
                 [EvEvict CacheID.L1 block]); [| done].
        unfold counted, calls_to, dirty_evictions. rewrite !count_cons.
        simpl. by rewrite Hd.
      + rewrite Hst, <- bump_add. f_equal.
        rewrite Hid. simpl. by destruct (p_stats wf).
    - destruct Hwb as [_ ->]. exists false, false, [EvEvict CacheID.L1 block].
      rewrite bump0, Hid. split_and!; try done.
      unfold counted, calls_to, dirty_evictions. rewrite !count_cons.
      simpl. by rewrite Hd. }
  (* the victim cache *)
  assert (∃ evs, trace wa = trace wb ++ evs ∧ counted tally0 evs ∧
                 p_stats wa = p_stats wb) as (vc_evs & Hta & Hca & Ha).
  { destruct ovc1.
    - destruct Habs as (vc2 & [Hst Hab]%absorb_inv & _).
      destruct (valid block).
      + destruct Hab as (tl & dropped & _ & Htr & Hdrop).
        eexists. split; [exact Htr |]. split; [| done].
        by destruct Hdrop as [-> | [y ->]].
      + exists []. rewrite app_nil_r. by split_and!.
    - destruct Habs as [_ ->]. exists []. rewrite app_nil_r. by split_and!. }
  exists hit, (dirty block), rm, rwb, wm, wwb,
    (fetch_evs ++ wb_evs ++ vc_evs ++ [EvFill CacheID.L1 line]).
  split.
  { intros Hnone. rewrite Hnone in Hprobe. by destruct Hprobe. }
  split.
  { intros ->. right. destruct (Cache.victimCache this) as [vc|];
      [| by destruct Hprobe].
    destruct Hprobe as (vc1 & (_ & _ & _ & _ & e & Hs & _)%vc_read_inv & _).
    destruct (scan_Some _ _ _ Hs) as (? & _ & ?). by exists vc, e. }
  split.
  { simpl. rewrite Hta, Htw, Htf, Htp, Hid. by rewrite <- !app_assoc. }
  split.
  { assert (counted (line_tally (dirty line)) [EvFill CacheID.L1 line]) as Hcl.
    { unfold counted, calls_to, dirty_evictions. rewrite !count_cons. simpl.
      by destruct (dirty line). }
    pose proof (counted_add _ _ _ _ Hcf
                  (counted_add _ _ _ _ Hcw (counted_add _ _ _ _ Hca Hcl)))
      as Hc.
    revert Hc. unfold counted, miss_tally, tally_add. simpl. lia. }
  simpl. rewrite Ha, Hw, Hf, Hp. unfold miss_tally. by rewrite !bump_add.
Qed.

(** What holds of the increments of any number of accesses: every access is
    a read or a write; a miss of L1 is a miss of a read or of a write; the
    victim cache, if there is one, is probed once for each miss of L1 and
    hits at most as often; a miss writes back at most one block; L2 is
    called once for each miss that the victim cache did not serve and once
    for each write-back; L2 misses at most as many reads and as many writes
    as it receives, and writes back at most one block for each of its
    misses. *)
Definition fair (vc : bool) (d : tally) : Prop :=
  (n_accesses d = n_reads d + n_writes d ∧
   n_read_misses_l1 d ≤ n_reads d ∧
   n_write_misses_l1 d ≤ n_writes d ∧
   n_accesses_vc d
     = (if vc then n_read_misses_l1 d + n_write_misses_l1 d else 0) ∧
   n_victim_hits d ≤ n_accesses_vc d ∧
   n_write_back_l1 d ≤ n_read_misses_l1 d + n_write_misses_l1 d ∧
   n_accesses_l2 d + n_victim_hits d
     = n_read_misses_l1 d + n_write_misses_l1 d + n_write_back_l1 d ∧
   n_read_misses_l2 d + n_victim_hits d
     ≤ n_read_misses_l1 d + n_write_misses_l1 d ∧
   n_write_misses_l2 d ≤ n_write_back_l1 d ∧
   n_write_back_l2 d ≤ n_read_misses_l2 d + n_write_misses_l2 d)%nat.

Lemma fair_add vc d e : fair vc d → fair vc e → fair vc (tally_add d e).
Proof. unfold fair, tally_add. simpl. destruct vc; lia. Qed.

Lemma fair0 vc : fair vc tally0.
Proof. unfold fair. simpl. destruct vc; lia. Qed.

Lemma fair_access vc is_read hit dirt rm rwb wm wwb (miss : bool) :
  (vc = false → hit = false) →
  fair vc
    (access_tally is_read
       (if miss then Some (miss_tally vc hit dirt rm rwb wm wwb) else None)).
Proof.
  intros Hh. unfold fair.
  destruct miss, vc, hit, is_read, dirt, rm, rwb, wm, wwb; simpl;
    try (by specialize (Hh eq_refl)); lia.
Qed.

(** The event types that [cache_access] acts on. *)
Definition is_access (type : ascii) : bool :=
  Ascii.eqb type READ || Ascii.eqb type WRITE.

(** The events of a trace file that are accesses. *)
Definition accesses_of (events : list (ascii * N)) : nat :=
  length (List.filter (λ e, is_access e.1) events).

(** One [cache_access]: the increments [d] of the counters, the events
    [evs] that account for them, and what holds of [d]. *)
Definition accounted (vc : bool) (w w' : world) (d : tally) : Prop :=
  p_stats w' = bump d (p_stats w) ∧
  fair vc d ∧
  ∃ evs, trace w' = trace w ++ evs ∧ counted d evs.

Lemma accounted_refl vc w : accounted vc w w tally0.
Proof.
  split_and!; [by rewrite bump0 | apply fair0 |].
  exists []. rewrite app_nil_r. split; [done | apply counted_nil].
Qed.

Lemma accounted_trans vc w1 w2 w3 d e :
  accounted vc w1 w2 d → accounted vc w2 w3 e →
  accounted vc w1 w3 (tally_add d e).
Proof.
  intros (Hd & Hfd & evs & Ht & Hc) (He & Hfe & evs' & Ht' & Hc').
  split_and!.
  - by rewrite He, Hd, bump_add.
  - by apply fair_add.
  - exists (evs ++ evs'). split; [by rewrite Ht', Ht, <- app_assoc |].
    by apply counted_add.
Qed.

Lemma cache_access_stats type arg h w h' w' :
  linked (L1 h) →
  cache_access type arg h w = Some (h', w') →
  ∃ d,
    accounted (bool_decide (is_Some (Cache.victimCache (L1 h)))) w w' d ∧
    n_accesses d = (if is_access type then 1 else 0)%nat ∧
    (¬ occupied (L1 h) → is_access type = true → (1 ≤ n_accesses_l2 d)%nat).
Proof.
  intros Hl. unfold cache_access, is_access.
  assert (∀ (is_read : bool) entry index l line w0 c,
    dirty line = negb is_read →
    counted (mk_tally 1 0 0 0 0 0 0 0 0 0 0 0) [entry] →
    trace w0 = trace w ++ [entry] →
    p_stats w0
      = bump (tally_add
                (mk_tally 1 0 0 (if is_read then 1 else 0)
                   (if is_read then 0 else 1) 0 0 0 0 0 0 0)
                (mk_tally 0 0 0 0 0 (if is_read then 1 else 0) 0
                   (if is_read then 0 else 1) 0 0 0 0))
          (p_stats w) →
    Cache.miss (L1 h) arg index l line w0 = Some (c, w') →
    ∃ d,
      accounted (bool_decide (is_Some (Cache.victimCache (L1 h)))) w w' d ∧
      n_accesses d = 1%nat ∧
      (¬ occupied (L1 h) → (1 ≤ n_accesses_l2 d)%nat)) as Hmiss.
  { intros is_read entry index l line w0 c Hline Hentry Htr0 Hst
      (hit & dirt & rm & rwb & wm & wwb & evs & Hh & Hocc & Htr & Hc & Hm)
      %linked_miss_stats; [| done].
    exists (access_tally is_read
              (Some (miss_tally
                       (bool_decide (is_Some (Cache.victimCache (L1 h))))
                       hit dirt rm rwb wm wwb))).
    split; [split_and! | split].
    - rewrite Hm, Hst, bump_add. unfold access_tally.
      f_equal. unfold tally_add. simpl. f_equal; lia.
    - apply (fair_access _ is_read hit dirt rm rwb wm wwb true).
      intros Hvc%bool_decide_eq_false. apply Hh.
      destruct (Cache.victimCache (L1 h)); [| done].
      exfalso. apply Hvc. eauto.
    - exists (entry :: evs). split.
      + rewrite Htr, Htr0. by rewrite <- app_assoc.
      + pose proof (counted_add _ _ _ _ Hentry Hc) as Hc'.
        rewrite Hline in Hc'. revert Hc'.
        unfold counted, access_tally, line_tally, tally_add. simpl.
        destruct is_read; simpl; lia.
    - unfold access_tally, miss_tally. simpl. by destruct hit, dirt.
    - intros Hno. destruct hit; [by destruct Hno; apply Hocc |].
      unfold access_tally, miss_tally. simpl. lia. }
  assert (∀ (is_read : bool) entry w0,
    counted (mk_tally 1 0 0 0 0 0 0 0 0 0 0 0) [entry] →
    trace w0 = trace w ++ [entry] →
    p_stats w0
      = bump (mk_tally 1 0 0 (if is_read then 1 else 0)
                (if is_read then 0 else 1) 0 0 0 0 0 0 0)
          (p_stats w) →
    accounted (bool_decide (is_Some (Cache.victimCache (L1 h)))) w w0
      (access_tally is_read None)) as Hhit.
  { intros is_read entry w0 Hentry Htr0 Hst. split_and!.
    - rewrite Hst. unfold access_tally. f_equal. unfold tally_add. simpl.
      f_equal; lia.
    - apply (fair_access _ is_read false false false false false false
               false). done.
    - exists [entry]. split; [done |]. revert Hentry.
      unfold counted, access_tally, tally_add. simpl. lia. }
  destruct (Ascii.eqb type READ).
  - destruct (Cache.read _ _ _) as [[c w1]|] eqn:Hr; simpl; [| done].
    intros [= <- <-]. revert Hr. rewrite read_unfold. cbv zeta.
    destruct (_ || _); [done |].
    destruct (Cache.sets (L1 h) !! _) as [s|] eqn:Hset; [| done].
    destruct Hl as [Hid _]. rewrite Hid.
    destruct (scan _ _) eqn:Hscan.
    + intros [= <- <-]. exists (access_tally true None). split_and!.
      * apply (Hhit true (EvRead CacheID.L1 arg)); [done | done |].
        simpl. by destruct (p_stats w).
      * done.
      * intros Hno. destruct Hno. left.
        destruct (scan_Some _ _ _ Hscan) as (? & _ & ?). by eexists _, s, _.
    + intros (d & ? & ? & ?)
        %(Hmiss true (EvRead CacheID.L1 arg));
        [exists d; split_and!; auto | done | done | done |].
      simpl. by destruct (p_stats w).
  - destruct (Ascii.eqb type WRITE).
    + destruct (Cache.write _ _ _ _) as [[c w1]|] eqn:Hr; simpl; [| done].
      intros [= <- <-]. revert Hr. rewrite write_unfold. cbv zeta.
      destruct (_ || _); [done |].
      destruct (Cache.sets (L1 h) !! _) as [s|] eqn:Hset; [| done].
      destruct Hl as [Hid _]. rewrite Hid.
      destruct (scan _ _) eqn:Hscan.
      * intros [= <- <-]. exists (access_tally false None). split_and!.
        -- apply (Hhit false (EvWrite CacheID.L1 arg false)); [done | done |].
           simpl. by destruct (p_stats w).
        -- done.
        -- intros Hno. destruct Hno. left.
           destruct (scan_Some _ _ _ Hscan) as (? & _ & ?).
           by eexists _, s, _.
      * intros (d & ? & ? & ?)
          %(Hmiss false (EvWrite CacheID.L1 arg false));
          [exists d; split_and!; auto | done | done | done |].
        simpl. by destruct (p_stats w).
    + intros [= <- <-]. exists tally0. split_and!;
        [apply accounted_refl | done | done].
Qed.

Lemma shaped_victim_cache c1 b1 s1 v c2 b2 s2 h :
  shaped c1 b1 s1 v c2 b2 s2 h →
  bool_decide (is_Some (Cache.victimCache (L1 h))) = negb (v =? 0).
Proof.
  intros ((_ & _ & _ & _ & _ & Hvc) & _).
  destruct (Cache.victimCache (L1 h)).
  - destruct Hvc as (Hv%N.eqb_neq & _). rewrite Hv.
    by rewrite bool_decide_true by eauto.
  - rewrite Hvc. by rewrite bool_decide_false by (by intros [? [=]]).
Qed.

Lemma run_stats c1 b1 s1 v c2 b2 s2 events : ∀ h w h' w',
  shaped c1 b1 s1 v c2 b2 s2 h →
  run events h w = Some (h', w') →
  ∃ d,
    accounted (negb (v =? 0)) w w' d ∧
    n_accesses d = accesses_of events.
Proof.
  induction events as [|[type arg] events IH]; simpl; intros h w h' w' Hs.
  - intros [= <- <-]. exists tally0. split; [apply accounted_refl | done].
  - destruct (cache_access type arg h w) as [[h1 w1]|] eqn:Hacc; simpl;
      [| done].
    intros Hrun.
    pose proof (cache_access_shaped _ _ _ _ _ _ _ _ _ _ _ _ _ Hacc Hs) as Hs1.
    destruct (IH _ _ _ _ Hs1 Hrun) as (e & He & Hne).
    destruct (cache_access_stats _ _ _ _ _ _ (shaped_linked _ _ _ _ _ _ _ _ Hs)
                Hacc) as (d & Hd & Hnd & _).
    rewrite (shaped_victim_cache _ _ _ _ _ _ _ _ Hs) in Hd.
    exists (tally_add d e). split; [by eapply accounted_trans |].
    unfold accesses_of in *. simpl. rewrite Hnd, Hne.
    by destruct (is_access type).
Qed.

(** An access to a hierarchy that holds no valid block reaches L2. *)
Lemma run_stats_cold c1 b1 s1 v c2 b2 s2 events : ∀ h w h' w',
  shaped c1 b1 s1 v c2 b2 s2 h →
  ¬ occupied (L1 h) →
  run events h w = Some (h', w') →
  ∃ d,
    accounted (negb (v =? 0)) w w' d ∧
    n_accesses d = accesses_of events ∧
    (accesses_of events ≠ 0%nat → (1 ≤ n_accesses_l2 d)%nat).
Proof.
  induction events as [|[type arg] events IH]; simpl; intros h w h' w' Hs Hno.
  - intros [= <- <-]. exists tally0.
    split_and!; [apply accounted_refl | done | done].
  - destruct (cache_access type arg h w) as [[h1 w1]|] eqn:Hacc; simpl;
      [| done].
    intros Hrun.
    pose proof (cache_access_shaped _ _ _ _ _ _ _ _ _ _ _ _ _ Hacc Hs) as Hs1.
    destruct (is_access type) eqn:Hty.
    + destruct (run_stats _ _ _ _ _ _ _ _ _ _ _ _ Hs1 Hrun) as (e & He & Hne).
      destruct (cache_access_stats _ _ _ _ _ _
                  (shaped_linked _ _ _ _ _ _ _ _ Hs) Hacc)
        as (d & Hd & Hnd & Hcold).
      rewrite (shaped_victim_cache _ _ _ _ _ _ _ _ Hs) in Hd.
      exists (tally_add d e). split_and!.
      * by eapply accounted_trans.
      * unfold accesses_of in *. simpl. by rewrite Hnd, Hne, Hty.
      * intros _. simpl. specialize (Hcold Hno Hty). lia.
    + unfold cache_access, is_access in *.
      apply orb_false_iff in Hty as [Hr Hw]. rewrite Hr, Hw in Hacc.
      injection Hacc as <- <-.
      destruct (IH _ _ _ _ Hs Hno Hrun) as (d & ? & ? & ?).
      exists d. unfold accesses_of in *. simpl. unfold is_access.
      by rewrite Hr, Hw.
Qed.

End LinkedStats.

(** ** Identities between the counters *)

(** Equality of counters modulo [2^64]. *)
Definition eqm (x y : N) : Prop := x mod 2 ^ 64 = y mod 2 ^ 64.

#[global] Instance eqm_equivalence : Equivalence eqm.
Proof.
  unfold eqm. split.
  - by intros x.
  - by intros x y.
  - intros x y z. congruence.
Qed.

#[global] Instance eqm_add : Proper (eqm ==> eqm ==> eqm) N.add.
Proof.
  unfold eqm. intros x x' Hx y y' Hy.
  by rewrite N.Div0.add_mod, Hx, Hy, <- N.Div0.add_mod.
Qed.

Lemma incr_times_eqm k x : eqm (incr_times k x) (x + N.of_nat k).
Proof. apply incr_times_mod. Qed.

Ltac as_eqm :=
  repeat match goal with
  | H : ?x mod 2 ^ 64 = ?y mod 2 ^ 64 |- _ => change (eqm x y) in H
  | |- ?x mod 2 ^ 64 = ?y mod 2 ^ 64 => change (eqm x y)
  end.

(** X1. Every event that [cache_access] acts on is counted once in [reads]
    or in [writes] and once, by L1, in [accesses]: any sequence of events
    that follows [setup_cache] keeps [accesses = reads + writes] modulo
    [2^64]. *)
Theorem accesses_are_reads_plus_writes
    c1 b1 s1 v c2 b2 s2 heap events h0 w0 h w :
  setup_cache c1 b1 s1 v c2 b2 s2 heap = Returns h0 →
  run events h0 w0 = Some (h, w) →
  accesses (p_stats w0) mod 2 ^ 64
    = (reads (p_stats w0) + writes (p_stats w0)) mod 2 ^ 64 →
  accesses (p_stats w) mod 2 ^ 64
    = (reads (p_stats w) + writes (p_stats w)) mod 2 ^ 64.
Proof.
  intros Hs%setup_shaped Hrun H0.
  destruct (run_stats _ _ _ _ _ _ _ _ _ _ _ _ Hs Hrun)
    as (d & (-> & (Ha & _) & _) & _).
  simpl. as_eqm. rewrite !incr_times_eqm, H0, Ha. unfold eqm. f_equal. lia.
Qed.

Lemma accesses_are_reads_plus_writes_witness :
  accesses (p_stats sample_w) mod 2 ^ 64
    = (reads (p_stats sample_w) + writes (p_stats sample_w)) mod 2 ^ 64.
Proof.
  apply (accesses_are_reads_plus_writes 4 4 0 2 6 4 0 sample_heap
           sample_events sample_h0
           world0 sample_h sample_w); reflexivity.
Defined.

(** X2. L2 is called once for each miss of L1 that the victim cache did not
    serve and once for each block that L1 writes back: any sequence of
    events that follows [setup_cache] keeps
    [accesses_l2 + victim_hits
     = read_misses_l1 + write_misses_l1 + write_back_l1] modulo [2^64]. *)
Theorem l2_accesses_accounting c1 b1 s1 v c2 b2 s2 heap events h0 w0 h w :
  setup_cache c1 b1 s1 v c2 b2 s2 heap = Returns h0 →
  run events h0 w0 = Some (h, w) →
  (accesses_l2 (p_stats w0) + victim_hits (p_stats w0)) mod 2 ^ 64
    = (read_misses_l1 (p_stats w0) + write_misses_l1 (p_stats w0)
       + write_back_l1 (p_stats w0)) mod 2 ^ 64 →
  (accesses_l2 (p_stats w) + victim_hits (p_stats w)) mod 2 ^ 64
    = (read_misses_l1 (p_stats w) + write_misses_l1 (p_stats w)
       + write_back_l1 (p_stats w)) mod 2 ^ 64.
Proof.
  intros Hs%setup_shaped Hrun H0.
  destruct (run_stats _ _ _ _ _ _ _ _ _ _ _ _ Hs Hrun)
    as (d & (-> & (_ & _ & _ & _ & _ & _ & Hl2 & _) & _) & _).
  simpl. as_eqm. rewrite !incr_times_eqm.
  transitivity (accesses_l2 (p_stats w0) + victim_hits (p_stats w0)
                + N.of_nat (n_accesses_l2 d + n_victim_hits d));
    [unfold eqm; f_equal; lia |].
  rewrite H0, Hl2. unfold eqm. f_equal. lia.
Qed.

Lemma l2_accesses_accounting_witness :
  (accesses_l2 (p_stats sample_w) + victim_hits (p_stats sample_w)) mod 2 ^ 64
    = (read_misses_l1 (p_stats sample_w) + write_misses_l1 (p_stats sample_w)
       + write_back_l1 (p_stats sample_w)) mod 2 ^ 64.
Proof.
  apply (l2_accesses_accounting 4 4 0 2 6 4 0 sample_heap
           sample_events sample_h0
           world0 sample_h sample_w); reflexivity.
Defined.

(** X3. With a victim cache ([v] not zero) every miss of L1 probes it
    once: any sequence of events keeps
    [accesses_vc = read_misses_l1 + write_misses_l1] modulo [2^64]. Without
    one ([v = 0]) [accesses_vc] and [victim_hits] are never touched. *)
Theorem victim_cache_probed_on_every_miss
    c1 b1 s1 v c2 b2 s2 heap events h0 w0 h w :
  setup_cache c1 b1 s1 v c2 b2 s2 heap = Returns h0 →
  run events h0 w0 = Some (h, w) →
  (v ≠ 0 →
   accesses_vc (p_stats w0) mod 2 ^ 64
     = (read_misses_l1 (p_stats w0) + write_misses_l1 (p_stats w0))
       mod 2 ^ 64 →
   accesses_vc (p_stats w) mod 2 ^ 64
     = (read_misses_l1 (p_stats w) + write_misses_l1 (p_stats w))
       mod 2 ^ 64) ∧
  (v = 0 →
   accesses_vc (p_stats w) = accesses_vc (p_stats w0) ∧
   victim_hits (p_stats w) = victim_hits (p_stats w0)).
Proof.
  intros Hs%setup_shaped Hrun.
  destruct (run_stats _ _ _ _ _ _ _ _ _ _ _ _ Hs Hrun)
    as (d & (-> & (_ & _ & _ & Hvc & Hvh & _) & _) & _).
  simpl. split.
  - intros Hv%N.eqb_neq H0. rewrite Hv in Hvc. simpl in Hvc.
    as_eqm. rewrite !incr_times_eqm, H0, Hvc. unfold eqm. f_equal. lia.
  - intros ->. simpl in Hvc. rewrite Hvc in *.
    assert (n_victim_hits d = 0%nat) as -> by lia. done.
Qed.

Lemma victim_cache_probed_on_every_miss_witness :
  accesses_vc (p_stats sample_w) mod 2 ^ 64
    = (read_misses_l1 (p_stats sample_w) + write_misses_l1 (p_stats sample_w))
      mod 2 ^ 64.
Proof.
  apply (victim_cache_probed_on_every_miss 4 4 0 2 6 4 0 sample_heap
           sample_events
           sample_h0 world0 sample_h sample_w); [reflexivity | reflexivity
           | lia | reflexivity].
Defined.

(** The increments of a run from zeroed counters, read off the counters
    when none of them can have wrapped. *)
Lemma run_stats_exact {heap} c1 b1 s1 v c2 b2 s2 events h0 w0 h w :
  setup_cache c1 b1 s1 v c2 b2 s2 heap = Returns h0 →
  run events h0 w0 = Some (h, w) →
  p_stats w0 = stats0 →
  2 * N.of_nat (accesses_of events) < 2 ^ 64 →
  ∃ d,
    fair (negb (v =? 0)) d ∧ n_accesses d = accesses_of events ∧
    (accesses_of events ≠ 0%nat → (1 ≤ n_accesses_l2 d)%nat) ∧
    accesses (p_stats w) = N.of_nat (n_accesses d) ∧
    accesses_l2 (p_stats w) = N.of_nat (n_accesses_l2 d) ∧
    accesses_vc (p_stats w) = N.of_nat (n_accesses_vc d) ∧
    reads (p_stats w) = N.of_nat (n_reads d) ∧
    writes (p_stats w) = N.of_nat (n_writes d) ∧
    read_misses_l1 (p_stats w) = N.of_nat (n_read_misses_l1 d) ∧
    read_misses_l2 (p_stats w) = N.of_nat (n_read_misses_l2 d) ∧
    write_misses_l1 (p_stats w) = N.of_nat (n_write_misses_l1 d) ∧
    write_misses_l2 (p_stats w) = N.of_nat (n_write_misses_l2 d) ∧
    write_back_l1 (p_stats w) = N.of_nat (n_write_back_l1 d) ∧
    write_back_l2 (p_stats w) = N.of_nat (n_write_back_l2 d) ∧
    victim_hits (p_stats w) = N.of_nat (n_victim_hits d).
Proof.
  intros Hsetup Hrun H0 Hlen.
  destruct (run_stats_cold _ _ _ _ _ _ _ _ _ _ _ _
              (setup_shaped _ _ _ _ _ _ _ _ Hsetup)
              (setup_not_occupied _ _ _ _ _ _ _ _ Hsetup) Hrun)
    as (d & (-> & Hf & _) & Hn & Hcold).
  exists d. split; [done |]. split; [done |]. split; [done |].
  rewrite H0. simpl. unfold fair in Hf. rewrite <- Hn in Hlen.
  split_and!; apply incr_times_zero; destruct (negb (v =? 0)); lia.
Qed.



(** X5. Under the same conditions: each level writes back at most one
    block for each of its misses, L2 misses a write only when L1 writes a
    block back, and L2 misses a read only for a miss of L1 that the victim
    cache did not serve. *)
Theorem write_backs_within_misses c1 b1 s1 v c2 b2 s2 heap events h0 w0 h w :
  setup_cache c1 b1 s1 v c2 b2 s2 heap = Returns h0 →
  run events h0 w0 = Some (h, w) →
  p_stats w0 = stats0 →
  2 * N.of_nat (accesses_of events) < 2 ^ 64 →
  let st := p_stats w in
  write_back_l1 st ≤ read_misses_l1 st + write_misses_l1 st ∧
  write_back_l2 st ≤ read_misses_l2 st + write_misses_l2 st ∧
  write_misses_l2 st ≤ write_back_l1 st ∧
  read_misses_l2 st + victim_hits st
    ≤ read_misses_l1 st + write_misses_l1 st.
Proof.
  intros Hsetup Hrun H0 Hlen st. subst st.
  destruct (run_stats_exact _ _ _ _ _ _ _ _ _ _ _ _ Hsetup Hrun H0 Hlen)
    as (d & Hf & Hn & _ & _ & _ & _ & _ & _ & -> & -> & -> & -> & -> & ->
        & ->).
  unfold fair in Hf. simpl. destruct (negb (v =? 0)); lia.
Qed.

Lemma write_backs_within_misses_witness :
  let st := p_stats sample_w in
  write_back_l1 st ≤ read_misses_l1 st + write_misses_l1 st ∧
  write_back_l2 st ≤ read_misses_l2 st + write_misses_l2 st ∧
  write_misses_l2 st ≤ write_back_l1 st ∧
  read_misses_l2 st + victim_hits st
    ≤ read_misses_l1 st + write_misses_l1 st.
Proof.
  apply (write_backs_within_misses 4 4 0 2 6 4 0 sample_heap
           sample_events sample_h0
           world0 sample_h sample_w);
    [reflexivity | reflexivity | reflexivity |].
  vm_compute. reflexivity.
Defined.

(** X6. Under the same conditions, as soon as the events hold one read or
    write: the first access finds the caches empty, misses in L1 and in the
    victim cache and reads L2, so that none of the denominators of
    [complete_cache] ([accesses], [accesses_l2] and, with a victim cache,
    [accesses_vc]) is zero. *)
Theorem denominators_after_an_access
    c1 b1 s1 v c2 b2 s2 heap events h0 w0 h w :
  setup_cache c1 b1 s1 v c2 b2 s2 heap = Returns h0 →
  run events h0 w0 = Some (h, w) →
  p_stats w0 = stats0 →
  accesses_of events ≠ 0%nat →
  2 * N.of_nat (accesses_of events) < 2 ^ 64 →
  accesses (p_stats w) ≠ 0 ∧
  accesses_l2 (p_stats w) ≠ 0 ∧
  (v ≠ 0 → accesses_vc (p_stats w) ≠ 0).
Proof.
  intros Hsetup Hrun H0 Hne Hlen.
  destruct (run_stats_exact _ _ _ _ _ _ _ _ _ _ _ _ Hsetup Hrun H0 Hlen)
    as (d & Hf & Hn & Hcold & -> & -> & -> & _).
  specialize (Hcold Hne). unfold fair in Hf. split_and!; [lia | lia |].
  intros Hv%N.eqb_neq. rewrite Hv in Hf. simpl in Hf. lia.
Qed.

Lemma denominators_after_an_access_witness :
  accesses (p_stats sample_w) ≠ 0 ∧
  accesses_l2 (p_stats sample_w) ≠ 0 ∧
  (2 ≠ 0 → accesses_vc (p_stats sample_w) ≠ 0).
Proof.
  apply (denominators_after_an_access 4 4 0 2 6 4 0 sample_heap
           sample_events sample_h0
           world0 sample_h sample_w);
    [reflexivity | reflexivity | reflexivity | vm_compute; lia |].
  vm_compute. reflexivity.
Defined.

(** X7. What the counters count: over any sequence of events that follows
    [setup_cache], [accesses] and [accesses_l2] are incremented once for
    each call of [read] or [write] that L1 and L2 receive (for L2 the
    write-backs included), the read-miss and write-miss counters of a level
    once for each clean and for each dirty line that the level pushes at the
    front of a set, and its write-back counter once for each dirty block
    that it takes from the back of a set. *)
Theorem counters_count_events c1 b1 s1 v c2 b2 s2 heap events h0 w0 h w :
  setup_cache c1 b1 s1 v c2 b2 s2 heap = Returns h0 →
  run events h0 w0 = Some (h, w) →
  ∃ evs,
    trace w = trace w0 ++ evs ∧
    accesses (p_stats w)
      = incr_times (calls_to CacheID.L1 evs) (accesses (p_stats w0)) ∧
    accesses_l2 (p_stats w)
      = incr_times (calls_to CacheID.L2 evs) (accesses_l2 (p_stats w0)) ∧
    read_misses_l1 (p_stats w)
      = incr_times (count (is_miss_of CacheID.L1 false) evs)
          (read_misses_l1 (p_stats w0)) ∧
    read_misses_l2 (p_stats w)
      = incr_times (count (is_miss_of CacheID.L2 false) evs)
          (read_misses_l2 (p_stats w0)) ∧
    write_misses_l1 (p_stats w)
      = incr_times (count (is_miss_of CacheID.L1 true) evs)
          (write_misses_l1 (p_stats w0)) ∧
    write_misses_l2 (p_stats w)
      = incr_times (count (is_miss_of CacheID.L2 true) evs)
          (write_misses_l2 (p_stats w0)) ∧
    write_back_l1 (p_stats w)
      = incr_times (dirty_evictions CacheID.L1 evs)
          (write_back_l1 (p_stats w0)) ∧
    write_back_l2 (p_stats w)
      = incr_times (dirty_evictions CacheID.L2 evs)
          (write_back_l2 (p_stats w0)).
Proof.
  intros Hs%setup_shaped Hrun.
  destruct (run_stats _ _ _ _ _ _ _ _ _ _ _ _ Hs Hrun)
    as (d & (-> & _ & evs & Htr & Hc) & _).
  exists evs. split; [done |].
  destruct Hc as (<- & <- & <- & <- & <- & <- & <- & <-). done.
Qed.

Lemma counters_count_events_witness :
  ∃ evs,
    trace sample_w = trace world0 ++ evs ∧
    accesses (p_stats sample_w)
      = incr_times (calls_to CacheID.L1 evs) (accesses (p_stats world0)) ∧
    accesses_l2 (p_stats sample_w)
      = incr_times (calls_to CacheID.L2 evs) (accesses_l2 (p_stats world0)) ∧
    read_misses_l1 (p_stats sample_w)
      = incr_times (count (is_miss_of CacheID.L1 false) evs)
          (read_misses_l1 (p_stats world0)) ∧
    read_misses_l2 (p_stats sample_w)
      = incr_times (count (is_miss_of CacheID.L2 false) evs)
          (read_misses_l2 (p_stats world0)) ∧
    write_misses_l1 (p_stats sample_w)
      = incr_times (count (is_miss_of CacheID.L1 true) evs)
          (write_misses_l1 (p_stats world0)) ∧
    write_misses_l2 (p_stats sample_w)
      = incr_times (count (is_miss_of CacheID.L2 true) evs)
          (write_misses_l2 (p_stats world0)) ∧
    write_back_l1 (p_stats sample_w)
      = incr_times (dirty_evictions CacheID.L1 evs)
          (write_back_l1 (p_stats world0)) ∧
    write_back_l2 (p_stats sample_w)
      = incr_times (dirty_evictions CacheID.L2 evs)
          (write_back_l2 (p_stats world0)).
Proof.
  apply (counters_count_events 4 4 0 2 6 4 0 sample_heap
           sample_events sample_h0 world0
           sample_h sample_w); reflexivity.
Defined.

(** ** The configurations under which the simulation is defined *)

Lemma pow2_sets_zero (c b s : N) : c < b + s → 2 ^ c / 2 ^ b / 2 ^ s = 0.
Proof.
  intros Hlt. rewrite N.Div0.div_div, <- N.pow_add_r. apply N.div_small.
  apply N.pow_lt_mono_r; lia.
Qed.

(** A run with an access that returns, from a hierarchy without any valid
    block, shows that both levels have sets. *)
Lemma run_Some_sets c1 b1 s1 v c2 b2 s2 events : ∀ h w,
  shaped c1 b1 s1 v c2 b2 s2 h →
  ¬ occupied (L1 h) →
  accesses_of events ≠ 0%nat →
  is_Some (run events h w) →
  2 ^ c1 / 2 ^ b1 / 2 ^ s1 ≠ 0 ∧ 2 ^ c2 / 2 ^ b2 / 2 ^ s2 ≠ 0.
Proof.
  induction events as [|[type arg] events IH]; intros h w Hs Hno Hacc Hrun;
    [done |].
  simpl in Hrun.
  destruct (cache_access type arg h w) as [[h1 w1]|] eqn:Hca;
    [| by destruct Hrun].
  simpl in Hrun.
  destruct (Ascii.eqb_spec type READ) as [-> | Hr].
  { by eapply access_Some_sets; [| | left | ]. }
  destruct (Ascii.eqb_spec type WRITE) as [-> | Hw].
  { by eapply access_Some_sets; [| | right | ]. }
  apply Ascii.eqb_neq in Hr, Hw.
  unfold cache_access in Hca. rewrite Hr, Hw in Hca. injection Hca as <- <-.
  apply (IH h w); try done.
  unfold accesses_of, is_access in *. simpl in Hacc. by rewrite Hr, Hw in Hacc.
Qed.

(** X8. After [setup_cache] has returned, a sequence of events with at
    least one read or write runs without undefined behaviour exactly when
    both caches have sets, that is when [b1 + s1 <= c1] and
    [b2 + s2 <= c2]: otherwise the first access divides by a number of sets
    that is zero, in L1 or in the [read] of L2 that follows the miss of the
    empty L1. *)
Theorem run_defined_iff_sets c1 b1 s1 v c2 b2 s2 heap events h0 w0 :
  setup_cache c1 b1 s1 v c2 b2 s2 heap = Returns h0 →
  accesses_of events ≠ 0%nat →
  is_Some (run events h0 w0) ↔ b1 + s1 ≤ c1 ∧ b2 + s2 ≤ c2.
Proof.
  intros Hsetup Hacc. split.
  - intros Hrun.
    destruct (run_Some_sets _ _ _ _ _ _ _ _ _ _
                (setup_shaped _ _ _ _ _ _ _ _ Hsetup)
                (setup_not_occupied _ _ _ _ _ _ _ _ Hsetup) Hacc Hrun)
      as [H1 H2].
    split.
    + destruct (N.le_gt_cases (b1 + s1) c1) as [| Hlt]; [done |].
      by apply pow2_sets_zero in Hlt.
    + destruct (N.le_gt_cases (b2 + s2) c2) as [| Hlt]; [done |].
      by apply pow2_sets_zero in Hlt.
  - intros [Hle1 Hle2].
    destruct (run_total events h0 w0
                (setup_ready _ _ _ _ _ _ _ _ Hle1 Hle2 Hsetup))
      as (h & w & -> & _).
    eauto.
Qed.

Lemma run_defined_iff_sets_witness :
  setup_cache 4 4 0 2 6 4 0 sample_heap = Returns sample_h0 ∧
  (is_Some (run sample_events sample_h0 world0) ↔ 4 + 0 ≤ 4 ∧ 4 + 0 ≤ 6).
Proof.
  split; [reflexivity |].
  apply (run_defined_iff_sets 4 4 0 2 6 4 0 sample_heap sample_events
           sample_h0 world0); [reflexivity | vm_compute; lia].
Defined.

(** ** What the stored blocks hold *)

(** Every block of every set satisfies [Q]. *)
Definition all_blocks (Q : Block → Prop) (sets : list CacheSet) : Prop :=
  ∀ s b, s ∈ sets → b ∈ blocks s → Q b.

(** Only a valid block is dirty. *)
Definition dirty_valid (b : Block) : Prop :=
  dirty b = true → valid b = true.

(** An entry of a victim cache with the block size [bs]: clean, and if
    valid filed under the number of the memory block of its address. *)
Definition clean_entry (bs : N) (e : Block) : Prop :=
  dirty e = false ∧ (valid e = true → tag e = address e / bs).

Definition vc_clean (ovc : option VictimCache.t) : Prop :=
  ∀ vc e, ovc = Some vc → e ∈ VictimCache.blocks vc →
          clean_entry (VictimCache.blockSize vc) e.

Lemma elem_of_removelast (b : Block) l : b ∈ removelast l → b ∈ l.
Proof.
  destruct (decide (l = [])) as [-> | Hl]; [done |].
  intros Hb. rewrite (app_removelast_last Block_default Hl).
  apply elem_of_app. by left.
Qed.

Section Contents.

Context {M : Type} `{Level M}.

Implicit Types (this : Cache.t M).

Lemma works_on_all_blocks (Q : Block → Prop) this a c' hit_block dirty_line :
  works_on this a c' hit_block dirty_line →
  (∀ block, valid block = true → Q block → Q (hit_block block)) →
  (∀ t, Q (mkBlock true dirty_line t a)) →
  all_blocks Q (Cache.sets this) → all_blocks Q (Cache.sets c').
Proof.
  intros (set & Hset & Hother & Hcase) Hhit Hline Hall s b
    [j Hj]%list_elem_of_lookup_1 Hb.
  assert (set ∈ Cache.sets this) as Hin by (by eapply list_elem_of_lookup_2).
  destruct (decide (j = N.to_nat (spec_index this a))) as [-> | Hne].
  - destruct (scan _ _) as [block|] eqn:Hs.
    + rewrite Hcase in Hj. injection Hj as <-. simpl in Hb.
      destruct (scan_Some _ _ _ Hs) as (Hv & _ & Hbl).
      apply elem_of_cons in Hb as [-> | Hb].
      * apply Hhit; [done |]. by eapply Hall.
      * eapply Hall; [exact Hin |]. by eapply elem_of_remove.
    + destruct Hcase as [_ Hcase]. rewrite Hcase in Hj. injection Hj as <-.
      simpl in Hb. apply elem_of_cons in Hb as [-> | Hb]; [apply Hline |].
      eapply Hall; [exact Hin |]. by apply elem_of_removelast.
  - rewrite (Hother j Hne) in Hj. eapply Hall; [| exact Hb].
    by eapply list_elem_of_lookup_2.
Qed.

Lemma read_dirty_valid this a w c' w' :
  Cache.read this a w = Some (c', w') →
  all_blocks dirty_valid (Cache.sets this) →
  all_blocks dirty_valid (Cache.sets c').
Proof.
  intros Hr%read_works_on. eapply works_on_all_blocks; [exact Hr | done |].
  by intros t.
Qed.

Lemma write_dirty_valid this a w isWriteBack c' w' :
  Cache.write this a w isWriteBack = Some (c', w') →
  all_blocks dirty_valid (Cache.sets this) →
  all_blocks dirty_valid (Cache.sets c').
Proof.
  intros Hr%write_works_on. eapply works_on_all_blocks; [exact Hr | |].
  - by intros block Hv _ _.
  - by intros t.
Qed.

(** The victim cache after the probe and after it took the evicted
    block. *)
Lemma probe_clean vc a w hit vc' w' :
  VictimCache.read vc a w = Some (hit, vc', w') →
  vc_clean (Some vc) → vc_clean (Some vc').
Proof.
  intros (_ & _ & Hbs & _ & Hhit)%vc_read_inv Hc v e [= <-] He. rewrite Hbs.
  destruct hit.
  - destruct Hhit as (x & _ & Hbl & _). rewrite Hbl in He.
    apply (Hc vc e eq_refl). by eapply elem_of_remove.
  - destruct Hhit as (_ & -> & _). by apply (Hc vc e).
Qed.

Lemma absorb_clean id vc block w vc' w' :
  Cache.absorb id vc block w = Some (vc', w') →
  vc_clean (Some vc) → vc_clean (Some vc').
Proof.
  unfold Cache.absorb. intros Hab Hc v e [= <-] He.
  destruct (valid block).
  - apply vc_insert_inv in Hab as (_ & _ & Hbs & _ & rest & Hbl & Hcase).
    rewrite Hbs. rewrite Hbl in He.
    apply elem_of_cons in He as [-> | He]; [done |].
    apply (Hc vc e eq_refl). destruct (_ =? _).
    + destruct Hcase as (x & -> & _). apply elem_of_app. by left.
    + by destruct Hcase as [<- _].
  - injection Hab as <- <-. unfold VictimCache.insertInvalid in *.
    destruct (negb _); [| by apply (Hc vc e)]. simpl in *.
    apply elem_of_app in He as [He | ->%list_elem_of_singleton];
      [by apply (Hc vc e) | done].
Qed.

Lemma miss_vc_clean this a index l line w c' w' :
  Cache.miss this a index l line w = Some (c', w') →
  vc_clean (Cache.victimCache this) → vc_clean (Cache.victimCache c').
Proof.
  intros (hit & ovc1 & wp & mem1 & wf & block & rest & mem2 & wb & ovc2 & wa
          & Hprobe & _ & _ & _ & Habs & -> & _)%miss_inv Hc.
  simpl. destruct (Cache.victimCache this) as [vc|].
  - destruct Hprobe as (vc1 & Hr & ->). destruct Habs as (vc2 & Hab & ->).
    eapply absorb_clean; [exact Hab |]. by eapply probe_clean.
  - destruct Hprobe as (_ & -> & _). by destruct Habs as [-> _].
Qed.

Lemma read_vc_clean this a w c' w' :
  Cache.read this a w = Some (c', w') →
  vc_clean (Cache.victimCache this) → vc_clean (Cache.victimCache c').
Proof.
  rewrite read_unfold. cbv zeta. destruct (_ || _); [done |].
  destruct (Cache.sets this !! _) as [s|]; [| done].
  destruct (scan _ _); [by intros [= <- <-] | apply miss_vc_clean].
Qed.

Lemma write_vc_clean this a w isWriteBack c' w' :
  Cache.write this a w isWriteBack = Some (c', w') →
  vc_clean (Cache.victimCache this) → vc_clean (Cache.victimCache c').
Proof.
  rewrite write_unfold. cbv zeta. destruct (_ || _); [done |].
  destruct (Cache.sets this !! _) as [s|]; [| done].
  destruct (scan _ _); [by intros [= <- <-] | apply miss_vc_clean].
Qed.

End Contents.

(** The contents of the hierarchy: only valid blocks are dirty, in L1 and in
    L2, and the victim cache holds clean entries. *)
Definition contents_ok (h : hierarchy) : Prop :=
  all_blocks dirty_valid (Cache.sets (L1 h)) ∧
  below (λ m : Cache.t Empty_set, all_blocks dirty_valid (Cache.sets m))
    (Cache.memory (L1 h)) ∧
  vc_clean (Cache.victimCache (L1 h)).

Lemma new_contents {M : Type} id c b s v (cache : option M) this :
  constructed id c b s v cache = Some this →
  all_blocks dirty_valid (Cache.sets this) ∧ vc_clean (Cache.victimCache this).
Proof.
  unfold constructed. destruct (_ && _); [| done]. intros [= <-]. simpl. split.
  - intros set x ->%elem_of_replicate_inv. simpl.
    by intros ->%elem_of_replicate_inv.
  - intros vc e. destruct (v =? 0); [done |]. intros [= <-]. simpl.
    by intros ->%elem_of_replicate_inv.
Qed.

Lemma setup_contents {heap} c1 b1 s1 v c2 b2 s2 h :
  setup_cache c1 b1 s1 v c2 b2 s2 heap = Returns h → contents_ok h.
Proof.
  intros (l1 & l2 & H2 & H1 & ->)%setup_cache_eq.
  destruct (new_contents _ _ _ _ _ _ _ H1) as [Hd1 Hvc].
  destruct (new_contents _ _ _ _ _ _ _ H2) as [Hd2 _].
  unfold contents_ok. simpl. split_and!; [done | | done].
  apply new_configured in H1 as [_ ->]. done.
Qed.

Lemma cache_access_contents type arg h w h' w' :
  cache_access type arg h w = Some (h', w') →
  contents_ok h → contents_ok h'.
Proof.
  unfold cache_access, contents_ok. intros Hacc (H1 & H2 & H3).
  destruct (Ascii.eqb type READ).
  - destruct (Cache.read _ _ _) as [[c w1]|] eqn:Hr; simpl in Hacc; [| done].
    injection Hacc as <- <-. simpl. split_and!.
    + by eapply read_dirty_valid.
    + eapply (read_below (λ m : Cache.t Empty_set,
                            all_blocks dirty_valid (Cache.sets m)));
        [| | exact Hr | done].
      * intros m a w0 m' w0' Hm Hrm.
        exact (read_dirty_valid m a w0 m' w0' Hrm Hm).
      * intros m a w0 wb m' w0' Hm Hrm.
        exact (write_dirty_valid m a w0 wb m' w0' Hrm Hm).
    + by eapply read_vc_clean.
  - destruct (Ascii.eqb type WRITE); [| by injection Hacc as <- <-].
    destruct (Cache.write _ _ _ _) as [[c w1]|] eqn:Hr; simpl in Hacc;
      [| done].
    injection Hacc as <- <-. simpl. split_and!.
    + by eapply write_dirty_valid.
    + eapply (write_below (λ m : Cache.t Empty_set,
                             all_blocks dirty_valid (Cache.sets m)));
        [| | exact Hr | done].
      * intros m a w0 m' w0' Hm Hrm.
        exact (read_dirty_valid m a w0 m' w0' Hrm Hm).
      * intros m a w0 wb m' w0' Hm Hrm.
        exact (write_dirty_valid m a w0 wb m' w0' Hrm Hm).
    + by eapply write_vc_clean.
Qed.

Lemma run_contents events h w h' w' :
  run events h w = Some (h', w') → contents_ok h → contents_ok h'.
Proof.
  revert h w. induction events as [|[type arg] events IH]; simpl; intros h w.
  - by intros [= <- <-].
  - destruct (cache_access type arg h w) as [[h1 w1]|] eqn:Hacc; simpl;
      [| done].
    intros Hrun Hc. eapply IH; [exact Hrun |].
    by eapply cache_access_contents.
Qed.

(** X9. The victim cache holds clean entries only, and files each valid
    entry under the number of the memory block of its address,
    [address / 2^b1]: [insert] pushes [Block(true, false, tag, address)],
    [insertInvalid] an invalid clean block, and nothing sets the dirty bit
    of an entry. *)
Theorem victim_cache_entries_clean c1 b1 s1 v c2 b2 s2 heap events h0 w0 h w :
  setup_cache c1 b1 s1 v c2 b2 s2 heap = Returns h0 →
  run events h0 w0 = Some (h, w) →
  ∀ vc e,
    Cache.victimCache (L1 h) = Some vc → e ∈ VictimCache.blocks vc →
    dirty e = false ∧ (valid e = true → tag e = address e / 2 ^ b1).
Proof.
  intros Hsetup Hrun vc e Hvc He.
  pose proof (run_contents _ _ _ _ _ Hrun (setup_contents _ _ _ _ _ _ _ _ Hsetup))
    as (_ & _ & Hc).
  pose proof (run_shaped _ _ _ _ _ _ _ _ _ _ _ _ Hrun
                (setup_shaped _ _ _ _ _ _ _ _ Hsetup))
    as ((_ & _ & _ & _ & _ & Hcfg) & _).
  rewrite Hvc in Hcfg. destruct Hcfg as (_ & _ & <-). by apply Hc.
Qed.

Lemma victim_cache_entries_clean_witness :
  dirty (mkBlock true false 1 16) = false ∧
  (valid (mkBlock true false 1 16) = true →
   tag (mkBlock true false 1 16) = address (mkBlock true false 1 16) / 2 ^ 4).
Proof.
  apply (victim_cache_entries_clean 4 4 0 2 6 4 0 sample_heap
           sample_events sample_h0
           world0 sample_h sample_w eq_refl eq_refl
           (VictimCache.mk 2 16
              [mkBlock true false 1 16; mkBlock false false 0 0])
           (mkBlock true false 1 16));
    [reflexivity | apply list_elem_of_here].
Defined.

(** X10. In L1 and in L2 every dirty block is valid: the invalid blocks of
    the constructor are clean, a miss brings in a valid line, and a write
    hit sets the dirty bit of a block that the scan found valid. So every
    write-back carries the address of a line that an access brought in. *)
Theorem only_valid_blocks_are_dirty c1 b1 s1 v c2 b2 s2 heap events h0 w0 h w :
  setup_cache c1 b1 s1 v c2 b2 s2 heap = Returns h0 →
  run events h0 w0 = Some (h, w) →
  (∀ s b, s ∈ Cache.sets (L1 h) → b ∈ blocks s →
          dirty b = true → valid b = true) ∧
  (∀ m s b, L2 h = Some m → s ∈ Cache.sets m → b ∈ blocks s →
            dirty b = true → valid b = true).
Proof.
  intros Hsetup Hrun.
  pose proof (run_contents _ _ _ _ _ Hrun (setup_contents _ _ _ _ _ _ _ _ Hsetup))
    as (H1 & H2 & _).
  split; [exact H1 |]. unfold L2. intros m s b Hm. rewrite Hm in H2.
  apply H2.
Qed.

Lemma only_valid_blocks_are_dirty_witness :
  (∀ s b, s ∈ Cache.sets (L1 sample_h) → b ∈ blocks s →
          dirty b = true → valid b = true) ∧
  (∀ m s b, L2 sample_h = Some m → s ∈ Cache.sets m → b ∈ blocks s →
            dirty b = true → valid b = true).
Proof.
  apply (only_valid_blocks_are_dirty 4 4 0 2 6 4 0 sample_heap
           sample_events sample_h0
           world0 sample_h sample_w); reflexivity.
Defined.

(** X11. L1 and its victim cache are exclusive: no valid entry of the
    victim cache is for the memory block of a valid block of a set of
    L1. *)
Theorem victim_cache_exclusive c1 b1 s1 v c2 b2 s2 heap events h0 w0 h w :
  setup_cache c1 b1 s1 v c2 b2 s2 heap = Returns h0 →
  run events h0 w0 = Some (h, w) →
  ∀ vc e s b,
    Cache.victimCache (L1 h) = Some vc → e ∈ VictimCache.blocks vc →
    valid e = true →
    s ∈ Cache.sets (L1 h) → b ∈ blocks s → valid b = true →
    (address b / 2 ^ b1 =? address e / 2 ^ b1) = false.
Proof.
  intros Hsetup Hrun vc e s b Hvc He Hve [i Hi]%list_elem_of_lookup_1 Hb Hvb.
  apply N.eqb_neq. intros Heq.
  pose proof (run_contents _ _ _ _ _ Hrun (setup_contents _ _ _ _ _ _ _ _ Hsetup))
    as (_ & _ & Hc).
  pose proof (run_inv _ _ _ _ _ Hrun (setup_inv _ _ _ _ _ _ _ _ Hsetup))
    as [[Hsets Hvcok] _].
  pose proof (run_shaped _ _ _ _ _ _ _ _ _ _ _ _ Hrun
                (setup_shaped _ _ _ _ _ _ _ _ Hsetup))
    as ((_ & _ & Hbs & _ & _ & Hcfg) & _).
  destruct (Hc vc e Hvc He) as [_ Ht]. specialize (Ht Hve).
  destruct (Hvcok vc Hvc) as (Hvbs & _ & _ & Habs).
  destruct (Hsets i s Hi) as (_ & _ & Hok).
  destruct (Hok b Hb Hvb) as [Htag Hidx].
  rewrite Hvbs in Ht. rewrite Hbs in *.
  specialize (Habs e He Hve s). rewrite Ht, <- Heq, Hidx in Habs.
  specialize (Habs Hi). rewrite <- Htag in Habs.
  pose proof (occurrences_elem_of _ _ Hb Hvb). lia.
Qed.

Lemma victim_cache_exclusive_witness :
  (address (mkBlock true false 0 0) / 2 ^ 4
   =? address (mkBlock true false 1 16) / 2 ^ 4) = false.
Proof.
  apply (victim_cache_exclusive 4 4 0 2 6 4 0 sample_heap
           sample_events sample_h0
           world0 sample_h sample_w eq_refl eq_refl
           (VictimCache.mk 2 16
              [mkBlock true false 1 16; mkBlock false false 0 0])
           (mkBlock true false 1 16)
           (mkSet [mkBlock true false 0 0]) (mkBlock true false 0 0));
    [reflexivity | apply list_elem_of_here | reflexivity
    | apply list_elem_of_here | apply list_elem_of_here | reflexivity].
Defined.

(** X12. Every valid block of L1 and of L2 sits in the set that the index
    of its recorded address selects and carries the tag of that address. *)
Theorem stored_blocks_belong_to_their_set
    c1 b1 s1 v c2 b2 s2 heap events h0 w0 h w :
  setup_cache c1 b1 s1 v c2 b2 s2 heap = Returns h0 →
  run events h0 w0 = Some (h, w) →
  (∀ i s b, Cache.sets (L1 h) !! i = Some s → b ∈ blocks s →
            valid b = true →
            tag b = address b / 2 ^ b1 / (2 ^ c1 / 2 ^ b1 / 2 ^ s1) ∧
            N.to_nat (address b / 2 ^ b1 mod (2 ^ c1 / 2 ^ b1 / 2 ^ s1)) = i) ∧
  (∀ m i s b, L2 h = Some m → Cache.sets m !! i = Some s → b ∈ blocks s →
              valid b = true →
              tag b = address b / 2 ^ b2 / (2 ^ c2 / 2 ^ b2 / 2 ^ s2) ∧
              N.to_nat (address b / 2 ^ b2 mod (2 ^ c2 / 2 ^ b2 / 2 ^ s2))
                = i).
Proof.
  intros Hsetup Hrun.
  pose proof (run_inv _ _ _ _ _ Hrun (setup_inv _ _ _ _ _ _ _ _ Hsetup))
    as [[Hs1 _] H2].
  pose proof (run_shaped _ _ _ _ _ _ _ _ _ _ _ _ Hrun
                (setup_shaped _ _ _ _ _ _ _ _ Hsetup))
    as ((_ & Hcs1 & Hbs1 & Ha1 & _) & _ & Hc2 & _).
  split.
  - intros i s b Hi Hb Hv. destruct (Hs1 i s Hi) as (_ & _ & Hok).
    specialize (Hok b Hb Hv). unfold numberOfSets in Hok.
    by rewrite Hcs1, Hbs1, Ha1 in Hok.
  - unfold L2. intros m i s b Hm Hi Hb Hv. rewrite Hm in H2, Hc2.
    simpl in H2, Hc2. destruct H2 as [Hs2 _].
    destruct Hc2 as (_ & Hcs2 & Hbs2 & Ha2 & _).
    destruct (Hs2 i s Hi) as (_ & _ & Hok).
    specialize (Hok b Hb Hv). unfold numberOfSets in Hok.
    by rewrite Hcs2, Hbs2, Ha2 in Hok.
Qed.

Lemma stored_blocks_belong_to_their_set_witness :
  (∀ i s b, Cache.sets (L1 sample_h) !! i = Some s → b ∈ blocks s →
            valid b = true →
            tag b = address b / 2 ^ 4 / (2 ^ 4 / 2 ^ 4 / 2 ^ 0) ∧
            N.to_nat (address b / 2 ^ 4 mod (2 ^ 4 / 2 ^ 4 / 2 ^ 0)) = i) ∧
  (∀ m i s b, L2 sample_h = Some m → Cache.sets m !! i = Some s →
              b ∈ blocks s → valid b = true →
              tag b = address b / 2 ^ 4 / (2 ^ 6 / 2 ^ 4 / 2 ^ 0) ∧
              N.to_nat (address b / 2 ^ 4 mod (2 ^ 6 / 2 ^ 4 / 2 ^ 0)) = i).
Proof.
  apply (stored_blocks_belong_to_their_set 4 4 0 2 6 4 0 sample_heap
           sample_events
           sample_h0 world0 sample_h sample_w); reflexivity.
Defined.

(** ** Hits *)

Lemma remove_absent value l :
  occurrences (tag value) l = 0%nat → remove value l = l.
Proof.
  induction l as [|e l IH]; simpl; [done |]. unfold Block_eq.
  destruct (valid e && (tag e =? tag value)) eqn:E; [done |].
  intros H0. rewrite IH by done.
  destruct (valid e), (valid value), (tag e =? tag value); simpl in *; done.
Qed.

(** On a list without duplicates, the [remove] of a hit takes the block
    that the scan found and leaves the others in their order. *)
Lemma remove_scanned t l b :
  unique l → scan t l = Some b →
  ∃ l1 l2, l = l1 ++ b :: l2 ∧ remove b l = l1 ++ l2.
Proof.
  induction l as [|x l IH]; simpl; [done |]. intros Hu.
  assert (unique l) as Hu'.
  { intros t'. specialize (Hu t'). simpl in Hu.
    destruct (valid x && (tag x =? t')); lia. }
  destruct (valid x && (tag x =? t)) eqn:E.
  - intros [= <-]. exists [], l. split; [done |]. simpl.
    apply andb_true_iff in E as [Hv Ht]. unfold Block_eq.
    rewrite Hv, N.eqb_refl. simpl. apply remove_absent.
    specialize (Hu (tag x)). simpl in Hu. rewrite Hv, N.eqb_refl in Hu.
    simpl in Hu. lia.
  - intros Hs. destruct (IH Hu' Hs) as (l1 & l2 & -> & Hr).
    destruct (scan_Some _ _ _ Hs) as (Hv & Ht & _).
    exists (x :: l1), l2. split; [done |]. unfold Block_eq.
    rewrite Hv, Ht, andb_true_r, E. simpl. by rewrite Hr.
Qed.

(** The hierarchy [h] with the blocks [l] in the set [i] of L1. *)
Definition with_set (h : hierarchy) (i : nat) (l : list Block) : hierarchy :=
  mk_hierarchy
    (Cache.mk (Cache.cacheID (L1 h)) (Cache.cacheSize (L1 h))
       (Cache.blockSize (L1 h)) (Cache.associativity (L1 h))
       (<[i := mkSet l]> (Cache.sets (L1 h)))
       (Cache.victimCache (L1 h)) (Cache.memory (L1 h)))
    (s1 h) (s2 h) (v h).

Lemma cache_access_hit c1 b1 s1 v c2 b2 s2 h a w set block :
  shaped c1 b1 s1 v c2 b2 s2 h →
  Cache.sets (L1 h) !! N.to_nat (spec_index (L1 h) a) = Some set →
  scan (spec_tag (L1 h) a) (blocks set) = Some block →
  cache_access READ a h w
    = Some (with_set h (N.to_nat (spec_index (L1 h) a))
              (block :: remove block (blocks set)),
            mk_world (incr_accesses (incr_reads (p_stats w)))
              (trace w ++ [EvRead CacheID.L1 a])) ∧
  cache_access WRITE a h w
    = Some (with_set h (N.to_nat (spec_index (L1 h) a))
              (set_dirty block :: remove block (blocks set)),
            mk_world (incr_accesses (incr_writes (p_stats w)))
              (trace w ++ [EvWrite CacheID.L1 a false])).
Proof.
  intros ((Hid & Hcs & Hbs & Ha & Hlen & _) & _) Hset Hscan.
  assert ((Cache.blockSize (L1 h) =? 0) || (Cache.associativity (L1 h) =? 0)
          || (numberOfSets (L1 h) =? 0) = false) as Hz.
  { apply orb_false_iff. split; [apply orb_false_iff; split |];
      apply N.eqb_neq.
    - rewrite Hbs. apply pow2_nonzero.
    - rewrite Ha. apply pow2_nonzero.
    - unfold numberOfSets. rewrite Hcs, Hbs, Ha. intros E.
      rewrite E in Hlen. apply lookup_lt_Some in Hset. simpl in Hlen. lia. }
  unfold spec_index, spec_tag, spec_block_number, spec_number_of_sets in *.
  fold (numberOfSets (L1 h)) in *.
  unfold cache_access, with_set. simpl.
  rewrite read_unfold, write_unfold. cbv zeta. rewrite Hz, Hset, Hscan, Hid.
  done.
Qed.

(** X13. A hit in L1, in any state that follows [setup_cache]: a
    [cache_access] to an address whose block the scan of its set finds
    returns, moves that block to the front of the set (dirty after a write,
    as it was after a read), leaves the other blocks of the set in their
    order and the other sets, the victim cache and L2 as they are, and
    increments [reads] or [writes] and [accesses] only. *)
Theorem hit_moves_block_to_front c1 b1 s1 v c2 b2 s2 heap events h0 w0 h w :
  setup_cache c1 b1 s1 v c2 b2 s2 heap = Returns h0 →
  run events h0 w0 = Some (h, w) →
  ∀ a w1 set block,
    Cache.sets (L1 h) !! N.to_nat (spec_index (L1 h) a) = Some set →
    scan (spec_tag (L1 h) a) (blocks set) = Some block →
    ∃ l1 l2,
      blocks set = l1 ++ block :: l2 ∧
      cache_access READ a h w1
        = Some (with_set h (N.to_nat (spec_index (L1 h) a))
                  (block :: l1 ++ l2),
                mk_world (incr_accesses (incr_reads (p_stats w1)))
                  (trace w1 ++ [EvRead CacheID.L1 a])) ∧
      cache_access WRITE a h w1
        = Some (with_set h (N.to_nat (spec_index (L1 h) a))
                  (set_dirty block :: l1 ++ l2),
                mk_world (incr_accesses (incr_writes (p_stats w1)))
                  (trace w1 ++ [EvWrite CacheID.L1 a false])).
Proof.
  intros Hsetup Hrun a w1 set block Hset Hscan.
  pose proof (run_inv _ _ _ _ _ Hrun (setup_inv _ _ _ _ _ _ _ _ Hsetup))
    as [[Hsets _] _].
  pose proof (run_shaped _ _ _ _ _ _ _ _ _ _ _ _ Hrun
                (setup_shaped _ _ _ _ _ _ _ _ Hsetup)) as Hs.
  destruct (Hsets _ _ Hset) as (_ & Hu & _).
  destruct (remove_scanned _ _ _ Hu Hscan) as (l1 & l2 & Hl & Hr).
  exists l1, l2. split; [done |]. rewrite <- Hr.
  by eapply cache_access_hit.
Qed.

Lemma hit_moves_block_to_front_witness :
  ∃ l1 l2,
    blocks (mkSet [block0]) = l1 ++ block0 :: l2 ∧
    cache_access READ 0 sample_h1 sample_w1
      = Some (with_set sample_h1 (N.to_nat (spec_index (L1 sample_h1) 0))
                (block0 :: l1 ++ l2),
              mk_world (incr_accesses (incr_reads (p_stats sample_w1)))
                (trace sample_w1 ++ [EvRead CacheID.L1 0])) ∧
    cache_access WRITE 0 sample_h1 sample_w1
      = Some (with_set sample_h1 (N.to_nat (spec_index (L1 sample_h1) 0))
                (set_dirty block0 :: l1 ++ l2),
              mk_world (incr_accesses (incr_writes (p_stats sample_w1)))
                (trace sample_w1 ++ [EvWrite CacheID.L1 0 false])).
Proof.
  apply (hit_moves_block_to_front 4 4 0 2 6 4 0 sample_heap
           [(WRITE, 0)] sample_h0 world0
           sample_h1 sample_w1 eq_refl eq_refl 0 sample_w1 (mkSet [block0])
           block0); reflexivity.
Defined.

(** X14. After a read or a write of an address, a read or a write of any
    address of the same L1 block ([a' / 2^b1 = a / 2^b1]) hits in L1: it
    increments [reads] or [writes] and [accesses] only, and leaves the
    victim cache and L2 as they are. *)
Theorem access_to_same_block_hits c1 b1 s1 v c2 b2 s2 heap events h0 w0 h w :
  setup_cache c1 b1 s1 v c2 b2 s2 heap = Returns h0 →
  run events h0 w0 = Some (h, w) →
  ∀ type a h1 w1 a' w2,
    is_access type = true →
    cache_access type a h w = Some (h1, w1) →
    a' / 2 ^ b1 = a / 2 ^ b1 →
    ∃ hr hw,
      cache_access READ a' h1 w2
        = Some (hr, mk_world (incr_accesses (incr_reads (p_stats w2)))
                      (trace w2 ++ [EvRead CacheID.L1 a'])) ∧
      cache_access WRITE a' h1 w2
        = Some (hw, mk_world (incr_accesses (incr_writes (p_stats w2)))
                      (trace w2 ++ [EvWrite CacheID.L1 a' false])) ∧
      L2 hr = L2 h1 ∧ L2 hw = L2 h1 ∧
      Cache.victimCache (L1 hr) = Cache.victimCache (L1 h1) ∧
      Cache.victimCache (L1 hw) = Cache.victimCache (L1 h1).
Proof.
  intros Hsetup Hrun type a h1 w1 a' w2 Hty Hacc Hblock.
  pose proof (run_shaped _ _ _ _ _ _ _ _ _ _ _ _ Hrun
                (setup_shaped _ _ _ _ _ _ _ _ Hsetup)) as Hs.
  pose proof (cache_access_shaped _ _ _ _ _ _ _ _ _ _ _ _ _ Hacc Hs) as Hs1.
  assert (∃ f dl, works_on (L1 h) a (L1 h1) f dl ∧
                  ∀ b, valid (f b) = valid b ∧ tag (f b) = tag b)
    as (f & dl & Hw & Hf).
  { unfold cache_access, is_access in *.
    destruct (Ascii.eqb type READ).
    - destruct (Cache.read _ _ _) as [[c w']|] eqn:Hr; simpl in Hacc; [| done].
      injection Hacc as <- <-. exists (λ b, b), false.
      split; [by eapply read_works_on | done].
    - simpl in Hty. rewrite Hty in Hacc.
      destruct (Cache.write _ _ _ _) as [[c w']|] eqn:Hr; simpl in Hacc;
        [| done].
      injection Hacc as <- <-. exists set_dirty, true.
      split; [by eapply write_works_on | done]. }
  destruct Hs as ((_ & Hcs & Hbs & Ha & _) & _).
  pose proof Hs1 as ((_ & Hcs1 & Hbs1 & Ha1 & _) & _).
  assert (spec_index (L1 h1) a' = spec_index (L1 h) a ∧
          spec_tag (L1 h1) a' = spec_tag (L1 h) a) as [Hi Ht].
  { unfold spec_index, spec_tag, spec_block_number, spec_number_of_sets.
    by rewrite Hcs, Hbs, Ha, Hcs1, Hbs1, Ha1, Hblock. }
  destruct Hw as (set & Hset & _ & Hcase).
  assert (∃ fb rest,
    Cache.sets (L1 h1) !! N.to_nat (spec_index (L1 h1) a')
      = Some (mkSet (fb :: rest)) ∧
    scan (spec_tag (L1 h1) a') (fb :: rest) = Some fb)
    as (fb & rest & Hset1 & Hscan1).
  { rewrite Hi, Ht. destruct (scan _ (blocks set)) as [block|] eqn:Hscan.
    - exists (f block), (remove block (blocks set)). split; [done |].
      destruct (scan_Some _ _ _ Hscan) as (Hv & Htag & _).
      destruct (Hf block) as [Hfv Hft].
      apply scan_head; congruence.
    - destruct Hcase as [_ Hcase]. eexists _, _. split; [exact Hcase |].
      by apply scan_head. }
  destruct (cache_access_hit _ _ _ _ _ _ _ _ a' w2 _ _ Hs1 Hset1 Hscan1)
    as [Hr Hwr].
  eexists _, _. split; [exact Hr |]. split; [exact Hwr |]. done.
Qed.

Lemma access_to_same_block_hits_witness :
  ∃ hr hw,
    cache_access READ 5 sample_h1 sample_w1
      = Some (hr, mk_world (incr_accesses (incr_reads (p_stats sample_w1)))
                    (trace sample_w1 ++ [EvRead CacheID.L1 5])) ∧
    cache_access WRITE 5 sample_h1 sample_w1
      = Some (hw, mk_world (incr_accesses (incr_writes (p_stats sample_w1)))
                    (trace sample_w1 ++ [EvWrite CacheID.L1 5 false])) ∧
    L2 hr = L2 sample_h1 ∧ L2 hw = L2 sample_h1 ∧
    Cache.victimCache (L1 hr) = Cache.victimCache (L1 sample_h1) ∧
    Cache.victimCache (L1 hw) = Cache.victimCache (L1 sample_h1).
Proof.
  apply (access_to_same_block_hits 4 4 0 2 6 4 0 sample_heap [] sample_h0
           world0 sample_h0 world0 eq_refl eq_refl WRITE 0 sample_h1 sample_w1 5
           sample_w1); reflexivity.
Defined.

(** ** The write-back flag and the ghost trace *)

(** Two results that differ at most in the ghost trace. *)
Definition agree {A : Type} (x y : option (A * world)) : Prop :=
  match x, y with
  | Some (a, w), Some (b, w') => a = b ∧ p_stats w = p_stats w'
  | None, None => True
  | _, _ => False
  end.

Lemma agree_bind {A B : Type} (x y : option (A * world))
    (f g : A * world → option (B * world)) :
  agree x y →
  (∀ a w w', p_stats w = p_stats w' → agree (f (a, w)) (g (a, w'))) →
  agree (x ≫= f) (y ≫= g).
Proof.
  destruct x as [[a w]|], y as [[b w']|]; simpl; try done.
  intros [-> Hst] Hfg. by apply Hfg.
Qed.

Lemma agree_Some {A : Type} (a : A) w w' :
  p_stats w = p_stats w' → agree (Some (a, w)) (Some (a, w')).
Proof. done. Qed.

Lemma vc_read_agree vc a w w' :
  p_stats w = p_stats w' →
  agree (VictimCache.read vc a w) (VictimCache.read vc a w').
Proof.
  intros Hst. unfold VictimCache.read.
  destruct (u64_div a (VictimCache.blockSize vc)) as [t|]; simpl; [| done].
  destruct (scan _ _); simpl; by rewrite Hst.
Qed.

Lemma absorb_agree id vc block w w' :
  p_stats w = p_stats w' →
  agree (Cache.absorb id vc block w) (Cache.absorb id vc block w').
Proof.
  intros Hst. unfold Cache.absorb, VictimCache.insert.
  destruct (valid block); [| done].
  destruct (u64_div _ _) as [t|]; simpl; [| done].
  destruct (_ =? _); simpl; [| done].
  by destruct (pop_back _) as [[x rest]|].
Qed.

Section Ghost.

Context {M : Type} `{Level M}.

Implicit Types (this : Cache.t M).

(** The level below takes nothing from the trace nor from the flag. *)
Hypothesis M_read : ∀ m a w w',
  p_stats w = p_stats w' → agree (level_read m a w) (level_read m a w').
Hypothesis M_write : ∀ m a w w' f f',
  p_stats w = p_stats w' →
  agree (level_write m a w f) (level_write m a w' f').

Lemma fetch_agree memory a w w' :
  p_stats w = p_stats w' →
  agree (Cache.fetch memory a w) (Cache.fetch memory a w').
Proof.
  intros Hst. unfold Cache.fetch. destruct memory as [m|]; [| done].
  apply agree_bind; [by apply M_read |]. by intros m' w1 w1' Hst1.
Qed.

Lemma writeback_agree id memory block w w' :
  p_stats w = p_stats w' →
  agree (Cache.writeback id memory block w)
    (Cache.writeback id memory block w').
Proof.
  intros Hst. unfold Cache.writeback. destruct (dirty block); [| done].
  destruct memory as [m|]; simpl; [| by rewrite Hst].
  apply agree_bind; [apply M_write; simpl; by rewrite Hst |].
  by intros m' w1 w1' Hst1.
Qed.

Lemma replace_agree this index l ovc memory line w w' :
  p_stats w = p_stats w' →
  agree (Cache.replace this index l ovc memory line w)
    (Cache.replace this index l ovc memory line w').
Proof.
  intros Hst. unfold Cache.replace.
  destruct (pop_back l) as [[block rest]|]; simpl; [| done].
  apply agree_bind; [by apply writeback_agree |].
  intros memory' w1 w1' Hst1.
  apply agree_bind.
  - destruct ovc as [vc|]; [| done].
    apply agree_bind; [by apply absorb_agree |]. by intros vc' w2 w2' Hst2.
  - by intros ovc' w2 w2' Hst2.
Qed.

Lemma miss_agree this a index l line w w' :
  p_stats w = p_stats w' →
  agree (Cache.miss this a index l line w) (Cache.miss this a index l line w').
Proof.
  intros Hst. unfold Cache.miss.
  assert (∀ ovc w0 w0', p_stats w0 = p_stats w0' →
    agree ('(memory, w1) ← Cache.fetch (Cache.memory this) a w0;
           Cache.replace this index l ovc memory line w1)
          ('(memory, w1) ← Cache.fetch (Cache.memory this) a w0';
           Cache.replace this index l ovc memory line w1)) as Hfetch.
  { intros ovc w0 w0' Hst0. apply agree_bind; [by apply fetch_agree |].
    intros memory' w1 w1' Hst1. by apply replace_agree. }
  destruct (Cache.victimCache this) as [vc|]; [| by apply Hfetch].
  apply agree_bind; [by apply vc_read_agree |].
  intros [hit vc'] w1 w1' Hst1.
  destruct hit; [by apply replace_agree | by apply Hfetch].
Qed.

Lemma read_agree this a w w' :
  p_stats w = p_stats w' →
  agree (Cache.read this a w) (Cache.read this a w').
Proof.
  intros Hst. rewrite !read_unfold. cbv zeta. destruct (_ || _); [done |].
  destruct (Cache.sets this !! _) as [s|]; [| done].
  destruct (scan _ _).
  - simpl. by rewrite Hst.
  - apply miss_agree. simpl. by rewrite Hst.
Qed.

Lemma write_agree this a w w' f f' :
  p_stats w = p_stats w' →
  agree (Cache.write this a w f) (Cache.write this a w' f').
Proof.
  intros Hst. rewrite !write_unfold. cbv zeta. destruct (_ || _); [done |].
  destruct (Cache.sets this !! _) as [s|]; [| done].
  destruct (scan _ _).
  - simpl. by rewrite Hst.
  - apply miss_agree. simpl. by rewrite Hst.
Qed.

End Ghost.

(** X15. The parameter [isWriteBack] of [Cache::write] has no effect: with
    the flag set or not, from the same statistics, [write] returns the same
    cache and the same statistics, or is undefined in both cases, in L2 and
    in L1 over L2. The same comparison shows that the ghost trace has no
    influence on what [read] and [write] compute. *)
Theorem write_back_flag_is_ignored
    (c : Cache.t (Cache.t Empty_set)) (m : Cache.t Empty_set) a w w' f f' :
  p_stats w = p_stats w' →
  agree (Cache.write m a w f) (Cache.write m a w' f') ∧
  agree (Cache.write c a w f) (Cache.write c a w' f') ∧
  agree (Cache.read m a w) (Cache.read m a w') ∧
  agree (Cache.read c a w) (Cache.read c a w').
Proof.
  intros Hst.
  assert (∀ (x : Cache.t Empty_set) a0 w0 w0',
    p_stats w0 = p_stats w0' →
    agree (level_read x a0 w0) (level_read x a0 w0')) as Hr.
  { intros x a0 w0 w0'. apply read_agree; by intros []. }
  assert (∀ (x : Cache.t Empty_set) a0 w0 w0' g g',
    p_stats w0 = p_stats w0' →
    agree (level_write x a0 w0 g) (level_write x a0 w0' g')) as Hw.
  { intros x a0 w0 w0' g g'. apply write_agree; by intros []. }
  split_and!.
  - by apply Hw.
  - by apply write_agree.
  - by apply Hr.
  - by apply read_agree.
Qed.

Lemma write_back_flag_is_ignored_witness :
  agree (Cache.write sample_m1 16 sample_w1 true)
    (Cache.write sample_m1 16 (mk_world (p_stats sample_w1) []) false) ∧
  agree (Cache.write (L1 sample_h1) 16 sample_w1 true)
    (Cache.write (L1 sample_h1) 16 (mk_world (p_stats sample_w1) []) false) ∧
  agree (Cache.read sample_m1 16 sample_w1)
    (Cache.read sample_m1 16 (mk_world (p_stats sample_w1) [])) ∧
  agree (Cache.read (L1 sample_h1) 16 sample_w1)
    (Cache.read (L1 sample_h1) 16 (mk_world (p_stats sample_w1) [])).
Proof.
  apply (write_back_flag_is_ignored (L1 sample_h1) sample_m1 16 sample_w1
           (mk_world (p_stats sample_w1) []) true false).
  reflexivity.
Defined.

(** ** The fetch of a miss *)

(** The entry that the probe of the victim cache finds for [a]. *)
Definition probe_entry (ovc : option VictimCache.t) (a : N) : option Block :=
  vc ← ovc; scan (a / VictimCache.blockSize vc) (VictimCache.blocks vc).

Section Fetch.

Implicit Types (this : Cache.t (Cache.t Empty_set)) (m : Cache.t Empty_set).

(** The calls that L2 receives in [evs]. *)
Definition l2_calls (evs : list event) : list event :=
  List.filter (is_call_to CacheID.L2) evs.

Lemma l2_calls_app l1 l2 : l2_calls (l1 ++ l2) = l2_calls l1 ++ l2_calls l2.
Proof. apply List.filter_app. Qed.

Lemma l2_calls_terminal_tail id tail :
  terminal_tail id tail → l2_calls tail = [].
Proof. by intros [-> | (block & line & ->)]. Qed.

Lemma linked_miss_calls this a index l line w c' w' block rest :
  linked this →
  l = rest ++ [block] →
  probe_entry (Cache.victimCache this) a = None →
  Cache.miss this a index l line w = Some (c', w') →
  ∃ evs,
    trace w' = trace w ++ evs ∧
    l2_calls evs
      = EvRead CacheID.L2 a
        :: (if dirty block then [EvWrite CacheID.L2 (address block) true]
            else []).
Proof.
  intros (Hid & m & Hmem & Hidm & Hvcm) Hl Hvc Hmiss.
  destruct (two_level_miss _ _ _ _ _ _ _ _ _ Hmem Hvcm
              (empty_memory m) Hmiss)
    as (hit & block' & rest' & m' & fetch_evs & wb_evs & vc_evs & Hl' & _ & _
        & _ & _ & Htr & Hfe & Hwe & Hve & _).
  rewrite Hl in Hl'. apply app_inj_tail in Hl' as [<- <-].
  rewrite Hid, Hidm in *.
  assert (hit = false) as ->.
  { destruct (Cache.victimCache this) as [vc|]; [| by destruct Hve].
    destruct Hve as [Hscan _]. destruct hit; [| done].
    simpl in Hvc. rewrite Hvc in Hscan. by destruct Hscan. }
  assert (l2_calls vc_evs = []) as Hv.
  { destruct (Cache.victimCache this); [| by destruct Hve as [_ ->]].
    destruct Hve as [_ Hve]. destruct (valid block); [| by subst].
    by destruct Hve as (? & ? & dropped & _ & _ & -> & [-> | [x ->]]). }
  destruct Hfe as (tail & -> & Htail).
  eexists. split; [exact Htr |].
  rewrite !l2_calls_app. simpl.
  rewrite (l2_calls_terminal_tail _ _ Htail). simpl. f_equal.
  rewrite !l2_calls_app, Hv. simpl. rewrite app_nil_r.
  destruct (dirty block).
  - destruct Hwe as (tail' & -> & Htail'). simpl.
    by rewrite (l2_calls_terminal_tail _ _ Htail').
  - by destruct Hwe as [-> _].
Qed.

End Fetch.

(** X16. A miss of L1 that the victim cache does not serve, of a [read] or
    of a [write] alike (write-allocate): the calls that L2 receives are
    [read(address)] and then, if the block at the back of the set is dirty,
    [write(block.address, _, true)], in this order and no other. *)
Theorem miss_fetches_then_writes_back
    (this : Cache.t (Cache.t Empty_set)) (m : Cache.t Empty_set)
    (a : N) (w : world) (isWriteBack : bool) c' w' set block :
  Cache.cacheID this = CacheID.L1 → Cache.memory this = Some m →
  Cache.cacheID m = CacheID.L2 → Cache.victimCache m = None →
  Cache.read this a w = Some (c', w') ∨
  Cache.write this a w isWriteBack = Some (c', w') →
  Cache.sets this !! N.to_nat (spec_index this a) = Some set →
  scan (spec_tag this a) (blocks set) = None →
  probe_entry (Cache.victimCache this) a = None →
  list.last (blocks set) = Some block →
  ∃ evs,
    trace w' = trace w ++ evs ∧
    l2_calls evs
      = EvRead CacheID.L2 a
        :: (if dirty block then [EvWrite CacheID.L2 (address block) true]
            else []).
Proof.
  intros Hid Hmem Hidm Hvcm Hop Hset Hscan Hvc [rest Hl]%last_Some.
  unfold spec_index, spec_tag, spec_block_number, spec_number_of_sets in *.
  assert (linked this) as Hlinked by (split; [done | by exists m]).
  assert (∀ entry line w0,
    trace w0 = trace w ++ [entry] → l2_calls [entry] = [] →
    Cache.miss this a
      (a / Cache.blockSize this
       mod (Cache.cacheSize this / Cache.blockSize this
            / Cache.associativity this))
      (blocks set) line w0 = Some (c', w') →
    ∃ evs,
      trace w' = trace w ++ evs ∧
      l2_calls evs
        = EvRead CacheID.L2 a
          :: (if dirty block then [EvWrite CacheID.L2 (address block) true]
              else [])) as Hmiss.
  { intros entry line w0 Htr0 He Hm.
    destruct (linked_miss_calls _ _ _ _ _ _ _ _ _ _ Hlinked Hl Hvc Hm)
      as (evs & Htr & Hcalls).
    exists (entry :: evs). split.
    - rewrite Htr, Htr0. by rewrite <- app_assoc.
    - change (entry :: evs) with ([entry] ++ evs).
      by rewrite l2_calls_app, He, Hcalls. }
  destruct Hop as [Hop | Hop].
  - rewrite read_unfold in Hop. cbv zeta in Hop. unfold numberOfSets in Hop.
    destruct (_ || _); [done |]. rewrite Hset, Hscan in Hop.
    eapply Hmiss; [| | exact Hop]; rewrite ?Hid; done.
  - rewrite write_unfold in Hop. cbv zeta in Hop. unfold numberOfSets in Hop.
    destruct (_ || _); [done |]. rewrite Hset, Hscan in Hop.
    eapply Hmiss; [| | exact Hop]; rewrite ?Hid; done.
Qed.

Lemma miss_fetches_then_writes_back_witness :
  ∃ evs,
    trace sample_w2 = trace (upd incr_writes sample_w1) ++ evs ∧
    l2_calls evs
      = EvRead CacheID.L2 16
        :: (if dirty block0 then [EvWrite CacheID.L2 (address block0) true]
            else []).
Proof.
  apply (miss_fetches_then_writes_back (L1 sample_h1) sample_m1 16
           (upd incr_writes sample_w1) false (L1 sample_h2) sample_w2
           (mkSet [block0]) block0);
    [reflexivity | reflexivity | reflexivity | reflexivity
    | right; reflexivity | reflexivity | reflexivity | reflexivity
    | reflexivity].
Defined.

(** ** What L1 does not depend on *)

(** The counters of L1 that the victim cache does not touch. *)
Definition l1_core (st : cache_stats_t) : N * N * N * N * N * N :=
  (accesses st, reads st, writes st, read_misses_l1 st, write_misses_l1 st,
   write_back_l1 st).

(** Two caches with the same geometry and the same sets. *)
Definition same_sets {M M' : Type} (c : Cache.t M) (c' : Cache.t M') : Prop :=
  Cache.cacheID c = Cache.cacheID c' ∧
  Cache.cacheSize c = Cache.cacheSize c' ∧
  Cache.blockSize c = Cache.blockSize c' ∧
  Cache.associativity c = Cache.associativity c' ∧
  Cache.sets c = Cache.sets c'.

Lemma l1_core_miss block (b b' hit hit' : bool) st st' st1 st1' :
  l1_core st = l1_core st' →
  l1_counters st1
    = l1_counters (writeback_stats block (probe_stats b hit st)) →
  l1_counters st1'
    = l1_counters (writeback_stats block (probe_stats b' hit' st')) →
  l1_core st1 = l1_core st1'.
Proof.
  unfold l1_core, l1_counters, writeback_stats, probe_stats.
  destruct (dirty block), b, b', hit, hit'; simpl; intros [=] [=] [=];
    congruence.
Qed.

Lemma l1_counters_miss block (b hit : bool) st st' st1 st1' :
  l1_counters st = l1_counters st' →
  l1_counters st1
    = l1_counters (writeback_stats block (probe_stats b hit st)) →
  l1_counters st1'
    = l1_counters (writeback_stats block (probe_stats b hit st')) →
  l1_counters st1 = l1_counters st1'.
Proof.
  unfold l1_counters, writeback_stats, probe_stats.
  destruct (dirty block), b, hit; simpl; intros [=] [=] [=]; congruence.
Qed.

(** The probe and the absorption compute the victim cache from the victim
    cache alone. *)
Lemma vc_read_state vc a w w' :
  fst <$> VictimCache.read vc a w = fst <$> VictimCache.read vc a w'.
Proof.
  unfold VictimCache.read.
  destruct (u64_div a (VictimCache.blockSize vc)); simpl; [| done].
  by destruct (scan _ _).
Qed.

Lemma absorb_state id vc block w w' :
  fst <$> Cache.absorb id vc block w = fst <$> Cache.absorb id vc block w'.
Proof.
  unfold Cache.absorb, VictimCache.insert. destruct (valid block); [| done].
  destruct (u64_div _ _); simpl; [| done].
  destruct (_ =? _); simpl; [| done].
  by destruct (pop_back _) as [[x rest]|].
Qed.

Section Independence.

Implicit Types (this : Cache.t (Cache.t Empty_set)).

Lemma miss_same_sets this this' a index l line w w' c c' w1 w1' :
  linked this → linked this' → same_sets this this' →
  l1_core (p_stats w) = l1_core (p_stats w') →
  Cache.miss this a index l line w = Some (c, w1) →
  Cache.miss this' a index l line w' = Some (c', w1') →
  same_sets c c' ∧ l1_core (p_stats w1) = l1_core (p_stats w1').
Proof.
  intros (Hid & m & Hmem & Hidm & Hvcm) (Hid' & m' & Hmem' & Hidm' & Hvcm')
    (_ & Hcs & Hbs & Ha & Hsets) Hst Hm Hm'.
  pose proof (miss_config _ _ _ _ _ _ _ _ Hm) as (Hi1 & Hc1 & Hb1 & Ha1 & _).
  pose proof (miss_config _ _ _ _ _ _ _ _ Hm') as (Hi2 & Hc2 & Hb2 & Ha2 & _).
  pose proof (miss_sets _ _ _ _ _ _ _ _ Hm) as (rest & block & Hl & Hs1).
  pose proof (miss_sets _ _ _ _ _ _ _ _ Hm') as (rest' & block' & Hl' & Hs2).
  rewrite Hl in Hl'. apply app_inj_tail in Hl' as [<- <-].
  split; [unfold same_sets; split_and!; congruence |].
  destruct (two_level_miss _ _ _ _ _ _ _ _ _ Hmem Hvcm (empty_memory m) Hm)
    as (hit & blk & rst & m1 & fe & we & ve & Hlb & _ & _ & _ & _ & _ & _ & _
        & _ & Hc).
  destruct (two_level_miss _ _ _ _ _ _ _ _ _ Hmem' Hvcm' (empty_memory m') Hm')
    as (hit' & blk' & rst' & m1' & fe' & we' & ve' & Hlb' & _ & _ & _ & _ & _
        & _ & _ & _ & Hc').
  rewrite Hl in Hlb, Hlb'.
  apply app_inj_tail in Hlb as [_ Hb], Hlb' as [_ Hb']. subst blk blk'.
  destruct (Hc Hid Hidm) as [Hc1' _]. destruct (Hc' Hid' Hidm') as [Hc2' _].
  exact (l1_core_miss _ _ _ _ _ _ _ _ _ Hst Hc1' Hc2').
Qed.

Lemma miss_same_vc this this' a index l line w w' c c' w1 w1' :
  linked this → linked this' →
  Cache.victimCache this = Cache.victimCache this' →
  l1_counters (p_stats w) = l1_counters (p_stats w') →
  Cache.miss this a index l line w = Some (c, w1) →
  Cache.miss this' a index l line w' = Some (c', w1') →
  Cache.victimCache c = Cache.victimCache c' ∧
  l1_counters (p_stats w1) = l1_counters (p_stats w1').
Proof.
  intros (Hid & m & Hmem & Hidm & Hvcm) (Hid' & m' & Hmem' & Hidm' & Hvcm')
    Hvc Hst Hm Hm'.
  destruct (two_level_miss _ _ _ _ _ _ _ _ _ Hmem Hvcm (empty_memory m) Hm)
    as (hit & blk & rst & m1 & fe & we & ve & Hlb & _ & _ & _ & _ & _ & _ & _
        & Hh & Hc).
  destruct (two_level_miss _ _ _ _ _ _ _ _ _ Hmem' Hvcm' (empty_memory m') Hm')
    as (hit' & blk' & rst' & m1' & fe' & we' & ve' & Hlb' & _ & _ & _ & _ & _
        & _ & _ & Hh' & Hc').
  rewrite Hlb in Hlb'. apply app_inj_tail in Hlb' as [_ Hb]. subst blk'.
  destruct (Hc Hid Hidm) as [Hc1 _]. destruct (Hc' Hid' Hidm') as [Hc2 _].
  rewrite <- Hvc in Hh', Hc2.
  assert (hit' = hit) as ->.
  { destruct (Cache.victimCache this) as [vc|].
    - destruct Hh as [Hh _], Hh' as [Hh' _].
      destruct hit, hit'; try done.
      + rewrite Hh' in Hh. by destruct Hh.
      + rewrite Hh in Hh'. by destruct Hh'.
    - destruct Hh as [-> _], Hh' as [-> _]. done. }
  split; [| exact (l1_counters_miss _ _ _ _ _ _ _ Hst Hc1 Hc2)].
  apply miss_inv in Hm
    as (h1 & ovc1 & wp & mem1 & wf & block & rest & mem2 & wb & ovc2 & wa
        & Hprobe & _ & Hl & _ & Habs & -> & _).
  apply miss_inv in Hm'
    as (h1' & ovc1' & wp' & mem1' & wf' & block' & rest' & mem2' & wb'
        & ovc2' & wa' & Hprobe' & _ & Hl' & _ & Habs' & -> & _).
  rewrite Hl in Hl'. apply app_inj_tail in Hl' as [_ Hb]. subst block'.
  rewrite <- Hvc in Hprobe'. simpl.
  destruct (Cache.victimCache this) as [vc|].
  - destruct Hprobe as (vc1 & Hr & ->), Hprobe' as (vc1' & Hr' & ->).
    pose proof (vc_read_state vc a w w') as Hrs. rewrite Hr, Hr' in Hrs.
    injection Hrs as _ <-.
    destruct Habs as (vc2 & Hab & ->), Habs' as (vc2' & Hab' & ->).
    rewrite Hid in Hab. rewrite Hid' in Hab'.
    pose proof (absorb_state CacheID.L1 vc1 block wb wb') as Has.
    rewrite Hab, Hab' in Has. by injection Has as <-.
  - destruct Hprobe as (_ & -> & _), Hprobe' as (_ & -> & _).
    by destruct Habs as [-> _], Habs' as [-> _].
Qed.

(** Either of the two: the whole of L1 with its victim cache, or L1 without
    its victim cache. *)
Definition same_l1 (whole : bool) this this' (st st' : cache_stats_t) : Prop :=
  same_sets this this' ∧ l1_core st = l1_core st' ∧
  (whole = true →
   Cache.victimCache this = Cache.victimCache this' ∧
   l1_counters st = l1_counters st').

Lemma l1_core_entry (f : cache_stats_t → cache_stats_t) st st' :
  f = incr_reads ∨ f = incr_writes ∨ f = incr_accesses
  ∨ f = incr_read_misses_l1 ∨ f = incr_write_misses_l1 →
  (l1_core st = l1_core st' → l1_core (f st) = l1_core (f st')) ∧
  (l1_counters st = l1_counters st' →
   l1_counters (f st) = l1_counters (f st')).
Proof.
  unfold l1_core, l1_counters.
  intros [-> | [-> | [-> | [-> | ->]]]]; simpl; split; intros [=];
    congruence.
Qed.

Lemma same_l1_entry whole this this' (f : cache_stats_t → cache_stats_t)
    st st' :
  f = incr_reads ∨ f = incr_writes ∨ f = incr_accesses
  ∨ f = incr_read_misses_l1 ∨ f = incr_write_misses_l1 →
  same_l1 whole this this' st st' → same_l1 whole this this' (f st) (f st').
Proof.
  intros Hf (Hs & Hc & Hw). destruct (l1_core_entry f st st' Hf) as [H1 H2].
  split_and!; [done | by apply H1 |].
  intros Hwh. destruct (Hw Hwh) as [Hvc Hl]. split; [done | by apply H2].
Qed.

Lemma miss_same_l1 whole this this' a index l line w w' c c' w1 w1' :
  linked this → linked this' →
  same_l1 whole this this' (p_stats w) (p_stats w') →
  Cache.miss this a index l line w = Some (c, w1) →
  Cache.miss this' a index l line w' = Some (c', w1') →
  same_l1 whole c c' (p_stats w1) (p_stats w1').
Proof.
  intros Hl Hl' (Hs & Hc & Hw) Hm Hm'.
  destruct (miss_same_sets _ _ _ _ _ _ _ _ _ _ _ _ Hl Hl' Hs Hc Hm Hm')
    as [Hs1 Hc1].
  split_and!; [done | done |]. intros Hwh. destruct (Hw Hwh) as [Hvc Hst].
  exact (miss_same_vc _ _ _ _ _ _ _ _ _ _ _ _ Hl Hl' Hvc Hst Hm Hm').
Qed.

Lemma cache_access_same_l1 whole type a h h' w w' h1 h1' w1 w1' :
  linked (L1 h) → linked (L1 h') →
  same_l1 whole (L1 h) (L1 h') (p_stats w) (p_stats w') →
  cache_access type a h w = Some (h1, w1) →
  cache_access type a h' w' = Some (h1', w1') →
  same_l1 whole (L1 h1) (L1 h1') (p_stats w1) (p_stats w1').
Proof.
  intros Hl Hl' Hsame. unfold cache_access.
  pose proof Hsame as ((Hid & Hcs & Hbs & Ha & Hsets) & _).
  pose proof Hl as [Hid1 _].
  destruct (Ascii.eqb type READ).
  - destruct (Cache.read (L1 h) _ _) as [[c w2]|] eqn:Hr; simpl; [| done].
    destruct (Cache.read (L1 h') _ _) as [[c' w2']|] eqn:Hr'; simpl;
      [| done].
    intros [= <- <-] [= <- <-]. simpl. revert Hr Hr'.
    rewrite !read_unfold. cbv zeta. unfold numberOfSets.
    rewrite <- Hid, <- Hcs, <- Hbs, <- Ha, <- Hsets, Hid1.
    destruct (_ || _); [done |].
    destruct (Cache.sets (L1 h) !! _) as [s|]; [| done].
    assert (same_l1 whole (L1 h) (L1 h')
              (incr_accesses (incr_reads (p_stats w)))
              (incr_accesses (incr_reads (p_stats w')))) as Hent
      by (apply same_l1_entry; [tauto |]; apply same_l1_entry; [tauto | done]).
    destruct (scan _ _).
    + intros [= <- <-] [= <- <-]. simpl.
      destruct Hent as ((? & ? & ? & ? & ?) & ? & ?).
      split_and!; simpl; try done; congruence.
    + apply miss_same_l1; [done | done |]. simpl.
      apply same_l1_entry; [tauto | done].
  - destruct (Ascii.eqb type WRITE).
    + destruct (Cache.write (L1 h) _ _ _) as [[c w2]|] eqn:Hr; simpl;
        [| done].
      destruct (Cache.write (L1 h') _ _ _) as [[c' w2']|] eqn:Hr'; simpl;
        [| done].
      intros [= <- <-] [= <- <-]. simpl. revert Hr Hr'.
      rewrite !write_unfold. cbv zeta. unfold numberOfSets.
      rewrite <- Hid, <- Hcs, <- Hbs, <- Ha, <- Hsets, Hid1.
      destruct (_ || _); [done |].
      destruct (Cache.sets (L1 h) !! _) as [s|]; [| done].
      assert (same_l1 whole (L1 h) (L1 h')
                (incr_accesses (incr_writes (p_stats w)))
                (incr_accesses (incr_writes (p_stats w')))) as Hent
        by (apply same_l1_entry; [tauto |]; apply same_l1_entry;
            [tauto | done]).
      destruct (scan _ _).
      * intros [= <- <-] [= <- <-]. simpl.
        destruct Hent as ((? & ? & ? & ? & ?) & ? & ?).
        split_and!; simpl; try done; congruence.
      * apply miss_same_l1; [done | done |]. simpl.
        apply same_l1_entry; [tauto | done].
    + by intros [= <- <-] [= <- <-].
Qed.

Lemma run_same_l1 whole c1 b1 s1 v c2 b2 s2 v' c2' b2' s2' events :
  ∀ h h' w w' h1 h1' w1 w1',
  shaped c1 b1 s1 v c2 b2 s2 h → shaped c1 b1 s1 v' c2' b2' s2' h' →
  same_l1 whole (L1 h) (L1 h') (p_stats w) (p_stats w') →
  run events h w = Some (h1, w1) →
  run events h' w' = Some (h1', w1') →
  same_l1 whole (L1 h1) (L1 h1') (p_stats w1) (p_stats w1').
Proof.
  induction events as [|[type arg] events IH]; simpl;
    intros h h' w w' h1 h1' w1 w1' Hs Hs' Hsame.
  - by intros [= <- <-] [= <- <-].
  - destruct (cache_access type arg h w) as [[h2 w2]|] eqn:Hacc; simpl;
      [| done].
    destruct (cache_access type arg h' w') as [[h2' w2']|] eqn:Hacc'; simpl;
      [| done].
    apply IH.
    + by eapply cache_access_shaped.
    + by eapply cache_access_shaped.
    + eapply cache_access_same_l1; [| | exact Hsame | exact Hacc | exact Hacc'].
      * by eapply shaped_linked.
      * by eapply shaped_linked.
Qed.

Lemma setup_same_sets {heap heap'} c1 b1 s1 v c2 b2 s2 v' c2' b2' s2' h h' :
  setup_cache c1 b1 s1 v c2 b2 s2 heap = Returns h →
  setup_cache c1 b1 s1 v' c2' b2' s2' heap' = Returns h' →
  same_sets (L1 h) (L1 h') ∧
  (v = v' → Cache.victimCache (L1 h) = Cache.victimCache (L1 h')).
Proof.
  intros (l1 & l2 & _ & H1 & ->)%setup_cache_eq
    (l1' & l2' & _ & H1' & ->)%setup_cache_eq.
  unfold constructed in H1, H1'. destruct (_ && _); [| done].
  injection H1 as <-. injection H1' as <-. simpl.
  split; [by unfold same_sets | by intros ->].
Qed.

End Independence.

(** The sample run on two other hierarchies: without victim cache and with
    an L2 of two blocks, and with the victim cache and that L2. *)
Definition plain_h0 : hierarchy :=
  Eval vm_compute in
    default hierarchy0 (returned (setup_cache 4 4 0 0 5 4 0 sample_heap)).

Definition plain_h : hierarchy :=
  Eval vm_compute in
    default hierarchy0 (fst <$> run sample_events plain_h0 world0).

Definition plain_w : world :=
  Eval vm_compute in
    default world0 (snd <$> run sample_events plain_h0 world0).

Definition small_h0 : hierarchy :=
  Eval vm_compute in
    default hierarchy0 (returned (setup_cache 4 4 0 2 5 4 0 sample_heap)).

Definition small_h : hierarchy :=
  Eval vm_compute in
    default hierarchy0 (fst <$> run sample_events small_h0 world0).

Definition small_w : world :=
  Eval vm_compute in
    default world0 (snd <$> run sample_events small_h0 world0).

(** X17. The sets of L1 and the counters [accesses], [reads], [writes],
    [read_misses_l1], [write_misses_l1] and [write_back_l1] depend on the
    geometry of L1 and on the events only: two hierarchies with the same
    [c1], [b1] and [s1], whatever their victim caches and their L2, end the
    same sequence of events with the same sets in L1 and the same values of
    these counters. In particular a miss of L1 that the victim cache serves
    is counted as a miss of L1 all the same. *)
Theorem l1_sets_independent_of_victim_cache_and_l2
    c1 b1 s1 v c2 b2 s2 v' c2' b2' s2' heap heap' events h0 h0' w0 h w h' w' :
  setup_cache c1 b1 s1 v c2 b2 s2 heap = Returns h0 →
  setup_cache c1 b1 s1 v' c2' b2' s2' heap' = Returns h0' →
  run events h0 w0 = Some (h, w) →
  run events h0' w0 = Some (h', w') →
  Cache.sets (L1 h) = Cache.sets (L1 h') ∧
  accesses (p_stats w) = accesses (p_stats w') ∧
  reads (p_stats w) = reads (p_stats w') ∧
  writes (p_stats w) = writes (p_stats w') ∧
  read_misses_l1 (p_stats w) = read_misses_l1 (p_stats w') ∧
  write_misses_l1 (p_stats w) = write_misses_l1 (p_stats w') ∧
  write_back_l1 (p_stats w) = write_back_l1 (p_stats w').
Proof.
  intros Hsetup Hsetup' Hrun Hrun'.
  destruct (setup_same_sets _ _ _ _ _ _ _ _ _ _ _ _ _ Hsetup Hsetup')
    as [Hs _].
  assert (same_l1 false (L1 h0) (L1 h0') (p_stats w0) (p_stats w0)) as Hsame
    by (by split_and!).
  destruct (run_same_l1 false _ _ _ _ _ _ _ _ _ _ _ _ _ _ _ _ _ _ _ _
              (setup_shaped _ _ _ _ _ _ _ _ Hsetup)
              (setup_shaped _ _ _ _ _ _ _ _ Hsetup') Hsame Hrun Hrun')
    as ((_ & _ & _ & _ & Hsets) & Hc & _).
  unfold l1_core in Hc. injection Hc as -> -> -> -> -> ->. done.
Qed.

Lemma l1_sets_independent_of_victim_cache_and_l2_witness :
  Cache.sets (L1 sample_h) = Cache.sets (L1 plain_h) ∧
  accesses (p_stats sample_w) = accesses (p_stats plain_w) ∧
  reads (p_stats sample_w) = reads (p_stats plain_w) ∧
  writes (p_stats sample_w) = writes (p_stats plain_w) ∧
  read_misses_l1 (p_stats sample_w) = read_misses_l1 (p_stats plain_w) ∧
  write_misses_l1 (p_stats sample_w) = write_misses_l1 (p_stats plain_w) ∧
  write_back_l1 (p_stats sample_w) = write_back_l1 (p_stats plain_w).
Proof.
  apply (l1_sets_independent_of_victim_cache_and_l2 4 4 0 2 6 4 0 0 5 4 0
           sample_heap sample_heap sample_events sample_h0 plain_h0 world0);
    reflexivity.
Defined.

(** X18. Two hierarchies with the same L1 and the same victim cache end the
    same sequence of events with the same sets in L1, the same victim cache
    and the same values of all the counters of L1 and of the victim cache,
    whatever their L2. *)
Theorem l1_independent_of_l2
    c1 b1 s1 v c2 b2 s2 c2' b2' s2' heap heap' events h0 h0' w0 h w h' w' :
  setup_cache c1 b1 s1 v c2 b2 s2 heap = Returns h0 →
  setup_cache c1 b1 s1 v c2' b2' s2' heap' = Returns h0' →
  run events h0 w0 = Some (h, w) →
  run events h0' w0 = Some (h', w') →
  Cache.sets (L1 h) = Cache.sets (L1 h') ∧
  Cache.victimCache (L1 h) = Cache.victimCache (L1 h') ∧
  l1_counters (p_stats w) = l1_counters (p_stats w').
Proof.
  intros Hsetup Hsetup' Hrun Hrun'.
  destruct (setup_same_sets _ _ _ _ _ _ _ _ _ _ _ _ _ Hsetup Hsetup')
    as [Hs Hvc].
  assert (same_l1 true (L1 h0) (L1 h0') (p_stats w0) (p_stats w0)) as Hsame.
  { split_and!; [done | done |]. intros _. split; [by apply Hvc | done]. }
  destruct (run_same_l1 true _ _ _ _ _ _ _ _ _ _ _ _ _ _ _ _ _ _ _ _
              (setup_shaped _ _ _ _ _ _ _ _ Hsetup)
              (setup_shaped _ _ _ _ _ _ _ _ Hsetup') Hsame Hrun Hrun')
    as ((_ & _ & _ & _ & Hsets) & _ & Hw).
  destruct (Hw eq_refl) as [Hv Hl]. done.
Qed.

Lemma l1_independent_of_l2_witness :
  Cache.sets (L1 sample_h) = Cache.sets (L1 small_h) ∧
  Cache.victimCache (L1 sample_h) = Cache.victimCache (L1 small_h) ∧
  l1_counters (p_stats sample_w) = l1_counters (p_stats small_w).
Proof.
  apply (l1_independent_of_l2 4 4 0 2 6 4 0 5 4 0 sample_heap sample_heap
           sample_events sample_h0 small_h0 world0); reflexivity.
Defined.

(** X19. Each hit in the victim cache saves one call of L2: from zeroed
    statistics and as long as no counter can have wrapped, the same events
    on the same L1 without victim cache leave in [accesses_l2] what they
    leave with the victim cache in [accesses_l2] and [victim_hits]
    together. *)
Theorem victim_hit_saves_an_l2_access
    c1 b1 s1 v c2 b2 s2 c2' b2' s2' heap heap' events h0 h0' w0 h w h' w' :
  setup_cache c1 b1 s1 v c2 b2 s2 heap = Returns h0 →
  setup_cache c1 b1 s1 0 c2' b2' s2' heap' = Returns h0' →
  run events h0 w0 = Some (h, w) →
  run events h0' w0 = Some (h', w') →
  p_stats w0 = stats0 →
  2 * N.of_nat (accesses_of events) < 2 ^ 64 →
  victim_hits (p_stats w') = 0 ∧
  accesses_l2 (p_stats w')
    = accesses_l2 (p_stats w) + victim_hits (p_stats w).
Proof.
  intros Hsetup Hsetup' Hrun Hrun' H0 Hlen.
  destruct (setup_same_sets _ _ _ _ _ _ _ _ _ _ _ _ _ Hsetup Hsetup')
    as [Hs _].
  assert (same_l1 false (L1 h0) (L1 h0') (p_stats w0) (p_stats w0)) as Hsame
    by (by split_and!).
  destruct (run_same_l1 false _ _ _ _ _ _ _ _ _ _ _ _ _ _ _ _ _ _ _ _
              (setup_shaped _ _ _ _ _ _ _ _ Hsetup)
              (setup_shaped _ _ _ _ _ _ _ _ Hsetup') Hsame Hrun Hrun')
    as (_ & Hc & _).
  unfold l1_core in Hc. injection Hc as _ _ _ Hrm Hwm Hwb.
  destruct (run_stats_exact _ _ _ _ _ _ _ _ _ _ _ _ Hsetup Hrun H0 Hlen)
    as (d & Hf & _ & _ & _ & -> & _ & _ & _ & Hrm1 & _ & Hwm1 & _ & Hwb1 & _
        & ->).
  destruct (run_stats_exact _ _ _ _ _ _ _ _ _ _ _ _ Hsetup' Hrun' H0 Hlen)
    as (d' & Hf' & _ & _ & _ & -> & _ & _ & _ & Hrm1' & _ & Hwm1' & _ & Hwb1'
        & _ & ->).
  unfold fair in Hf, Hf'. simpl in Hf'. destruct (negb (v =? 0)); lia.
Qed.

Lemma victim_hit_saves_an_l2_access_witness :
  victim_hits (p_stats plain_w) = 0 ∧
  accesses_l2 (p_stats plain_w)
    = accesses_l2 (p_stats sample_w) + victim_hits (p_stats sample_w).
Proof.
  apply (victim_hit_saves_an_l2_access 4 4 0 2 6 4 0 5 4 0 sample_heap
           sample_heap sample_events sample_h0 plain_h0 world0 sample_h
           sample_w plain_h plain_w);
    [reflexivity | reflexivity | reflexivity | reflexivity | reflexivity |].
  vm_compute. reflexivity.
Defined.


(** ** The LRU stack of a set *)

(** The tags of the valid blocks of a set, most recently used first. *)
Fixpoint valid_tags (l : list Block) : list N :=
  match l with
  | [] => []
  | b :: l' => if valid b then tag b :: valid_tags l' else valid_tags l'
  end.

(** What an access to the tag [t] makes of the stack [V] of a set of [cap]
    blocks: the tag moves to the top, or enters at the top while the stack
    keeps the [cap - 1] tags below it. *)
Definition lru (cap : nat) (t : N) (V : list N) : list N :=
  if decide (t ∈ V) then t :: filter (λ x, x ≠ t) V
  else t :: take (cap - 1) V.

(** The valid blocks of a set come first. *)
Definition packed (l : list Block) : Prop :=
  ∃ vs ivs, l = vs ++ ivs ∧
            (∀ b, b ∈ vs → valid b = true) ∧
            (∀ b, b ∈ ivs → valid b = false).

Lemma filter_ne_notin (t : N) (V : list N) : t ∉ V → filter (λ x, x ≠ t) V = V.
Proof.
  induction V as [|x V IH]; [done |].
  intros [Hx HV]%not_elem_of_cons.
  rewrite filter_cons_True by done. by rewrite IH.
Qed.

Lemma elem_of_take_full (x : N) n (V : list N) : x ∈ take n V → x ∈ V.
Proof.
  intros (i & Hi & _)%elem_of_take. by eapply list_elem_of_lookup_2.
Qed.

Lemma take_filter_notin n (t : N) (V : list N) :
  t ∉ take n V → take n (filter (λ x, x ≠ t) V) = take n V.
Proof.
  revert n. induction V as [|x V IH]; intros n; [done |].
  destruct n as [|n]; [done |]. simpl.
  intros [Hx HV]%not_elem_of_cons.
  rewrite filter_cons_True by done. simpl. by rewrite IH.
Qed.

Lemma take_filter_in n (t : N) (V : list N) :
  NoDup V → t ∈ take (S n) V →
  take n (filter (λ x, x ≠ t) V) = filter (λ x, x ≠ t) (take (S n) V).
Proof.
  revert n. induction V as [|x V IH]; intros n Hnd; [by intros ?%elem_of_nil |].
  pose proof (NoDup_cons_1_1 _ _ Hnd) as Hx.
  apply NoDup_cons_1_2 in Hnd. simpl.
  destruct (decide (x = t)) as [-> | Hne].
  - intros _. rewrite !filter_cons_False by (by intros ?).
    rewrite filter_ne_notin by done.
    rewrite filter_ne_notin; [done |].
    intros Hin. apply Hx. by eapply elem_of_take_full.
  - intros [? | Hin]%elem_of_cons; [done |].
    rewrite !filter_cons_True by done.
    destruct n as [|n]; [by apply elem_of_nil in Hin |].
    simpl. by rewrite IH.
Qed.

(** The stack of the smaller set is the top of the stack of the larger one,
    before and after an access. *)
Lemma lru_take (A A' : nat) (t : N) (V : list N) :
  NoDup V → (1 ≤ A)%nat → (A ≤ A')%nat →
  take A (lru A' t V) = lru A t (take A V).
Proof.
  intros Hnd H1 Hle. unfold lru.
  destruct A as [|n]; [lia |]. simpl. rewrite Nat.sub_0_r.
  destruct (decide (t ∈ V)) as [Hin | Hnin].
  - destruct (decide (t ∈ take (S n) V)) as [Hin' | Hnin'].
    + simpl. f_equal. by apply take_filter_in.
    + simpl. f_equal. rewrite take_filter_notin.
      * rewrite take_take. f_equal. lia.
      * intros (i & Hi & Hlt)%elem_of_take. apply Hnin'.
        apply elem_of_take. exists i. split; [done | lia].
  - rewrite decide_False.
    + simpl. f_equal. rewrite !take_take. f_equal. lia.
    + intros Hx. apply Hnin. by eapply elem_of_take_full.
Qed.

Lemma valid_tags_length l : (length (valid_tags l) ≤ length l)%nat.
Proof. induction l as [|b l IH]; simpl; [done |]. destruct (valid b); simpl; lia. Qed.

Lemma valid_tags_app l1 l2 :
  valid_tags (l1 ++ l2) = valid_tags l1 ++ valid_tags l2.
Proof.
  induction l1 as [|b l1 IH]; simpl; [done |].
  destruct (valid b); simpl; by rewrite IH.
Qed.

Lemma valid_tags_invalid l :
  (∀ b, b ∈ l → valid b = false) → valid_tags l = [].
Proof.
  induction l as [|b l IH]; simpl; intros Hl; [done |].
  rewrite (Hl b) by apply list_elem_of_here.
  apply IH. intros x Hx. by apply Hl, list_elem_of_further.
Qed.

Lemma valid_tags_full l :
  (∀ b, b ∈ l → valid b = true) → length (valid_tags l) = length l.
Proof.
  induction l as [|b l IH]; simpl; intros Hl; [done |].
  rewrite (Hl b) by apply list_elem_of_here. simpl.
  rewrite IH; [done |]. intros x Hx. by apply Hl, list_elem_of_further.
Qed.

Lemma valid_tags_occurrences t l :
  t ∈ valid_tags l ↔ (0 < occurrences t l)%nat.
Proof.
  induction l as [|b l IH]; simpl; [split; [by intros ?%elem_of_nil | lia] |].
  destruct (valid b); simpl; [| done].
  destruct (N.eqb_spec (tag b) t) as [-> | Hne].
  - split; [lia | intros _; apply list_elem_of_here].
  - rewrite elem_of_cons, IH. split; [by intros [? | ?] | by right].
Qed.

Lemma valid_tags_scan t l : t ∈ valid_tags l ↔ is_Some (scan t l).
Proof. by rewrite valid_tags_occurrences, scan_is_Some. Qed.

Lemma valid_tags_NoDup l : unique l → NoDup (valid_tags l).
Proof.
  induction l as [|b l IH]; simpl; intros Hu; [constructor |].
  assert (unique l) as Hu'.
  { intros t. specialize (Hu t). simpl in Hu.
    destruct (valid b && (tag b =? t)); lia. }
  destruct (valid b) eqn:Hv; [| by apply IH].
  apply NoDup_cons_2; [| by apply IH].
  intros Hin%valid_tags_occurrences. specialize (Hu (tag b)). simpl in Hu.
  rewrite Hv, N.eqb_refl in Hu. simpl in Hu. lia.
Qed.

Lemma valid_tags_remove value l :
  valid value = true →
  valid_tags (remove value l)
    = filter (λ x, x ≠ tag value) (valid_tags l).
Proof.
  intros Hv. induction l as [|e l IH]; simpl; [done |].
  unfold Block_eq. rewrite Hv, andb_true_r.
  destruct (valid e) eqn:He; simpl.
  - destruct (N.eqb_spec (tag e) (tag value)) as [Heq | Hne].
    + rewrite filter_cons_False by (by intros ?). done.
    + rewrite filter_cons_True by done. simpl. by rewrite He, IH.
  - by rewrite He.
Qed.

Lemma remove_invalids value l :
  (∀ b, b ∈ l → valid b = false) → remove value l = l.
Proof.
  induction l as [|b l IH]; simpl; intros Hl; [done |].
  unfold Block_eq. rewrite (Hl b) by apply list_elem_of_here. simpl.
  rewrite IH; [done |]. intros x Hx. by apply Hl, list_elem_of_further.
Qed.

(** A hit: the tag of the block moves to the top of the stack. *)
Lemma valid_tags_hit t l b b' :
  scan t l = Some b → valid b' = true → tag b' = t →
  valid_tags (b' :: remove b l) = lru (length l) t (valid_tags l).
Proof.
  intros Hs Hv' Ht'. destruct (scan_Some _ _ _ Hs) as (Hv & Ht & _).
  unfold lru. rewrite decide_True by (apply valid_tags_scan; eauto).
  simpl. by rewrite Hv', Ht', valid_tags_remove, Ht.
Qed.

Lemma packed_hit t l b b' :
  packed l → scan t l = Some b → valid b' = true →
  packed (b' :: remove b l).
Proof.
  intros (vs & ivs & -> & Hvs & Hivs) Hs Hv'.
  exists (b' :: remove b vs), ivs. split_and!; [| | done].
  - by rewrite remove_app, (remove_invalids _ ivs).
  - intros x [-> | Hx%elem_of_remove]%elem_of_cons; [done | by apply Hvs].
Qed.

(** A miss: the tag of the line enters at the top, and the stack keeps as
    many of the tags below it as the set has room for. *)
Lemma valid_tags_miss t l line :
  packed l → l ≠ [] → scan t l = None → valid line = true → tag line = t →
  valid_tags (line :: removelast l) = lru (length l) t (valid_tags l).
Proof.
  intros (vs & ivs & -> & Hvs & Hivs) Hl Hs Hv Ht.
  unfold lru. rewrite decide_False.
  2:{ intros Hin%valid_tags_scan. rewrite Hs in Hin. by destruct Hin. }
  simpl. rewrite Hv, Ht. f_equal.
  rewrite valid_tags_app, (valid_tags_invalid ivs), app_nil_r by done.
  destruct (decide (ivs = [])) as [-> | Hne].
  - rewrite !app_nil_r in *.
    apply last_is_Some in Hl as [x [vs' ->]%last_Some].
    rewrite removelast_last, !valid_tags_app, length_app. simpl.
    rewrite (Hvs x) by (apply elem_of_app; right; apply list_elem_of_here).
    simpl.
    rewrite Nat.add_sub. apply eq_sym, take_app_length'.
    apply eq_sym, valid_tags_full. intros y Hy. apply Hvs, elem_of_app.
    by left.
  - apply last_is_Some in Hne as [x [ivs' ->]%last_Some].
    rewrite app_assoc, removelast_last, valid_tags_app.
    rewrite (valid_tags_invalid ivs'), app_nil_r
      by (intros y Hy; apply Hivs, elem_of_app; by left).
    rewrite take_ge; [done |].
    pose proof (valid_tags_length vs). rewrite !length_app. simpl. lia.
Qed.

Lemma packed_miss l line :
  packed l → valid line = true → packed (line :: removelast l).
Proof.
  intros (vs & ivs & -> & Hvs & Hivs) Hv.
  destruct (decide (ivs = [])) as [-> | Hne].
  - rewrite app_nil_r. exists (line :: removelast vs), [].
    rewrite app_nil_r. split_and!; [done | | done].
    intros x [-> | Hx%elem_of_removelast]%elem_of_cons; [done | by apply Hvs].
  - apply last_is_Some in Hne as [x [ivs' ->]%last_Some].
    exists (line :: vs), ivs'. rewrite app_assoc, removelast_last.
    split_and!; [done | |].
    + intros y [-> | Hy]%elem_of_cons; [done | by apply Hvs].
    + intros y Hy. apply Hivs, elem_of_app. by left.
Qed.

Lemma packed_replicate_default n : packed (replicate n Block_default).
Proof.
  exists [], (replicate n Block_default).
  split_and!; [done | by intros x ?%elem_of_nil |].
  by intros x ->%elem_of_replicate_inv.
Qed.

Definition packed_sets (sets : list CacheSet) : Prop :=
  ∀ s, s ∈ sets → packed (blocks s).

(** The stacks of the sets of the cache with the associativity [A] are the
    tops of the stacks of the sets of the other cache. *)
Definition stacked (A : nat) (small large : list CacheSet) : Prop :=
  ∀ i s l, small !! i = Some s → large !! i = Some l →
           valid_tags (blocks s) = take A (valid_tags (blocks l)).

Section Stack.

Context {M : Type} `{Level M}.

Implicit Types (this : Cache.t M).

(** What [read] and [write] make of the stack of the set of the address. *)
Lemma works_on_stack this a c' hit_block dirty_line :
  works_on this a c' hit_block dirty_line →
  (∀ b, valid (hit_block b) = valid b ∧ tag (hit_block b) = tag b) →
  packed_sets (Cache.sets this) →
  ∃ set set',
    Cache.sets this !! N.to_nat (spec_index this a) = Some set ∧
    Cache.sets c' !! N.to_nat (spec_index this a) = Some set' ∧
    (∀ j, j ≠ N.to_nat (spec_index this a) →
          Cache.sets c' !! j = Cache.sets this !! j) ∧
    blocks set ≠ [] ∧
    valid_tags (blocks set')
      = lru (length (blocks set)) (spec_tag this a) (valid_tags (blocks set)) ∧
    packed (blocks set').
Proof.
  intros (set & Hset & Hother & Hcase) Hf Hp.
  assert (packed (blocks set)) as Hps
    by (by eapply Hp, list_elem_of_lookup_2).
  exists set. destruct (scan _ _) as [block|] eqn:Hs.
  - destruct (scan_Some _ _ _ Hs) as (Hv & Ht & Hin).
    destruct (Hf block) as [Hfv Hft].
    eexists. split_and!; [done | exact Hcase | done | | |]; cbn [blocks].
    + intros E. rewrite E in Hin. by apply elem_of_nil in Hin.
    + eapply valid_tags_hit; [done | congruence | congruence].
    + eapply packed_hit; [done | done | congruence].
  - destruct Hcase as [Hne Hcase].
    eexists. split_and!; [done | exact Hcase | done | done | |];
      cbn [blocks].
    + by apply valid_tags_miss.
    + by apply packed_miss.
Qed.

Lemma works_on_packed this a c' hit_block dirty_line :
  works_on this a c' hit_block dirty_line →
  (∀ b, valid (hit_block b) = valid b ∧ tag (hit_block b) = tag b) →
  packed_sets (Cache.sets this) → packed_sets (Cache.sets c').
Proof.
  intros Hw Hf Hp s [j Hj]%list_elem_of_lookup_1.
  destruct (works_on_stack _ _ _ _ _ Hw Hf Hp)
    as (set & set' & Hset & Hset' & Hother & _ & _ & Hp').
  destruct (decide (j = N.to_nat (spec_index this a))) as [-> | Hne].
  - rewrite Hset' in Hj. by injection Hj as <-.
  - rewrite (Hother j Hne) in Hj. by eapply Hp, list_elem_of_lookup_2.
Qed.

End Stack.

Lemma works_on_stacked {M M' : Type} `{Level M} `{Level M'}
    (small small' : Cache.t M) (large large' : Cache.t M') a f dl f' dl' :
  works_on small a small' f dl →
  works_on large a large' f' dl' →
  (∀ b, valid (f b) = valid b ∧ tag (f b) = tag b) →
  (∀ b, valid (f' b) = valid b ∧ tag (f' b) = tag b) →
  spec_index small a = spec_index large a →
  spec_tag small a = spec_tag large a →
  inv small → inv large →
  packed_sets (Cache.sets small) → packed_sets (Cache.sets large) →
  (N.to_nat (Cache.associativity small)
   ≤ N.to_nat (Cache.associativity large))%nat →
  stacked (N.to_nat (Cache.associativity small))
    (Cache.sets small) (Cache.sets large) →
  stacked (N.to_nat (Cache.associativity small))
    (Cache.sets small') (Cache.sets large').
Proof.
  intros Hw Hw' Hf Hf' Hi Ht [Hok _] [Hok' _] Hp Hp' Hle Hst.
  destruct (works_on_stack _ _ _ _ _ Hw Hf Hp)
    as (s0 & s1 & Hs0 & Hs1 & Hother & Hne & Hvt & _).
  destruct (works_on_stack _ _ _ _ _ Hw' Hf' Hp')
    as (l0 & l1 & Hl0 & Hl1 & Hother' & Hne' & Hvt' & _).
  rewrite <- Hi, <- Ht in *.
  destruct (Hok _ _ Hs0) as (Hlen & _ & _).
  destruct (Hok' _ _ Hl0) as (Hlen' & Hu' & _).
  intros j s l Hj Hj'.
  destruct (decide (j = N.to_nat (spec_index small a))) as [-> | Hnej].
  - rewrite Hs1 in Hj. rewrite Hl1 in Hj'.
    injection Hj as <-. injection Hj' as <-.
    rewrite Hvt, Hvt', Hlen, Hlen', (Hst _ _ _ Hs0 Hl0).
    apply eq_sym, lru_take; [by apply valid_tags_NoDup | | done].
    rewrite <- Hlen. destruct (blocks s0); [done | simpl; lia].
  - rewrite (Hother j Hnej) in Hj. rewrite (Hother' j Hnej) in Hj'.
    by eapply Hst.
Qed.

(** ** A larger associativity never turns a hit of L1 into a miss *)

(** Whether the access to [a] misses in L1. *)
Definition l1_miss (h : hierarchy) (a : N) : bool :=
  match Cache.sets (L1 h) !! N.to_nat (spec_index (L1 h) a) with
  | Some set =>
      negb (bool_decide (is_Some (scan (spec_tag (L1 h) a) (blocks set))))
  | None => false
  end.

Lemma cache_access_l1_misses type a h w h1 w1 :
  linked (L1 h) →
  cache_access type a h w = Some (h1, w1) →
  read_misses_l1 (p_stats w1)
    = incr_times (if Ascii.eqb type READ && l1_miss h a then 1 else 0)
        (read_misses_l1 (p_stats w)) ∧
  write_misses_l1 (p_stats w1)
    = incr_times
        (if negb (Ascii.eqb type READ) && Ascii.eqb type WRITE && l1_miss h a
         then 1 else 0)
        (write_misses_l1 (p_stats w)).
Proof.
  intros (Hid & m & Hmem & Hidm & Hvcm). unfold cache_access, l1_miss.
  unfold spec_index, spec_tag, spec_block_number, spec_number_of_sets.
  fold (numberOfSets (L1 h)).
  assert (∀ line w0 c,
    Cache.miss (L1 h) a (a / Cache.blockSize (L1 h) mod numberOfSets (L1 h))
      line.1 line.2 w0 = Some (c, w1) →
    read_misses_l1 (p_stats w1) = read_misses_l1 (p_stats w0) ∧
    write_misses_l1 (p_stats w1) = write_misses_l1 (p_stats w0)) as Hmiss.
  { intros [l line] w0 c Hm. simpl in Hm.
    destruct (two_level_miss _ _ _ _ _ _ _ _ _ Hmem Hvcm (empty_memory m) Hm)
      as (hit & blk & rst & m1 & fe & we & ve & _ & _ & _ & _ & _ & _ & _ & _
          & _ & Hc).
    destruct (Hc Hid Hidm) as [Hc1 _].
    unfold l1_counters, writeback_stats, probe_stats in Hc1.
    destruct (dirty blk), (bool_decide _), hit; simpl in Hc1;
      by injection Hc1 as _ _ _ _ -> -> _ _. }
  destruct (Ascii.eqb type READ).
  - destruct (Cache.read _ _ _) as [[c w2]|] eqn:Hr; simpl; [| done].
    intros [= <- <-]. revert Hr. rewrite read_unfold. cbv zeta.
    destruct (_ || _); [done |].
    destruct (Cache.sets (L1 h) !! _) as [s|]; [| done].
    rewrite Hid. destruct (scan _ _) eqn:Hs.
    + intros [= <- <-]. rewrite bool_decide_true by eauto. done.
    + intros Hm. rewrite bool_decide_false by (by intros [? [=]]).
      destruct (Hmiss (blocks s, _) _ _ Hm) as [-> ->]. done.
  - destruct (Ascii.eqb type WRITE); [| by intros [= <- <-]].
    destruct (Cache.write _ _ _ _) as [[c w2]|] eqn:Hr; simpl; [| done].
    intros [= <- <-]. revert Hr. rewrite write_unfold. cbv zeta.
    destruct (_ || _); [done |].
    destruct (Cache.sets (L1 h) !! _) as [s|]; [| done].
    rewrite Hid. destruct (scan _ _) eqn:Hs.
    + intros [= <- <-]. rewrite bool_decide_true by eauto. done.
    + intros Hm. rewrite bool_decide_false by (by intros [? [=]]).
      destruct (Hmiss (blocks s, _) _ _ Hm) as [-> ->]. done.
Qed.

Lemma pow2_sets_same (c b s k : N) :
  b + s ≤ c → 2 ^ (c + k) / 2 ^ b / 2 ^ (s + k) = 2 ^ c / 2 ^ b / 2 ^ s.
Proof.
  intros Hle.
  rewrite !N.Div0.div_div, <- !N.pow_add_r, <- !N.pow_sub_r by (done || lia).
  f_equal. lia.
Qed.

(** What two hierarchies that run the same events keep, the first with the
    associativity [2^s] in L1 and the second with [2^(s + k)] and as many
    sets. *)
Definition lockstep (s : N) (hs hl : hierarchy) : Prop :=
  hierarchy_inv hs ∧ hierarchy_inv hl ∧
  packed_sets (Cache.sets (L1 hs)) ∧ packed_sets (Cache.sets (L1 hl)) ∧
  stacked (N.to_nat (2 ^ s)) (Cache.sets (L1 hs)) (Cache.sets (L1 hl)).

Lemma cache_access_works_on type a h w h1 w1 :
  is_access type = true →
  cache_access type a h w = Some (h1, w1) →
  ∃ f dl, works_on (L1 h) a (L1 h1) f dl ∧
          ∀ b, valid (f b) = valid b ∧ tag (f b) = tag b.
Proof.
  unfold cache_access, is_access. intros Hty Hacc.
  destruct (Ascii.eqb type READ).
  - destruct (Cache.read _ _ _) as [[c w']|] eqn:Hr; simpl in Hacc; [| done].
    injection Hacc as <- <-. exists (λ b, b), false.
    split; [by eapply read_works_on | done].
  - simpl in Hty. rewrite Hty in Hacc.
    destruct (Cache.write _ _ _ _) as [[c w']|] eqn:Hr; simpl in Hacc;
      [| done].
    injection Hacc as <- <-. exists set_dirty, true.
    split; [by eapply write_works_on | done].
Qed.

Lemma cache_access_lockstep c1 b1 s1 k v c2 b2 s2 v' c2' b2' s2'
    type a hs hl ws wl hs1 ws1 hl1 wl1 :
  b1 + s1 ≤ c1 →
  shaped c1 b1 s1 v c2 b2 s2 hs →
  shaped (c1 + k) b1 (s1 + k) v' c2' b2' s2' hl →
  lockstep s1 hs hl →
  cache_access type a hs ws = Some (hs1, ws1) →
  cache_access type a hl wl = Some (hl1, wl1) →
  lockstep s1 hs1 hl1 ∧ (l1_miss hl a = true → l1_miss hs a = true).
Proof.
  intros Hle Hs Hl (Hinv & Hinv' & Hp & Hp' & Hst) Hacc Hacc'.
  pose proof Hs as ((_ & Hcs & Hbs & Ha & _) & _).
  pose proof Hl as ((_ & Hcs' & Hbs' & Ha' & _) & _).
  destruct (is_access type) eqn:Hty.
  2:{ unfold cache_access, is_access in *.
      apply orb_false_iff in Hty as [Hr Hw]. rewrite Hr, Hw in Hacc, Hacc'.
      injection Hacc as <- <-. injection Hacc' as <- <-.
      split; [by split_and! |]. unfold l1_miss.
      assert (spec_index (L1 hs) a = spec_index (L1 hl) a ∧
              spec_tag (L1 hs) a = spec_tag (L1 hl) a) as [Hi Ht].
      { unfold spec_index, spec_tag, spec_block_number, spec_number_of_sets.
        by rewrite Hcs, Hbs, Ha, Hcs', Hbs', Ha', pow2_sets_same. }
      rewrite <- Hi, <- Ht.
      destruct (Cache.sets (L1 hl) !! _) as [l|] eqn:El; [| done].
      destruct (Cache.sets (L1 hs) !! _) as [s|] eqn:Es.
      - intros Hm. apply negb_true_iff, bool_decide_eq_false in Hm.
        apply negb_true_iff, bool_decide_eq_false. intros Hin. apply Hm.
        apply valid_tags_scan. apply valid_tags_scan in Hin.
        rewrite (Hst _ _ _ Es El) in Hin. by eapply elem_of_take_full.
      - pose proof Hs as ((_ & _ & _ & _ & Hlen & _) & _).
        pose proof Hl as ((_ & _ & _ & _ & Hlen' & _) & _).
        rewrite pow2_sets_same in Hlen' by done.
        apply lookup_ge_None in Es. apply lookup_lt_Some in El. lia. }
  destruct (cache_access_works_on _ _ _ _ _ _ Hty Hacc) as (f & dl & Hw & Hf).
  destruct (cache_access_works_on _ _ _ _ _ _ Hty Hacc')
    as (f' & dl' & Hw' & Hf').
  assert (spec_index (L1 hs) a = spec_index (L1 hl) a ∧
          spec_tag (L1 hs) a = spec_tag (L1 hl) a) as [Hi Ht].
  { unfold spec_index, spec_tag, spec_block_number, spec_number_of_sets.
    by rewrite Hcs, Hbs, Ha, Hcs', Hbs', Ha', pow2_sets_same. }
  split.
  - split_and!.
    + by eapply cache_access_inv.
    + by eapply cache_access_inv.
    + by eapply works_on_packed.
    + by eapply works_on_packed.
    + rewrite <- Ha.
      eapply (works_on_stacked (L1 hs) (L1 hs1) (L1 hl) (L1 hl1));
        try done; try (by destruct Hinv); try (by destruct Hinv').
      * rewrite Ha, Ha'.
        assert (2 ^ s1 ≤ 2 ^ (s1 + k)) by (apply N.pow_le_mono_r; lia). lia.
      * by rewrite Ha.
  - unfold l1_miss. rewrite <- Hi, <- Ht.
    destruct Hw as (s & Es & _). destruct Hw' as (l & El & _).
    rewrite <- Hi in El. rewrite Es, El.
    intros Hm. apply negb_true_iff, bool_decide_eq_false in Hm.
    apply negb_true_iff, bool_decide_eq_false. intros Hin. apply Hm.
    apply valid_tags_scan. apply valid_tags_scan in Hin.
    rewrite (Hst _ _ _ Es El) in Hin. by eapply elem_of_take_full.
Qed.

Lemma run_lockstep c1 b1 s1 k v c2 b2 s2 v' c2' b2' s2' events :
  ∀ hs hl ws wl hs1 ws1 hl1 wl1,
  b1 + s1 ≤ c1 →
  shaped c1 b1 s1 v c2 b2 s2 hs →
  shaped (c1 + k) b1 (s1 + k) v' c2' b2' s2' hl →
  lockstep s1 hs hl →
  run events hs ws = Some (hs1, ws1) →
  run events hl wl = Some (hl1, wl1) →
  lockstep s1 hs1 hl1 ∧
  ∃ rs rl wrs wrl : nat,
    read_misses_l1 (p_stats ws1)
      = incr_times rs (read_misses_l1 (p_stats ws)) ∧
    read_misses_l1 (p_stats wl1)
      = incr_times rl (read_misses_l1 (p_stats wl)) ∧
    write_misses_l1 (p_stats ws1)
      = incr_times wrs (write_misses_l1 (p_stats ws)) ∧
    write_misses_l1 (p_stats wl1)
      = incr_times wrl (write_misses_l1 (p_stats wl)) ∧
    (rl ≤ rs)%nat ∧ (wrl ≤ wrs)%nat ∧ (rs + wrs ≤ accesses_of events)%nat.
Proof.
  induction events as [|[type arg] events IH]; simpl;
    intros hs hl ws wl hs1 ws1 hl1 wl1 Hle Hs Hl Hlock.
  - intros [= <- <-] [= <- <-]. split; [done |].
    exists 0%nat, 0%nat, 0%nat, 0%nat. by split_and!.
  - destruct (cache_access type arg hs ws) as [[hs2 ws2]|] eqn:Hacc; simpl;
      [| done].
    destruct (cache_access type arg hl wl) as [[hl2 wl2]|] eqn:Hacc'; simpl;
      [| done].
    intros Hrun Hrun'.
    destruct (cache_access_lockstep _ _ _ _ _ _ _ _ _ _ _ _ _ _ _ _ _ _ _ _
                _ _ Hle Hs Hl Hlock Hacc Hacc') as [Hlock2 Hmiss].
    destruct (IH _ _ _ _ _ _ _ _ Hle
                (cache_access_shaped _ _ _ _ _ _ _ _ _ _ _ _ _ Hacc Hs)
                (cache_access_shaped _ _ _ _ _ _ _ _ _ _ _ _ _ Hacc' Hl)
                Hlock2 Hrun Hrun')
      as (Hlock1 & rs & rl & wrs & wrl & -> & -> & -> & -> & Hr & Hw & Hn).
    split; [done |].
    destruct (cache_access_l1_misses _ _ _ _ _ _
                (shaped_linked _ _ _ _ _ _ _ _ Hs) Hacc) as [-> ->].
    destruct (cache_access_l1_misses _ _ _ _ _ _
                (shaped_linked _ _ _ _ _ _ _ _ Hl) Hacc') as [-> ->].
    rewrite !incr_times_add. eexists _, _, _, _.
    split_and!; [done | done | done | done | | |].
    + destruct (Ascii.eqb type READ), (l1_miss hl arg) eqn:E; simpl; try lia.
      rewrite (Hmiss eq_refl). lia.
    + destruct (Ascii.eqb type READ), (Ascii.eqb type WRITE),
        (l1_miss hl arg) eqn:E; simpl; try lia.
      rewrite (Hmiss eq_refl). lia.
    + unfold accesses_of, is_access in *. simpl.
      destruct (Ascii.eqb type READ), (Ascii.eqb type WRITE),
        (l1_miss hs arg); simpl; lia.
Qed.

Lemma new_packed {M : Type} id c b s v (cache : option M) this :
  constructed id c b s v cache = Some this →
  packed_sets (Cache.sets this) ∧
  ∀ set, set ∈ Cache.sets this → valid_tags (blocks set) = [].
Proof.
  unfold constructed. destruct (_ && _); [| done]. intros [= <-]. simpl.
  split; intros set ->%elem_of_replicate_inv; simpl.
  - apply packed_replicate_default.
  - apply valid_tags_invalid. by intros x ->%elem_of_replicate_inv.
Qed.

Lemma setup_lockstep {heap heap'} c1 b1 s1 k v c2 b2 s2 v' c2' b2' s2' hs hl :
  setup_cache c1 b1 s1 v c2 b2 s2 heap = Returns hs →
  setup_cache (c1 + k) b1 (s1 + k) v' c2' b2' s2' heap' = Returns hl →
  lockstep s1 hs hl.
Proof.
  intros Hs Hl. split_and!; [by eapply setup_inv | by eapply setup_inv | | |].
  - apply setup_cache_eq in Hs as (l1 & l2 & _ & H1 & ->).
    by apply new_packed in H1 as [? _].
  - apply setup_cache_eq in Hl as (l1 & l2 & _ & H1 & ->).
    by apply new_packed in H1 as [? _].
  - apply setup_cache_eq in Hs as (l1 & l2 & _ & H1 & ->).
    apply setup_cache_eq in Hl as (l1' & l2' & _ & H1' & ->).
    apply new_packed in H1 as [_ H1], H1' as [_ H1']. simpl.
    intros i s l Hi Hi'.
    rewrite (H1 s), (H1' l) by (by eapply list_elem_of_lookup_2).
    by rewrite take_nil.
Qed.

(** The sample run on an L1 of the same single set with two blocks. *)
Definition wide_h0 : hierarchy :=
  Eval vm_compute in
    default hierarchy0 (returned (setup_cache 5 4 1 2 6 4 0 sample_heap)).

Definition wide_h : hierarchy :=
  Eval vm_compute in
    default hierarchy0 (fst <$> run sample_events wide_h0 world0).

Definition wide_w : world :=
  Eval vm_compute in
    default world0 (snd <$> run sample_events wide_h0 world0).

(** X20. A larger associativity never turns a hit of L1 into a miss.  Take
    two hierarchies whose L1 have the same block size and the same number
    of sets, the second with [2 ^ k] times the blocks per set, whatever
    their victim caches and their L2.  After the same events every tag that
    a set of the first L1 holds in a valid block is held by the same set of
    the second; and from zeroed statistics, as long as no counter can have
    wrapped, the second L1 has counted no more read misses and no more
    write misses than the first. *)
Theorem larger_associativity_keeps_hits
    c1 b1 s1 k v c2 b2 s2 v' c2' b2' s2' heap heap' events hs0 hl0 w0 hs ws hl
    wl :
  b1 + s1 ≤ c1 →
  setup_cache c1 b1 s1 v c2 b2 s2 heap = Returns hs0 →
  setup_cache (c1 + k) b1 (s1 + k) v' c2' b2' s2' heap' = Returns hl0 →
  run events hs0 w0 = Some (hs, ws) →
  run events hl0 w0 = Some (hl, wl) →
  (∀ i s l t,
     Cache.sets (L1 hs) !! i = Some s → Cache.sets (L1 hl) !! i = Some l →
     is_Some (scan t (blocks s)) → is_Some (scan t (blocks l))) ∧
  (p_stats w0 = stats0 → N.of_nat (accesses_of events) < 2 ^ 64 →
   read_misses_l1 (p_stats wl) ≤ read_misses_l1 (p_stats ws) ∧
   write_misses_l1 (p_stats wl) ≤ write_misses_l1 (p_stats ws)).
Proof.
  intros Hle Hsetup Hsetup' Hrun Hrun'.
  destruct (run_lockstep _ _ _ _ _ _ _ _ _ _ _ _ _ _ _ _ _ _ _ _ _ Hle
              (setup_shaped _ _ _ _ _ _ _ _ Hsetup)
              (setup_shaped _ _ _ _ _ _ _ _ Hsetup')
              (setup_lockstep _ _ _ _ _ _ _ _ _ _ _ _ _ _ Hsetup Hsetup')
              Hrun Hrun')
    as ((_ & _ & _ & _ & Hst) & rs & rl & wrs & wrl & Hrs & Hrl & Hws & Hwl
        & Hr & Hw & Hn).
  split.
  - intros i s l t Hi Hi' Hin%valid_tags_scan. apply valid_tags_scan.
    rewrite (Hst _ _ _ Hi Hi') in Hin. by eapply elem_of_take_full.
  - intros H0 Hlen. rewrite Hrs, Hrl, Hws, Hwl, H0. simpl.
    rewrite !incr_times_zero by lia. lia.
Qed.

Lemma larger_associativity_keeps_hits_witness :
  (∀ i s l t,
     Cache.sets (L1 sample_h) !! i = Some s →
     Cache.sets (L1 wide_h) !! i = Some l →
     is_Some (scan t (blocks s)) → is_Some (scan t (blocks l))) ∧
  read_misses_l1 (p_stats wide_w) ≤ read_misses_l1 (p_stats sample_w) ∧
  write_misses_l1 (p_stats wide_w) ≤ write_misses_l1 (p_stats sample_w).
Proof.
  destruct (larger_associativity_keeps_hits 4 4 0 1 2 6 4 0 2 6 4 0
              sample_heap sample_heap sample_events sample_h0 wide_h0
              world0 sample_h sample_w wide_h wide_w) as [Hin Hle];
    [lia | reflexivity | reflexivity | reflexivity | reflexivity |].
  split; [exact Hin |]. apply Hle; [reflexivity |]. vm_compute. reflexivity.
Defined.
